(** * Pedestrian evacuation simulation (lab3/pedestrian-simulation)

    A shallow embedding of [js/Vector.js], [js/Environment.js],
    [js/Agent.js] and [js/Simulation.js], and the properties of the
    simulation core proved on it.

    Conventions of the embedding.

    - A JavaScript number is a real number: arithmetic is exact, so the
      rounding, the infinities and NaN of IEEE doubles are not part of
      the main model.  What depends on rounding is stated on two further
      models of the same code: [Rounded], in which every operation is
      followed by a rounding of bounded relative error, for the bounds
      that hold in doubles, and [Binary64], in which the numbers are
      IEEE doubles with the operations of the machine, for the values
      the program computes.  Integer counters ([count], [frame],
      [jamCount]) are [nat] and are injected with [INR] where the source
      mixes them with numbers.
    - A [Vector] is only ever reached through the object that owns it
      (an agent's [position] and [velocity], or a local of a method), so
      vectors are values and a mutating method is the function from the
      receiver's old value to its new one; a method chain
      [v.normalize().mult(s)] is function composition.
    - [Agent] objects are shared: [this.agents] and the buckets of
      [this.grid] hold references to the same objects, and [update]
      mutates them while the grid still points to them.  Agents therefore
      live in a store ([Heap]) and the array and the buckets hold
      references ([ref]); [other !== agent] is inequality of references.
    - [Date.now()] is an input of [Simulation.update] and of the
      constructor, [console.log] an output, and [Math.random()] an input
      of [initAgents] (the list of the values it returns). *)

From Stdlib Require Import Reals Lra Lia List ZArith Bool Arith.
From Stdlib Require Floats.
Import ListNotations.

Open Scope R_scope.

(** ** Comparisons of numbers, as booleans *)

Definition num_lt (a b : R) : bool := if Rlt_dec a b then true else false.
Definition num_gt (a b : R) : bool := if Rgt_dec a b then true else false.
(** [a !== b] *)
Definition num_ne (a b : R) : bool := if Req_dec_T a b then false else true.

(** ** js/Vector.js *)

Module Vector.

Record t : Type := new { x : R; y : R }.

Definition add (this v : t) : t := new (x this + x v) (y this + y v).

Definition sub (this v : t) : t := new (x this - x v) (y this - y v).

Definition mult (this : t) (s : R) : t := new (x this * s) (y this * s).

Definition div (this : t) (s : R) : t :=
  if num_ne s 0 then new (x this / s) (y this / s) else this.

Definition mag (this : t) : R := sqrt (x this * x this + y this * y this).

Definition normalize (this : t) : t :=
  let m := mag this in
  if num_ne m 0 then div this m else this.

Definition limit (this : t) (max : R) : t :=
  let m := mag this in
  if num_gt m max then mult (normalize this) max else this.

Definition copy (this : t) : t := new (x this) (y this).

Definition dist (this v : t) : R :=
  let dx := x this - x v in
  let dy := y this - y v in
  sqrt (dx * dx + dy * dy).

(** [static add(a, b)] and [static sub(a, b)] build a fresh vector. *)
Definition static_add (a b : t) : t := new (x a + x b) (y a + y b).

Definition static_sub (a b : t) : t := new (x a - x b) (y a - y b).

End Vector.

(** ** js/Environment.js *)

(** The rectangles [{x, y, w, h}] of walls, zones and the exit. *)
Module Rect.
Record t : Type := mk { x : R; y : R; w : R; h : R }.
End Rect.

Module Environment.

Record t : Type := mk {
  width : R;
  height : R;
  walls : list Rect.t;
  exit : Rect.t;
  restrictedZones : list Rect.t
}.

Definition push_wall (this : t) (r : Rect.t) : t :=
  mk (width this) (height this) (walls this ++ [r]) (exit this)
     (restrictedZones this).

Definition push_zone (this : t) (r : Rect.t) : t :=
  mk (width this) (height this) (walls this) (exit this)
     (restrictedZones this ++ [r]).

Definition setupEnvironment (this : t) : t :=
  let this := push_wall this (Rect.mk 0 0 (width this) 20) in
  let this := push_wall this (Rect.mk 0 (height this - 20) (width this) 20) in
  let this := push_wall this (Rect.mk 0 0 20 (height this)) in
  let this := push_wall this (Rect.mk 300 100 20 200) in
  let this := push_wall this (Rect.mk 300 400 20 200) in
  push_zone this (Rect.mk 100 100 100 100).

(** [constructor(width, height)] *)
Definition new (width height : R) : t :=
  setupEnvironment
    (mk width height [] (Rect.mk (width - 50) (height / 2 - 25) 50 50) []).

Definition rectIntersect (r1 r2 : Rect.t) : bool :=
  negb (num_lt (Rect.x r1 + Rect.w r1) (Rect.x r2)
        || num_gt (Rect.x r1) (Rect.x r2 + Rect.w r2)
        || num_lt (Rect.y r1 + Rect.h r1) (Rect.y r2)
        || num_gt (Rect.y r1) (Rect.y r2 + Rect.h r2)).

Definition agentRect (pos : Vector.t) : Rect.t :=
  let agentRadius := 5 in
  Rect.mk (Vector.x pos - agentRadius) (Vector.y pos - agentRadius)
          (agentRadius * 2) (agentRadius * 2).

Definition out_of_bounds (this : t) (pos : Vector.t) : bool :=
  num_lt (Vector.x pos) 0 || num_gt (Vector.x pos) (width this)
  || num_lt (Vector.y pos) 0 || num_gt (Vector.y pos) (height this).

(** The two [for ... of] loops return [false] at the first rectangle
    that intersects. *)
Definition isPositionValid (this : t) (pos : Vector.t) : bool :=
  if existsb (fun wall => rectIntersect (agentRect pos) wall) (walls this)
  then false
  else if existsb (fun zone => rectIntersect (agentRect pos) zone)
                  (restrictedZones this)
  then false
  else if out_of_bounds this pos then false
  else true.

Definition exitCenter (this : t) : Vector.t :=
  Vector.new (Rect.x (exit this) + Rect.w (exit this) / 2)
             (Rect.y (exit this) + Rect.h (exit this) / 2).

Definition isAtExit (this : t) (pos : Vector.t) (threshold : R) : bool :=
  num_lt (Vector.dist pos (exitCenter this)) threshold.

(** [isAtExit(pos)] with the default [threshold = 10]. *)
Definition isAtExit_default (this : t) (pos : Vector.t) : bool :=
  isAtExit this pos 10.

End Environment.

(** ** js/Agent.js *)

Module Agent.

Record t : Type := mk {
  position : Vector.t;
  velocity : Vector.t;
  maxSpeed : R;
  perceptionRadius : R;
  desiredSeparation : R;
  radius : R;
  wallPerceptionRadius : R
}.

(** [constructor(x, y, maxSpeed, perceptionRadius, desiredSeparation)] *)
Definition new (x y maxSpeed perceptionRadius desiredSeparation : R) : t :=
  mk (Vector.new x y) (Vector.new 0 0) maxSpeed perceptionRadius
     desiredSeparation 5 30.

Definition set_position (this : t) (p : Vector.t) : t :=
  mk p (velocity this) (maxSpeed this) (perceptionRadius this)
     (desiredSeparation this) (radius this) (wallPerceptionRadius this).

Definition set_velocity (this : t) (v : Vector.t) : t :=
  mk (position this) v (maxSpeed this) (perceptionRadius this)
     (desiredSeparation this) (radius this) (wallPerceptionRadius this).

Definition applyForce (this : t) (force : Vector.t) : t :=
  set_velocity this (Vector.add (velocity this) force).

Definition update (this : t) (env : Environment.t) : t :=
  let this := set_velocity this (Vector.limit (velocity this) (maxSpeed this)) in
  let nextPosition := Vector.static_add (position this) (velocity this) in
  if negb (Environment.isPositionValid env nextPosition) then
    let this := set_velocity this (Vector.mult (velocity this) 0.8) in
    let nextPosition := Vector.static_add (position this) (velocity this) in
    set_position this nextPosition
  else
    set_position this nextPosition.

(** The tail shared by [separation] and [wallAvoidance]:
    [if (count > 0) steer.div(count);
     if (steer.mag() > 0) steer.normalize().mult(maxSpeed).sub(velocity);
     return steer]. *)
Definition steer_finish (this : t) (steer : Vector.t) (count : nat) : Vector.t :=
  let steer := if (0 <? count)%nat then Vector.div steer (INR count) else steer in
  if num_gt (Vector.mag steer) 0 then
    Vector.sub (Vector.mult (Vector.normalize steer) (maxSpeed this))
               (velocity this)
  else steer.

(** The body shared by the loop of [separation] (over the neighbours'
    positions, within [desiredSeparation]) and the two loops of
    [wallAvoidance] (over the closest points of the rectangles, within
    [wallPerceptionRadius]). *)
Definition repel (this : t) (cutoff : R) (acc : Vector.t * nat)
           (point : Vector.t) : Vector.t * nat :=
  let d := Vector.dist (position this) point in
  if num_gt d 0 && num_lt d cutoff then
    let diff := Vector.static_sub (position this) point in
    let diff := Vector.normalize diff in
    let diff := Vector.div diff d in
    (Vector.add (fst acc) diff, S (snd acc))
  else acc.

Definition separation (this : t) (neighbors : list t) : Vector.t :=
  let acc :=
    fold_left (fun acc neighbor =>
                 repel this (desiredSeparation this) acc (position neighbor))
              neighbors (Vector.new 0 0, 0%nat) in
  steer_finish this (fst acc) (snd acc).

Definition alignment (this : t) (neighbors : list t) : Vector.t :=
  let acc :=
    fold_left (fun acc neighbor =>
                 (Vector.add (fst acc) (velocity neighbor), S (snd acc)))
              neighbors (Vector.new 0 0, 0%nat) in
  let sum := fst acc in
  let count := snd acc in
  if (0 <? count)%nat then
    Vector.sub
      (Vector.mult (Vector.normalize (Vector.div sum (INR count)))
                   (maxSpeed this))
      (velocity this)
  else Vector.new 0 0.

Definition cohesion (this : t) (neighbors : list t) : Vector.t :=
  let acc :=
    fold_left (fun acc neighbor =>
                 (Vector.add (fst acc) (position neighbor), S (snd acc)))
              neighbors (Vector.new 0 0, 0%nat) in
  let sum := fst acc in
  let count := snd acc in
  if (0 <? count)%nat then
    let sum := Vector.div sum (INR count) in
    Vector.sub
      (Vector.mult (Vector.normalize (Vector.static_sub sum (position this)))
                   (maxSpeed this))
      (velocity this)
  else Vector.new 0 0.

Definition seekGoal (this : t) (goal : Vector.t) : Vector.t :=
  let desired :=
    Vector.mult (Vector.normalize (Vector.static_sub goal (position this)))
                (maxSpeed this) in
  Vector.sub desired (velocity this).

(** The closest point of a rectangle to the agent, by a clamp per axis. *)
Definition closestPoint (this : t) (r : Rect.t) : Vector.t :=
  let closestX :=
    Rmax (Rect.x r) (Rmin (Vector.x (position this)) (Rect.x r + Rect.w r)) in
  let closestY :=
    Rmax (Rect.y r) (Rmin (Vector.y (position this)) (Rect.y r + Rect.h r)) in
  Vector.new closestX closestY.

Definition wallAvoidance (this : t) (env : Environment.t) : Vector.t :=
  let acc := (Vector.new 0 0, 0%nat) in
  let acc :=
    fold_left (fun acc wall =>
                 repel this (wallPerceptionRadius this) acc
                       (closestPoint this wall))
              (Environment.walls env) acc in
  let acc :=
    fold_left (fun acc zone =>
                 repel this (wallPerceptionRadius this) acc
                       (closestPoint this zone))
              (Environment.restrictedZones env) acc in
  steer_finish this (fst acc) (snd acc).

End Agent.

(** ** The store of [Agent] objects *)

Definition ref : Type := nat.

Definition Heap : Type := ref -> Agent.t.

Definition store (h : Heap) (r : ref) (a : Agent.t) : Heap :=
  fun r' => if Nat.eqb r' r then a else h r'.

(** ** Loops with an early [return] *)

Inductive Loop (A : Type) : Type :=
| Continue (acc : A)
| Return (result : A).

Arguments Continue {A} acc.
Arguments Return {A} result.

Definition loop_value {A : Type} (l : Loop A) : A :=
  match l with Continue a => a | Return a => a end.

(** [for (let b of l) body], where the body may return from the
    enclosing function. *)
Fixpoint for_of {A B : Type} (body : B -> A -> Loop A) (l : list B) (acc : A)
  : Loop A :=
  match l with
  | [] => Continue acc
  | b :: l' =>
      match body b acc with
      | Continue acc' => for_of body l' acc'
      | Return r => Return r
      end
  end.

(** The values of [for (let i = lo; i <= hi; i++)]. *)
Definition zrange (lo hi : Z) : list Z :=
  map (fun k => (lo + Z.of_nat k)%Z) (seq 0 (Z.to_nat (hi - lo + 1))).

(** [l[i] = f(l[i])] for an index inside the array. *)
Fixpoint modify_nth {A : Type} (i : nat) (f : A -> A) (l : list A) : list A :=
  match l, i with
  | [], _ => []
  | a :: l', O => f a :: l'
  | a :: l', S i' => a :: modify_nth i' f l'
  end.

(** [l.splice(i, 1)] *)
Definition splice1 {A : Type} (i : nat) (l : list A) : list A :=
  firstn i l ++ skipn (S i) l.

(** ** js/Simulation.js *)

Module Simulation.

Record Params : Type := mkParams {
  numAgents : nat;
  separationWeight : R;
  alignmentWeight : R;
  cohesionWeight : R;
  goalWeight : R;
  perceptionRadius : R
}.

(** [grid[col][row]] is a bucket of agent references. *)
Definition Grid : Type := list (list (list ref)).

(** What [update] prints once the last agent has left. *)
Inductive LogLine : Type :=
| EvacuationTime (frames : nat) (seconds : R)
| MaxDensityObserved (density : R)
| JamCountLine (count : nat).

Record t : Type := mk {
  canvas_width : R;
  canvas_height : R;
  env : Environment.t;
  agents : list ref;
  heap : Heap;
  frame : nat;
  maxDensity : R;
  jamCount : nat;
  startTime : R;
  params : Params;
  grid : Grid;
  gridSize : R;
  (** [undefined] until the first [update] *)
  averageSpeed : option R
}.

Definition set_grid (this : t) (g : Grid) : t :=
  mk (canvas_width this) (canvas_height this) (env this) (agents this)
     (heap this) (frame this) (maxDensity this) (jamCount this)
     (startTime this) (params this) g (gridSize this) (averageSpeed this).

Definition set_frame (this : t) (f : nat) : t :=
  mk (canvas_width this) (canvas_height this) (env this) (agents this)
     (heap this) f (maxDensity this) (jamCount this)
     (startTime this) (params this) (grid this) (gridSize this)
     (averageSpeed this).

Definition set_agents (this : t) (l : list ref) (h : Heap) : t :=
  mk (canvas_width this) (canvas_height this) (env this) l
     h (frame this) (maxDensity this) (jamCount this)
     (startTime this) (params this) (grid this) (gridSize this)
     (averageSpeed this).

Definition set_stats (this : t) (density : R) (jams : nat) (avg : option R) : t :=
  mk (canvas_width this) (canvas_height this) (env this) (agents this)
     (heap this) (frame this) density jams
     (startTime this) (params this) (grid this) (gridSize this) avg.

Definition setupGrid (this : t) : t :=
  let cols := Zceil (canvas_width this / gridSize this) in
  let rows := Zceil (canvas_height this / gridSize this) in
  set_grid this (repeat (repeat [] (Z.to_nat rows)) (Z.to_nat cols)).

(** [Math.random()] is an input of [initAgents]: the list of the
    values its calls return, in order.  The [do ... while] loop draws
    two of them per attempt; the result is [None] when the list ends
    before a valid point is found (the loop of the source would still be
    running). *)
Fixpoint spawn_point (e : Environment.t) (startArea : Rect.t) (random : list R)
  : option (R * R * list R) :=
  match random with
  | u :: v :: random' =>
      let x := Rect.x startArea + u * Rect.w startArea in
      let y := Rect.y startArea + v * Rect.h startArea in
      if negb (Environment.isPositionValid e (Vector.new x y))
      then spawn_point e startArea random'
      else Some (x, y, random')
  | _ => None
  end.

(** The [for] loop of [initAgents].  The array starts empty, and the
    object made by the [i]-th [new Agent] is the reference [i]. *)
Fixpoint initAgents_loop (e : Environment.t) (perceptionRadius : R) (n : nat)
         (random : list R) (agents : list ref) (h : Heap)
  : option (list ref * Heap * list R) :=
  match n with
  | O => Some (agents, h, random)
  | S n' =>
      match spawn_point e (Rect.mk 50 50 200 500) random with
      | None => None
      | Some (x, y, random') =>
          let agent := length agents in
          initAgents_loop e perceptionRadius n' random' (agents ++ [agent])
            (store h agent (Agent.new x y 2 perceptionRadius 20))
      end
  end.

Definition initAgents (this : t) (random : list R) : option (t * list R) :=
  match
    initAgents_loop (env this) (perceptionRadius (params this))
                    (numAgents (params this)) random [] (heap this)
  with
  | None => None
  | Some (agents', h, random') => Some (set_agents this agents' h, random')
  end.

(** The store before any agent exists; its content is never read. *)
Definition unallocated : Heap := fun _ => Agent.new 0 0 0 0 0.

(** [constructor(canvas)], for a canvas of the given size; [now] is
    what [Date.now()] returns. *)
Definition new (canvas_width canvas_height : R) (now : R) (random : list R)
  : option t :=
  let this :=
    mk canvas_width canvas_height
       (Environment.new canvas_width canvas_height) [] unallocated
       0 0 0 now (mkParams 50 1.5 1.0 1.0 1.2 50) [] 50 None in
  match initAgents this random with
  | None => None
  | Some (this, _) => Some (setupGrid this)
  end.

(** [col >= 0 && col < grid.length && row >= 0 && row < grid[0].length] *)
Definition in_grid (g : Grid) (col row : Z) : bool :=
  (0 <=? col)%Z && (col <? Z.of_nat (length g))%Z
  && (0 <=? row)%Z && (row <? Z.of_nat (length (nth 0 g [])))%Z.

Definition bucket (g : Grid) (col row : nat) : list ref :=
  nth row (nth col g []) [].

(** [grid[col][row].push(a)] *)
Definition push_bucket (g : Grid) (col row : nat) (a : ref) : Grid :=
  modify_nth col (modify_nth row (fun b => b ++ [a])) g.

Definition col_of (gridSize : R) (a : Agent.t) : Z :=
  Zfloor (Vector.x (Agent.position a) / gridSize).

Definition row_of (gridSize : R) (a : Agent.t) : Z :=
  Zfloor (Vector.y (Agent.position a) / gridSize).

Definition place (gridSize : R) (h : Heap) (g : Grid) (agent : ref) : Grid :=
  let col := col_of gridSize (h agent) in
  let row := row_of gridSize (h agent) in
  if in_grid g col row
  then push_bucket g (Z.to_nat col) (Z.to_nat row) agent
  else g.

Definition clear (g : Grid) : Grid := map (map (fun _ => [])) g.

Definition updateGrid (this : t) : t :=
  set_grid this
    (fold_left (place (gridSize this) (heap this)) (agents this)
               (clear (grid this))).

(** The test and the body of the innermost loop of [getNeighbors]. *)
Definition is_neighbor (h : Heap) (agent other : ref) : bool :=
  negb (Nat.eqb other agent)
  && num_lt (Vector.dist (Agent.position (h agent)) (Agent.position (h other)))
            (Agent.perceptionRadius (h agent)).

Definition visit (h : Heap) (agent : ref) (other : ref) (neighbors : list ref)
  : Loop (list ref) :=
  if is_neighbor h agent other then
    let neighbors := neighbors ++ [other] in
    if (10 <=? length neighbors)%nat then Return neighbors
    else Continue neighbors
  else Continue neighbors.

Definition neighbor_range (gridSize : R) (a : Agent.t) : Z :=
  Zceil (Agent.perceptionRadius a / gridSize).

(** The three nested loops of [getNeighbors]: [Return] when the
    [return neighbors] inside the innermost loop is reached, [Continue]
    when the loops run to their end. *)
Definition getNeighbors_loops (g : Grid) (gridSize : R) (h : Heap) (agent : ref)
  : Loop (list ref) :=
  let col := col_of gridSize (h agent) in
  let row := row_of gridSize (h agent) in
  let range := neighbor_range gridSize (h agent) in
  for_of
    (fun i =>
       for_of
         (fun j neighbors =>
            let c := (col + i)%Z in
            let r := (row + j)%Z in
            if in_grid g c r
            then for_of (visit h agent)
                        (bucket g (Z.to_nat c) (Z.to_nat r)) neighbors
            else Continue neighbors)
         (zrange (- range) range))
    (zrange (- range) range) [].

Definition getNeighbors (g : Grid) (gridSize : R) (h : Heap) (agent : ref)
  : list ref :=
  loop_value (getNeighbors_loops g gridSize h agent).

(** The combined force of one iteration of [update]; the neighbours
    are read from the store when the methods run. *)
Definition combined_force (e : Environment.t) (p : Params) (agent : Agent.t)
           (neighbors : list Agent.t) : Vector.t :=
  let separation :=
    Vector.mult (Agent.separation agent neighbors) (separationWeight p) in
  let alignment :=
    Vector.mult (Agent.alignment agent neighbors) (alignmentWeight p) in
  let cohesion :=
    Vector.mult (Agent.cohesion agent neighbors) (cohesionWeight p) in
  let goal :=
    Vector.mult
      (Agent.seekGoal agent
         (Vector.new
            (Rect.x (Environment.exit e) + Rect.w (Environment.exit e) / 2)
            (Rect.y (Environment.exit e) + Rect.h (Environment.exit e) / 2)))
      (goalWeight p) in
  let wallAvoid := Vector.mult (Agent.wallAvoidance agent e) 1.5 in
  Vector.add
    (Vector.add
       (Vector.add
          (Vector.add (Vector.add (Vector.new 0 0) separation) alignment)
          cohesion)
       goal)
    wallAvoid.

(** What the [for] loop of [update] mutates: the array [this.agents],
    the agents in the store, and the locals [totalSpeed] and
    [jamThisFrame]. *)
Record Sweep : Type := mkSweep {
  sw_agents : list ref;
  sw_heap : Heap;
  totalSpeed : R;
  jamThisFrame : nat
}.

(** The body of the loop at index [i].  The loop keeps [i] inside the
    array, so the [None] case is never reached. *)
Definition sweep_body (e : Environment.t) (p : Params) (g : Grid)
           (gridSize : R) (i : nat) (st : Sweep) : Sweep :=
  match nth_error (sw_agents st) i with
  | None => st
  | Some r =>
      let neighbors := getNeighbors g gridSize (sw_heap st) r in
      let force :=
        combined_force e p (sw_heap st r) (map (sw_heap st) neighbors) in
      let agent := Agent.applyForce (sw_heap st r) force in
      let agent := Agent.update agent e in
      let agents' :=
        if Environment.isAtExit_default e (Agent.position agent)
        then splice1 i (sw_agents st)
        else sw_agents st in
      let speed := Vector.mag (Agent.velocity agent) in
      mkSweep agents' (store (sw_heap st) r agent)
              (totalSpeed st + speed)
              (if num_lt speed 0.5 then S (jamThisFrame st)
               else jamThisFrame st)
  end.

(** [for (let i = n - 1; i >= 0; i--) body] *)
Fixpoint sweep (e : Environment.t) (p : Params) (g : Grid) (gridSize : R)
         (n : nat) (st : Sweep) : Sweep :=
  match n with
  | O => st
  | S i => sweep e p g gridSize i (sweep_body e p g gridSize i st)
  end.

Definition calculateMaxDensity (this : t) : R :=
  fold_left
    (fun maxD agent =>
       let neighbors :=
         getNeighbors (grid this) (gridSize this) (heap this) agent in
       let localD :=
         INR (length neighbors)
         / (PI * Agent.perceptionRadius (heap this agent) ^ 2) in
       Rmax maxD localD)
    (agents this) 0.

(** [update()]; [now] is what [Date.now()] returns if it is called. *)
Definition update (now : R) (this : t) : t * list LogLine :=
  let this := set_frame this (S (frame this)) in
  let this := updateGrid this in
  let st :=
    sweep (env this) (params this) (grid this) (gridSize this)
          (length (agents this))
          (mkSweep (agents this) (heap this) 0 0%nat) in
  let this := set_agents this (sw_agents st) (sw_heap st) in
  let density := calculateMaxDensity this in
  let maxDensity' := Rmax (maxDensity this) density in
  let jamCount' :=
    (jamCount this + (if (0 <? jamThisFrame st)%nat then 1 else 0))%nat in
  let out :=
    if (length (agents this) =? 0)%nat then
      let evacTime := (now - startTime this) / 1000 in
      [EvacuationTime (frame this) evacTime;
       MaxDensityObserved maxDensity';
       JamCountLine jamCount']
    else [] in
  let avg :=
    if (0 <? length (agents this))%nat
    then totalSpeed st / INR (length (agents this))
    else 0 in
  (set_stats this maxDensity' jamCount' (Some avg), out).

(** [frames] calls of [update], one per clock reading; the states
    after each call, oldest first. *)
Fixpoint run (clock : list R) (this : t) : list t :=
  match clock with
  | [] => []
  | now :: clock' =>
      let this' := fst (update now this) in
      this' :: run clock' this'
  end.

(** [isNearWall(pos)]: the loop returns [true] at the first wall with
    an edge line within 20 of the point in one coordinate. *)
Definition isNearWall (this : t) (pos : Vector.t) : bool :=
  existsb
    (fun wall =>
       num_lt (Rmin (Rabs (Vector.x pos - Rect.x wall))
                    (Rabs (Vector.x pos - (Rect.x wall + Rect.w wall)))) 20
       || num_lt (Rmin (Rabs (Vector.y pos - Rect.y wall))
                       (Rabs (Vector.y pos - (Rect.y wall + Rect.h wall)))) 20)
    (Environment.walls (env this)).

End Simulation.

(** * The same code with rounding

    [Vector.js], the validity test and [Agent.update] once more, with
    every arithmetic operation followed by a rounding [rnd] of its exact
    result, and the literal [0.8] rounded as well; comparisons are
    exact, as they are on doubles.  With the identity for [rnd] these
    are the definitions above.  Vectors, rectangles and agents are the
    records above. *)

Module Rounded.

Section Arithmetic.

Variable rnd : R -> R.

Definition mult (this : Vector.t) (s : R) : Vector.t :=
  Vector.new (rnd (Vector.x this * s)) (rnd (Vector.y this * s)).

Definition div (this : Vector.t) (s : R) : Vector.t :=
  if num_ne s 0
  then Vector.new (rnd (Vector.x this / s)) (rnd (Vector.y this / s))
  else this.

Definition mag (this : Vector.t) : R :=
  rnd (sqrt (rnd (rnd (Vector.x this * Vector.x this)
                  + rnd (Vector.y this * Vector.y this)))).

Definition normalize (this : Vector.t) : Vector.t :=
  let m := mag this in
  if num_ne m 0 then div this m else this.

Definition limit (this : Vector.t) (max : R) : Vector.t :=
  let m := mag this in
  if num_gt m max then mult (normalize this) max else this.

Definition static_add (a b : Vector.t) : Vector.t :=
  Vector.new (rnd (Vector.x a + Vector.x b)) (rnd (Vector.y a + Vector.y b)).

Definition rectIntersect (r1 r2 : Rect.t) : bool :=
  negb (num_lt (rnd (Rect.x r1 + Rect.w r1)) (Rect.x r2)
        || num_gt (Rect.x r1) (rnd (Rect.x r2 + Rect.w r2))
        || num_lt (rnd (Rect.y r1 + Rect.h r1)) (Rect.y r2)
        || num_gt (Rect.y r1) (rnd (Rect.y r2 + Rect.h r2))).

Definition agentRect (pos : Vector.t) : Rect.t :=
  let agentRadius := 5 in
  Rect.mk (rnd (Vector.x pos - agentRadius)) (rnd (Vector.y pos - agentRadius))
          (rnd (agentRadius * 2)) (rnd (agentRadius * 2)).

Definition isPositionValid (this : Environment.t) (pos : Vector.t) : bool :=
  if existsb (fun wall => rectIntersect (agentRect pos) wall)
             (Environment.walls this)
  then false
  else if existsb (fun zone => rectIntersect (agentRect pos) zone)
                  (Environment.restrictedZones this)
  then false
  else if Environment.out_of_bounds this pos then false
  else true.

Definition update (this : Agent.t) (env : Environment.t) : Agent.t :=
  let this :=
    Agent.set_velocity this
      (limit (Agent.velocity this) (Agent.maxSpeed this)) in
  let nextPosition :=
    static_add (Agent.position this) (Agent.velocity this) in
  if negb (isPositionValid env nextPosition) then
    let this :=
      Agent.set_velocity this (mult (Agent.velocity this) (rnd 0.8)) in
    let nextPosition :=
      static_add (Agent.position this) (Agent.velocity this) in
    Agent.set_position this nextPosition
  else
    Agent.set_position this nextPosition.

End Arithmetic.

End Rounded.

(** ** Rounding functions *)

(** Every result is within the relative error [u] of the exact one:
    what IEEE arithmetic guarantees, with [u = 2^-53] for doubles
    rounded to nearest, as long as no result overflows or falls below
    the normal range. *)
Definition rounds_within (u : R) (rnd : R -> R) : Prop :=
  forall x, Rabs (rnd x - x) <= u * Rabs x.

(** The integer nearest to [z], the even one of the two at a tie. *)
Definition nearest_even (z : R) : Z :=
  let f := Zfloor z in
  if Rlt_dec (z - IZR f) (1 / 2) then f
  else if Rlt_dec (1 / 2) (z - IZR f) then (f + 1)%Z
  else if Z.even f then f else (f + 1)%Z.

(** Rounding to 53 significant bits, to nearest and ties to even: the
    rounding of doubles, without their bounds on the exponent.  For
    [2^k <= |x| < 2^(k+1)] the last place has the weight [2^(k-52)]. *)
Definition round53 (x : R) : R :=
  if Req_dec_T x 0 then 0
  else
    let e := (Zfloor (ln (Rabs x) / ln 2) - 52)%Z in
    IZR (nearest_even (x / powerRZ 2 e)) * powerRZ 2 e.

Definition unit_roundoff : R := / 2 ^ 53.

(** * The same code in double precision

    The vector arithmetic, the validity test and [Agent.update] once
    more, on IEEE binary64 numbers with the operations of the machine:
    this is the arithmetic JavaScript computes with, and the definitions
    below are evaluated, not reasoned about.  [s !== 0] is the negation
    of the IEEE equality and [m > max] the IEEE comparison, as in
    JavaScript. *)

Module Binary64.

Import PrimFloat.
#[local] Open Scope float_scope.
#[local] Set Warnings "-inexact-float".

Module Vector.

Record t : Type := new { x : float; y : float }.

Definition add (this v : t) : t := new (x this + x v) (y this + y v).

Definition sub (this v : t) : t := new (x this - x v) (y this - y v).

Definition mult (this : t) (s : float) : t := new (x this * s) (y this * s).

Definition div (this : t) (s : float) : t :=
  if negb (s =? 0) then new (x this / s) (y this / s) else this.

Definition mag (this : t) : float := sqrt (x this * x this + y this * y this).

Definition normalize (this : t) : t :=
  let m := mag this in
  if negb (m =? 0) then div this m else this.

Definition limit (this : t) (max : float) : t :=
  let m := mag this in
  if max <? m then mult (normalize this) max else this.

Definition static_add (a b : t) : t := new (x a + x b) (y a + y b).

Definition static_sub (a b : t) : t := new (x a - x b) (y a - y b).

End Vector.

Module Rect.
Record t : Type := mk { x : float; y : float; w : float; h : float }.
End Rect.

Module Environment.

Record t : Type := mk {
  width : float;
  height : float;
  walls : list Rect.t;
  exit : Rect.t;
  restrictedZones : list Rect.t
}.

(** [constructor(width, height)], with the rectangles that
    [setupEnvironment] pushes. *)
Definition new (width height : float) : t :=
  mk width height
     [Rect.mk 0 0 width 20;
      Rect.mk 0 (height - 20) width 20;
      Rect.mk 0 0 20 height;
      Rect.mk 300 100 20 200;
      Rect.mk 300 400 20 200]
     (Rect.mk (width - 50) (height / 2 - 25) 50 50)
     [Rect.mk 100 100 100 100].

Definition rectIntersect (r1 r2 : Rect.t) : bool :=
  negb ((Rect.x r1 + Rect.w r1 <? Rect.x r2)
        || (Rect.x r2 + Rect.w r2 <? Rect.x r1)
        || (Rect.y r1 + Rect.h r1 <? Rect.y r2)
        || (Rect.y r2 + Rect.h r2 <? Rect.y r1)).

Definition isPositionValid (this : t) (pos : Vector.t) : bool :=
  let agentRadius := 5 in
  let agentRect :=
    Rect.mk (Vector.x pos - agentRadius) (Vector.y pos - agentRadius)
            (agentRadius * 2) (agentRadius * 2) in
  if existsb (fun wall => rectIntersect agentRect wall) (walls this)
  then false
  else if existsb (fun zone => rectIntersect agentRect zone)
                  (restrictedZones this)
  then false
  else if (Vector.x pos <? 0) || (width this <? Vector.x pos)
          || (Vector.y pos <? 0) || (height this <? Vector.y pos)
  then false
  else true.

End Environment.

Module Agent.

Record t : Type := mk {
  position : Vector.t;
  velocity : Vector.t;
  maxSpeed : float;
  perceptionRadius : float;
  desiredSeparation : float;
  radius : float;
  wallPerceptionRadius : float
}.

Definition new (x y maxSpeed perceptionRadius desiredSeparation : float) : t :=
  mk (Vector.new x y) (Vector.new 0 0) maxSpeed perceptionRadius
     desiredSeparation 5 30.

Definition set_position (this : t) (p : Vector.t) : t :=
  mk p (velocity this) (maxSpeed this) (perceptionRadius this)
     (desiredSeparation this) (radius this) (wallPerceptionRadius this).

Definition set_velocity (this : t) (v : Vector.t) : t :=
  mk (position this) v (maxSpeed this) (perceptionRadius this)
     (desiredSeparation this) (radius this) (wallPerceptionRadius this).

Definition applyForce (this : t) (force : Vector.t) : t :=
  set_velocity this (Vector.add (velocity this) force).

Definition update (this : t) (env : Environment.t) : t :=
  let this := set_velocity this (Vector.limit (velocity this) (maxSpeed this)) in
  let nextPosition := Vector.static_add (position this) (velocity this) in
  if negb (Environment.isPositionValid env nextPosition) then
    let this := set_velocity this (Vector.mult (velocity this) 0.8) in
    let nextPosition := Vector.static_add (position this) (velocity this) in
    set_position this nextPosition
  else
    set_position this nextPosition.

Definition seekGoal (this : t) (goal : Vector.t) : Vector.t :=
  let desired :=
    Vector.mult (Vector.normalize (Vector.static_sub goal (position this)))
                (maxSpeed this) in
  Vector.sub desired (velocity this).

End Agent.

(** The default 800 x 600 hall. *)
Definition hall : Environment.t := Environment.new 800 600.

(** An agent in the open hall whose velocity, (19, 29), is well above
    its [maxSpeed] 2. *)
Definition fast_agent : Agent.t :=
  Agent.mk (Vector.new 400 300) (Vector.new 19 29) 2 50 20 5 30.

(** An agent created at the spawn point (64, 273), alone and out of
    reach of the walls: in its first frame [separation], [alignment],
    [cohesion] and [wallAvoidance] are zero vectors, so the force that
    [Simulation.update] applies is [seekGoal] towards the exit centre
    times the goal weight 1.2. *)
Definition lone_agent : Agent.t := Agent.new 64 273 2 50 20.

Definition lone_agent_pushed : Agent.t :=
  let goal :=
    Vector.new
      (Rect.x (Environment.exit hall) + Rect.w (Environment.exit hall) / 2)
      (Rect.y (Environment.exit hall) + Rect.h (Environment.exit hall) / 2) in
  Agent.applyForce lone_agent (Vector.mult (Agent.seekGoal lone_agent goal) 1.2).

End Binary64.

(** * Vocabulary of the statements *)

(** ** Rectangles and bounds, as propositions *)

(** The negation inside [rectIntersect]. *)
Definition overlaps (r1 r2 : Rect.t) : Prop :=
  ~ (Rect.x r1 + Rect.w r1 < Rect.x r2
     \/ Rect.x r1 > Rect.x r2 + Rect.w r2
     \/ Rect.y r1 + Rect.h r1 < Rect.y r2
     \/ Rect.y r1 > Rect.y r2 + Rect.h r2).

Definition outside (env : Environment.t) (pos : Vector.t) : Prop :=
  Vector.x pos < 0 \/ Vector.x pos > Environment.width env
  \/ Vector.y pos < 0 \/ Vector.y pos > Environment.height env.

(** ** Steering *)

(** The local [desired] of [seekGoal]. *)
Definition desired_velocity (a : Agent.t) (goal : Vector.t) : Vector.t :=
  Vector.mult (Vector.normalize (Vector.static_sub goal (Agent.position a)))
              (Agent.maxSpeed a).

(** The sum of the neighbours' velocities, as the loop of [alignment]
    accumulates it. *)
Definition sum_velocities (neighbors : list Agent.t) : Vector.t :=
  fold_left (fun sum neighbor => Vector.add sum (Agent.velocity neighbor))
            neighbors (Vector.new 0 0).

(** ** The grid *)

Definition cols (g : Simulation.Grid) : nat := length g.

(** [grid[0].length] *)
Definition rows (g : Simulation.Grid) : nat := length (nth 0 g []).

(** Every column has as many buckets as column 0, as [setupGrid]
    builds the grid. *)
Definition rectangular (g : Simulation.Grid) : Prop :=
  forall c, (c < cols g)%nat -> length (nth c g []) = rows g.

(** The agent's floored position is the bucket [(c, r)]. *)
Definition in_cell (gridSize : R) (a : Agent.t) (c r : nat) : bool :=
  (Simulation.col_of gridSize a =? Z.of_nat c)%Z
  && (Simulation.row_of gridSize a =? Z.of_nat r)%Z.

(** The buckets [getNeighbors] looks at, in the order of its loops
    ([i] outermost, then [j], then the bucket's own order), as one
    list. *)
Definition scanned (g : Simulation.Grid) (gridSize : R) (a : Agent.t)
  : list ref :=
  let col := Simulation.col_of gridSize a in
  let row := Simulation.row_of gridSize a in
  let range := Simulation.neighbor_range gridSize a in
  flat_map
    (fun i =>
       flat_map
         (fun j =>
            if Simulation.in_grid g (col + i) (row + j)
            then Simulation.bucket g (Z.to_nat (col + i)) (Z.to_nat (row + j))
            else [])
         (zrange (- range) range))
    (zrange (- range) range).

(** ** The loop of [update] *)

(** The agent object [r] after its iteration: forces from the store as
    it is when the iteration starts, [applyForce], then [update]. *)
Definition agent_after (e : Environment.t) (p : Simulation.Params)
           (g : Simulation.Grid) (gridSize : R) (h : Heap) (r : ref)
  : Agent.t :=
  Agent.update
    (Agent.applyForce (h r)
       (Simulation.combined_force e p (h r)
          (map h (Simulation.getNeighbors g gridSize h r))))
    e.

(** One iteration, seen from the agents still to come: [st] holds the
    part of the array behind the current index. *)
Definition iteration (e : Environment.t) (p : Simulation.Params)
           (g : Simulation.Grid) (gridSize : R) (r : ref)
           (st : Simulation.Sweep) : Simulation.Sweep :=
  let agent := agent_after e p g gridSize (Simulation.sw_heap st) r in
  let speed := Vector.mag (Agent.velocity agent) in
  Simulation.mkSweep
    (if Environment.isAtExit_default e (Agent.position agent)
     then Simulation.sw_agents st else r :: Simulation.sw_agents st)
    (store (Simulation.sw_heap st) r agent)
    (Simulation.totalSpeed st + speed)
    (if num_lt speed 0.5 then S (Simulation.jamThisFrame st)
     else Simulation.jamThisFrame st).

(** The state of the loop when it ends, in a call of [update] on [this]. *)
Definition swept (this : Simulation.t) : Simulation.Sweep :=
  fold_right
    (iteration (Simulation.env this) (Simulation.params this)
               (Simulation.grid (Simulation.updateGrid this))
               (Simulation.gridSize this))
    (Simulation.mkSweep [] (Simulation.heap this) 0 0%nat)
    (Simulation.agents this).

(** ** Speeds *)

Fixpoint sum_list (l : list R) : R :=
  match l with
  | [] => 0
  | x :: l' => x + sum_list l'
  end.

Definition speed_of (h : Heap) (r : ref) : R :=
  Vector.mag (Agent.velocity (h r)).

(** The arithmetic mean of the speeds of the agents in the active set. *)
Definition mean_speed (this : Simulation.t) : R :=
  sum_list (map (speed_of (Simulation.heap this)) (Simulation.agents this))
  / INR (length (Simulation.agents this)).

(** ** States of the simulation *)

(** What the constructor sets up and [update] keeps: the entries of
    [this.agents] are distinct objects, the grid has the shape
    [setupGrid] gives it, and the cell size is positive.  (The real
    division of the model agrees with the division of the source for a
    non-zero divisor only, so statements about cell indices assume a
    positive [gridSize].) *)
Definition well_formed (this : Simulation.t) : Prop :=
  NoDup (Simulation.agents this)
  /\ rectangular (Simulation.grid this)
  /\ 0 < Simulation.gridSize this.

(** ** A scene with two agents

    The default 800 x 600 layout (exit centre (775, 300)); agent 0 is
    11 units left of the exit centre and walks towards it at full
    speed, agent 1 stands in the corridor at (400, 300). *)

Definition scene_params : Simulation.Params :=
  Simulation.mkParams 2 1.5 1.0 1.0 1.2 50.

Definition walker : Agent.t :=
  Agent.mk (Vector.new 764 300) (Vector.new 2 0) 2 50 20 5 30.

Definition stander : Agent.t := Agent.new 400 300 2 50 20.

Definition scene_heap : Heap :=
  fun r => match r with O => walker | _ => stander end.

Definition scene_at (startTime : R) : Simulation.t :=
  Simulation.setupGrid
    (Simulation.mk 800 600 (Environment.new 800 600) [0%nat; 1%nat]
                   scene_heap 0 0 0 startTime scene_params [] 50 None).

Definition scene : Simulation.t := scene_at 0.

Definition stander_after : Agent.t :=
  Agent.mk (Vector.new (400 + 2) 300) (Vector.new 2 0) 2 50 20 5 30.

Definition walker_after : Agent.t :=
  Agent.mk (Vector.new (764 + 2) 300) (Vector.new 2 0) 2 50 20 5 30.

(** The same scene with agent 0 placed at rest on the exit centre. *)
Definition arrival_heap : Heap :=
  fun r => match r with O => Agent.new 775 300 2 50 20 | _ => stander end.

Definition arrival_scene : Simulation.t :=
  Simulation.setupGrid
    (Simulation.mk 800 600 (Environment.new 800 600) [0%nat; 1%nat]
                   arrival_heap 0 0 0 0 scene_params [] 50 None).

(** ** Further vocabulary *)

(** The point lies in the closed rectangle. *)
Definition inside (r : Rect.t) (p : Vector.t) : Prop :=
  Rect.x r <= Vector.x p <= Rect.x r + Rect.w r
  /\ Rect.y r <= Vector.y p <= Rect.y r + Rect.h r.

(** Width and height are not negative. *)
Definition proper (r : Rect.t) : Prop := 0 <= Rect.w r /\ 0 <= Rect.h r.

(** The sum of the neighbours' positions, as the loop of [cohesion]
    accumulates it. *)
Definition sum_positions (neighbors : list Agent.t) : Vector.t :=
  fold_left (fun sum neighbor => Vector.add sum (Agent.position neighbor))
            neighbors (Vector.new 0 0).

(** An agent as [initAgents] creates it: at rest on a valid point of
    the start area, with the constants of the constructor call. *)
Definition spawned (e : Environment.t) (perceptionRadius : R) (a : Agent.t)
  : Prop :=
  Environment.isPositionValid e (Agent.position a) = true
  /\ (50 <= Vector.x (Agent.position a) <= 250
      /\ 50 <= Vector.y (Agent.position a) <= 550)
  /\ Agent.velocity a = Vector.new 0 0
  /\ Agent.maxSpeed a = 2
  /\ Agent.perceptionRadius a = perceptionRadius
  /\ Agent.desiredSeparation a = 20.

(** Two agents at rest, 20 apart, in the corridor of the default layout. *)
Definition pair_heap : Heap :=
  fun r => match r with O => stander | _ => Agent.new 420 300 2 50 20 end.

Definition pair_scene : Simulation.t :=
  Simulation.setupGrid
    (Simulation.mk 800 600 (Environment.new 800 600) [0%nat; 1%nat]
                   pair_heap 0 0 0 0 scene_params [] 50 None).

(** The default layout after the last agent has left. *)
Definition evacuated_scene : Simulation.t :=
  Simulation.setupGrid
    (Simulation.mk 800 600 (Environment.new 800 600) []
                   scene_heap 120 0 3 0 scene_params [] 50 (Some 0)).

(** An agent standing inside the top wall of the default layout. *)
Definition stuck : Agent.t := Agent.new 400 10 2 50 20.

(** An agent in the open hall whose velocity, (19, 29), is well above
    its [maxSpeed] 2. *)
Definition speeder : Agent.t :=
  Agent.mk (Vector.new 400 300) (Vector.new 19 29) 2 50 20 5 30.

(** * Properties *)

(** ** Numbers *)

Section Numbers.

Lemma num_lt_true (a b : R) : num_lt a b = true <-> a < b.
Proof. unfold num_lt; destruct (Rlt_dec a b); split; intros; try easy. Qed.

Lemma num_lt_false (a b : R) : num_lt a b = false <-> b <= a.
Proof.
  unfold num_lt; destruct (Rlt_dec a b); split; intros; try easy; lra.
Qed.

Lemma num_gt_true (a b : R) : num_gt a b = true <-> b < a.
Proof.
  unfold num_gt; destruct (Rgt_dec a b); split; intros; try easy; lra.
Qed.

Lemma num_gt_false (a b : R) : num_gt a b = false <-> a <= b.
Proof.
  unfold num_gt; destruct (Rgt_dec a b); split; intros; try easy; lra.
Qed.

Lemma num_ne_true (a b : R) : num_ne a b = true <-> a <> b.
Proof. unfold num_ne; destruct (Req_dec_T a b); split; intros; easy. Qed.

Lemma num_ne_false (a b : R) : num_ne a b = false <-> a = b.
Proof. unfold num_ne; destruct (Req_dec_T a b); split; intros; easy. Qed.

Lemma sum_squares_nonneg (a b : R) : 0 <= a * a + b * b.
Proof. nra. Qed.

Lemma sum_squares_zero (a b : R) : a * a + b * b = 0 -> a = 0 /\ b = 0.
Proof. intros H; split; nra. Qed.

End Numbers.

(** ** Vectors *)

Section VectorFacts.

Lemma vector_eta (v : Vector.t) : Vector.new (Vector.x v) (Vector.y v) = v.
Proof. now destruct v. Qed.

Lemma vector_eq (u v : Vector.t) :
  Vector.x u = Vector.x v -> Vector.y u = Vector.y v -> u = v.
Proof. destruct u, v; simpl; intros; subst; reflexivity. Qed.

Lemma mag_nonneg (v : Vector.t) : 0 <= Vector.mag v.
Proof. apply sqrt_pos. Qed.

Lemma mag_sqr (v : Vector.t) :
  Vector.mag v * Vector.mag v
  = Vector.x v * Vector.x v + Vector.y v * Vector.y v.
Proof. apply sqrt_sqrt, sum_squares_nonneg. Qed.

Lemma mag_zero_iff (v : Vector.t) :
  Vector.mag v = 0 <-> v = Vector.new 0 0.
Proof.
  split.
  - intros H. apply sqrt_eq_0 in H; [| apply sum_squares_nonneg].
    apply sum_squares_zero in H. destruct H. now apply vector_eq.
  - intros ->. unfold Vector.mag; simpl.
    replace (0 * 0 + 0 * 0) with 0 by lra. apply sqrt_0.
Qed.

Lemma mag_mult (v : Vector.t) (s : R) :
  Vector.mag (Vector.mult v s) = Vector.mag v * Rabs s.
Proof.
  unfold Vector.mag, Vector.mult; simpl.
  rewrite <- sqrt_Rsqr_abs, <- sqrt_mult_alt by apply sum_squares_nonneg.
  f_equal. unfold Rsqr. ring.
Qed.

Lemma mag_normalize (v : Vector.t) :
  Vector.mag v <> 0 -> Vector.mag (Vector.normalize v) = 1.
Proof.
  intros Hm. unfold Vector.normalize, Vector.div.
  assert (Hne : num_ne (Vector.mag v) 0 = true) by now apply num_ne_true.
  rewrite !Hne. unfold Vector.mag at 1; simpl.
  replace (Vector.x v / Vector.mag v * (Vector.x v / Vector.mag v)
           + Vector.y v / Vector.mag v * (Vector.y v / Vector.mag v))
    with 1; [apply sqrt_1 |].
  pose proof (mag_sqr v) as Hs. field_simplify_eq; [| exact Hm]. lra.
Qed.

Lemma normalize_zero_mag (v : Vector.t) :
  Vector.mag v = 0 -> Vector.normalize v = v.
Proof.
  intros Hm. unfold Vector.normalize.
  assert (Hne : num_ne (Vector.mag v) 0 = false) by now apply num_ne_false.
  now rewrite Hne.
Qed.

Lemma mag_limit (v : Vector.t) (max : R) :
  0 <= max -> Vector.mag (Vector.limit v max) <= max.
Proof.
  intros Hmax. unfold Vector.limit.
  destruct (num_gt (Vector.mag v) max) eqn:Hgt.
  - apply num_gt_true in Hgt.
    rewrite mag_mult, mag_normalize by lra.
    rewrite Rabs_pos_eq by exact Hmax. lra.
  - now apply num_gt_false in Hgt.
Qed.

Lemma dist_static_add (p v : Vector.t) :
  Vector.dist (Vector.static_add p v) p = Vector.mag v.
Proof.
  unfold Vector.dist, Vector.static_add, Vector.mag; simpl.
  f_equal. ring.
Qed.

End VectorFacts.

(** ** Agent.update *)

Section AgentUpdate.

Variable env : Environment.t.

(** What [update] leaves in [velocity]: the clamped velocity, damped
    by 0.8 when the first candidate position is not valid. *)
Lemma update_velocity (a : Agent.t) :
  let clamped := Vector.limit (Agent.velocity a) (Agent.maxSpeed a) in
  Agent.velocity (Agent.update a env) = clamped
  \/ Agent.velocity (Agent.update a env) = Vector.mult clamped 0.8.
Proof.
  unfold Agent.update; simpl.
  destruct (Environment.isPositionValid env _); simpl; auto.
Qed.

Lemma update_position (a : Agent.t) :
  Agent.position (Agent.update a env)
  = Vector.static_add (Agent.position a)
                      (Agent.velocity (Agent.update a env)).
Proof.
  unfold Agent.update; simpl.
  destruct (Environment.isPositionValid env _); reflexivity.
Qed.

Lemma update_maxSpeed (a : Agent.t) :
  Agent.maxSpeed (Agent.update a env) = Agent.maxSpeed a.
Proof.
  unfold Agent.update; simpl.
  destruct (Environment.isPositionValid env _); reflexivity.
Qed.

Lemma update_speed_bound (a : Agent.t) :
  0 <= Agent.maxSpeed a ->
  Vector.mag (Agent.velocity (Agent.update a env)) <= Agent.maxSpeed a.
Proof.
  intros Hmax.
  pose proof (mag_limit (Agent.velocity a) (Agent.maxSpeed a) Hmax) as Hl.
  destruct (update_velocity a) as [-> | ->]; [exact Hl |].
  rewrite mag_mult, Rabs_pos_eq by lra.
  pose proof (mag_nonneg (Vector.limit (Agent.velocity a) (Agent.maxSpeed a))).
  nra.
Qed.

End AgentUpdate.

(** ** Rounding to 53 bits *)

Section Rounding.

Lemma nearest_even_error (z : R) : Rabs (IZR (nearest_even z) - z) <= 1 / 2.
Proof.
  unfold nearest_even.
  destruct (Zfloor_bound z) as [Hlo Hhi].
  destruct (Rlt_dec (z - IZR (Zfloor z)) (1 / 2)) as [H1 | H1].
  - apply Rabs_le. lra.
  - destruct (Rlt_dec (1 / 2) (z - IZR (Zfloor z))) as [H2 | H2].
    + rewrite plus_IZR. apply Rabs_le. lra.
    + destruct (Z.even (Zfloor z)).
      * apply Rabs_le. lra.
      * rewrite plus_IZR. apply Rabs_le. lra.
Qed.

Lemma powerRZ_2_pos (e : Z) : 0 < powerRZ 2 e.
Proof. apply powerRZ_lt. lra. Qed.

Lemma floor_log2_le (x : R) :
  0 < x -> powerRZ 2 (Zfloor (ln x / ln 2)) <= x.
Proof.
  intros Hx.
  assert (Hln2 : 0 < ln 2) by (rewrite <- ln_1; apply ln_increasing; lra).
  destruct (Zfloor_bound (ln x / ln 2)) as [Hlo _].
  rewrite powerRZ_Rpower by lra. unfold Rpower.
  rewrite <- (exp_ln x) at 2 by exact Hx.
  destruct (Rle_lt_or_eq_dec _ _ Hlo) as [Hlt | Heq].
  - left. apply exp_increasing.
    apply (Rmult_lt_compat_r (ln 2)) in Hlt; [| exact Hln2].
    unfold Rdiv in Hlt. rewrite Rmult_assoc, Rinv_l, Rmult_1_r in Hlt by lra.
    exact Hlt.
  - right. f_equal. rewrite Heq. field. lra.
Qed.

(** [round53] is within the unit roundoff of doubles. *)
Lemma round53_error : rounds_within unit_roundoff round53.
Proof.
  intros x. unfold round53.
  destruct (Req_dec_T x 0) as [-> | Hx].
  - rewrite Rminus_diag, Rabs_R0. lra.
  - set (k := Zfloor (ln (Rabs x) / ln 2)).
    set (e := (k - 52)%Z).
    assert (Hpos : 0 < Rabs x) by now apply Rabs_pos_lt.
    assert (Hk : powerRZ 2 k <= Rabs x) by now apply floor_log2_le.
    assert (He : 0 < powerRZ 2 e) by apply powerRZ_2_pos.
    assert (Hke : powerRZ 2 k = powerRZ 2 e * 2 ^ 52).
    { replace k with (e + 52)%Z by (unfold e; lia).
      rewrite powerRZ_add by lra. reflexivity. }
    pose proof (nearest_even_error (x / powerRZ 2 e)) as Hn.
    replace (IZR (nearest_even (x / powerRZ 2 e)) * powerRZ 2 e - x)
      with ((IZR (nearest_even (x / powerRZ 2 e)) - x / powerRZ 2 e)
            * powerRZ 2 e) by (field; lra).
    rewrite Rabs_mult, (Rabs_pos_eq (powerRZ 2 e)) by lra.
    unfold unit_roundoff.
    assert (H53 : 2 ^ 53 = 2 * 2 ^ 52) by (simpl; ring).
    rewrite H53.
    assert (H52 : 0 < 2 ^ 52) by (apply pow_lt; lra).
    apply Rle_trans with (1 / 2 * powerRZ 2 e).
    + apply Rmult_le_compat_r; lra.
    + apply Rle_trans with (/ (2 * 2 ^ 52) * powerRZ 2 k).
      * rewrite Hke. right; field; lra.
      * apply Rmult_le_compat_l; [| exact Hk].
        left. apply Rinv_0_lt_compat. lra.
Qed.

Lemma unit_roundoff_small : 0 <= unit_roundoff < / 1000.
Proof.
  unfold unit_roundoff.
  assert (H : 1024 <= 2 ^ 53).
  { replace (2 ^ 53) with (1024 * 2 ^ 43) by (simpl; ring).
    assert (1 <= 2 ^ 43) by (apply pow_R1_Rle; lra). lra. }
  split.
  - left. apply Rinv_0_lt_compat. lra.
  - apply Rinv_lt_contravar; lra.
Qed.

(** Exact arithmetic rounds within 0. *)
Lemma identity_rounds : rounds_within 0 (fun x => x).
Proof. intros x. rewrite Rminus_diag, Rabs_R0. lra. Qed.

(** The factor of the bounds below, for a small [u]. *)
Lemma slack_small (u : R) :
  0 <= u <= / 20 -> (1 + u) ^ 4 / (1 - u) ^ 2 <= 1 + 7 * u.
Proof.
  intros Hu.
  assert (Hq : 0 < (1 - u) ^ 2) by (simpl; nra).
  apply (Rmult_le_reg_r ((1 - u) ^ 2)); [exact Hq |].
  unfold Rdiv. rewrite Rmult_assoc, Rinv_l, Rmult_1_r by lra.
  assert (H : (1 + 7 * u) * (1 - u) ^ 2 - (1 + u) ^ 4
              = u * (1 - 19 * u + 3 * (u * u) - u * (u * u))) by ring.
  assert (H0 : 0 <= u * u <= / 400) by nra.
  assert (H1 : 0 <= u * (u * u)) by (apply Rmult_le_pos; lra).
  assert (H2 : u * (u * u) <= / 20 * / 400)
    by (apply Rmult_le_compat; lra).
  assert (H3 : 0 <= 1 - 19 * u + 3 * (u * u) - u * (u * u)) by lra.
  assert (H4 : 0 <= u * (1 - 19 * u + 3 * (u * u) - u * (u * u)))
    by (apply Rmult_le_pos; lra).
  lra.
Qed.

End Rounding.

(** ** The vector arithmetic with rounding

    How far the computed magnitudes are from the exact ones when every
    operation rounds within [u]. *)

Section RoundedFacts.

Variable rnd : R -> R.
Variable u : R.
Hypothesis Hu : 0 <= u < 1.
Hypothesis Hrnd : rounds_within u rnd.

Lemma abs_le_inv (a b : R) : Rabs a <= b -> - b <= a <= b.
Proof.
  intros H. pose proof (Rle_abs a) as H1. pose proof (Rle_abs (- a)) as H2.
  rewrite Rabs_Ropp in H2. lra.
Qed.

Lemma rnd_nonneg (x : R) :
  0 <= x -> (1 - u) * x <= rnd x <= (1 + u) * x.
Proof.
  intros Hx. pose proof (Hrnd x) as H.
  rewrite (Rabs_pos_eq x) in H by exact Hx.
  apply abs_le_inv in H. lra.
Qed.

Lemma rnd_abs (x : R) :
  (1 - u) * Rabs x <= Rabs (rnd x) <= (1 + u) * Rabs x.
Proof.
  pose proof (Hrnd x) as H.
  pose proof (Rabs_triang (rnd x - x) x) as H1.
  replace (rnd x - x + x) with (rnd x) in H1 by ring.
  pose proof (Rabs_triang (x - rnd x) (rnd x)) as H2.
  replace (x - rnd x + rnd x) with x in H2 by ring.
  rewrite (Rabs_minus_sym x (rnd x)) in H2.
  lra.
Qed.

Lemma square_abs (x : R) : x * x = Rabs x * Rabs x.
Proof.
  unfold Rabs. destruct (Rcase_abs x); ring.
Qed.

Lemma square_le (a b : R) : 0 <= a <= b -> a * a <= b * b.
Proof. intros H. apply Rmult_le_compat; lra. Qed.

Lemma mag_scaled_le (p v : Vector.t) (c : R) :
  0 <= c ->
  Rabs (Vector.x p) <= c * Rabs (Vector.x v) ->
  Rabs (Vector.y p) <= c * Rabs (Vector.y v) ->
  Vector.mag p <= c * Vector.mag v.
Proof.
  intros Hc Hx Hy.
  pose proof (mag_nonneg p) as Hp. pose proof (mag_nonneg v) as Hv.
  pose proof (mag_sqr p) as Sp. pose proof (mag_sqr v) as Sv.
  rewrite (square_abs (Vector.x p)), (square_abs (Vector.y p)) in Sp.
  rewrite (square_abs (Vector.x v)), (square_abs (Vector.y v)) in Sv.
  pose proof (Rabs_pos (Vector.x p)). pose proof (Rabs_pos (Vector.y p)).
  pose proof (Rabs_pos (Vector.x v)). pose proof (Rabs_pos (Vector.y v)).
  apply Rsqr_incr_0_var; [| nra].
  unfold Rsqr.
  assert (Rabs (Vector.x p) * Rabs (Vector.x p)
          <= (c * Rabs (Vector.x v)) * (c * Rabs (Vector.x v)))
    by (apply square_le; lra).
  assert (Rabs (Vector.y p) * Rabs (Vector.y p)
          <= (c * Rabs (Vector.y v)) * (c * Rabs (Vector.y v)))
    by (apply square_le; lra).
  nra.
Qed.

Lemma mag_scaled_ge (p v : Vector.t) (c : R) :
  0 <= c ->
  c * Rabs (Vector.x v) <= Rabs (Vector.x p) ->
  c * Rabs (Vector.y v) <= Rabs (Vector.y p) ->
  c * Vector.mag v <= Vector.mag p.
Proof.
  intros Hc Hx Hy.
  pose proof (mag_nonneg p) as Hp. pose proof (mag_nonneg v) as Hv.
  pose proof (mag_sqr p) as Sp. pose proof (mag_sqr v) as Sv.
  rewrite (square_abs (Vector.x p)), (square_abs (Vector.y p)) in Sp.
  rewrite (square_abs (Vector.x v)), (square_abs (Vector.y v)) in Sv.
  pose proof (Rabs_pos (Vector.x p)). pose proof (Rabs_pos (Vector.y p)).
  pose proof (Rabs_pos (Vector.x v)). pose proof (Rabs_pos (Vector.y v)).
  apply Rsqr_incr_0_var; [| exact Hp].
  unfold Rsqr.
  assert ((c * Rabs (Vector.x v)) * (c * Rabs (Vector.x v))
          <= Rabs (Vector.x p) * Rabs (Vector.x p))
    by (apply square_le; split; [apply Rmult_le_pos |]; lra).
  assert ((c * Rabs (Vector.y v)) * (c * Rabs (Vector.y v))
          <= Rabs (Vector.y p) * Rabs (Vector.y p))
    by (apply square_le; split; [apply Rmult_le_pos |]; lra).
  nra.
Qed.

(** The computed magnitude against the exact one. *)
Lemma rounded_mag_bounds (v : Vector.t) :
  (1 - u) * (1 - u) * Vector.mag v <= Rounded.mag rnd v
  <= (1 + u) * (1 + u) * Vector.mag v.
Proof.
  unfold Rounded.mag.
  set (a := Vector.x v * Vector.x v). set (b := Vector.y v * Vector.y v).
  assert (Ha : 0 <= a) by (unfold a; nra).
  assert (Hb : 0 <= b) by (unfold b; nra).
  pose proof (rnd_nonneg a Ha) as Ra. pose proof (rnd_nonneg b Hb) as Rb.
  assert (Hs : 0 <= rnd a + rnd b) by nra.
  pose proof (rnd_nonneg _ Hs) as Rs.
  set (s := rnd (rnd a + rnd b)) in *.
  assert (Hlo : (1 - u) * (1 - u) * (a + b) <= s) by nra.
  assert (Hhi : s <= (1 + u) * (1 + u) * (a + b)) by nra.
  assert (Hs0 : 0 <= s) by nra.
  assert (Hm : Vector.mag v = sqrt (a + b)) by reflexivity.
  assert (Hq : (1 - u) * Vector.mag v <= sqrt s <= (1 + u) * Vector.mag v).
  { rewrite Hm. split.
    - rewrite <- (sqrt_square (1 - u)) at 1 by lra.
      rewrite <- sqrt_mult_alt by nra.
      apply sqrt_le_1_alt. exact Hlo.
    - rewrite <- (sqrt_square (1 + u)) at 1 by lra.
      rewrite <- sqrt_mult_alt by nra.
      apply sqrt_le_1_alt. exact Hhi. }
  pose proof (rnd_nonneg _ (sqrt_pos s)) as Rq.
  pose proof (mag_nonneg v). nra.
Qed.

Lemma rounded_mag_nonneg (v : Vector.t) : 0 <= Rounded.mag rnd v.
Proof.
  pose proof (rounded_mag_bounds v) as B. pose proof (mag_nonneg v) as N.
  assert (0 <= (1 - u) * (1 - u) * Vector.mag v)
    by (apply Rmult_le_pos; [nra | exact N]).
  lra.
Qed.

Lemma rounded_mag_pos (v : Vector.t) :
  Rounded.mag rnd v <> 0 -> 0 < Vector.mag v.
Proof.
  intros H. pose proof (rounded_mag_bounds v) as B.
  pose proof (mag_nonneg v) as N.
  destruct (Req_dec (Vector.mag v) 0) as [E | E]; [| lra].
  rewrite E, !Rmult_0_r in B. lra.
Qed.

(** The exact length of the computed unit vector. *)
Lemma rounded_normalize_bounds (v : Vector.t) :
  Rounded.mag rnd v <> 0 ->
  (1 - u) / ((1 + u) * (1 + u)) <= Vector.mag (Rounded.normalize rnd v)
  <= (1 + u) / ((1 - u) * (1 - u)).
Proof.
  intros Hm.
  pose proof (rounded_mag_pos v Hm) as Hpos.
  pose proof (rounded_mag_bounds v) as B.
  pose proof (rounded_mag_nonneg v) as N.
  unfold Rounded.normalize, Rounded.div.
  rewrite (proj2 (num_ne_true _ _) Hm).
  set (m := Rounded.mag rnd v) in *.
  assert (Hm0 : 0 < m) by lra.
  assert (Hdx : forall t : R, Rabs (t / m) = / m * Rabs t).
  { intros t. unfold Rdiv. rewrite Rabs_mult, (Rabs_pos_eq (/ m)).
    - ring.
    - left. now apply Rinv_0_lt_compat. }
  assert (Hinv : 0 < / m) by now apply Rinv_0_lt_compat.
  set (q := / m * Vector.mag v).
  assert (Hq : Vector.mag v = q * m) by (unfold q; field; lra).
  assert (Hlo : (1 - u) * (1 - u) * q <= 1).
  { apply (Rmult_le_reg_r m); [exact Hm0 |]. rewrite Hq in B. lra. }
  assert (Hhi : 1 <= (1 + u) * (1 + u) * q).
  { apply (Rmult_le_reg_r m); [exact Hm0 |]. rewrite Hq in B. lra. }
  assert (Hp : 0 < (1 + u) * (1 + u)) by nra.
  assert (Hn : 0 < (1 - u) * (1 - u)) by nra.
  split.
  - apply Rle_trans with ((1 - u) * / m * Vector.mag v).
    + unfold Rdiv. rewrite !Rmult_assoc. fold q.
      apply Rmult_le_compat_l; [lra |].
      apply (Rmult_le_reg_l ((1 + u) * (1 + u))); [exact Hp |].
      rewrite Rinv_r by lra. exact Hhi.
    + apply mag_scaled_ge; simpl.
      * apply Rmult_le_pos; lra.
      * pose proof (rnd_abs (Vector.x v / m)) as H.
        rewrite Hdx in H. lra.
      * pose proof (rnd_abs (Vector.y v / m)) as H.
        rewrite Hdx in H. lra.
  - apply Rle_trans with ((1 + u) * / m * Vector.mag v).
    + apply mag_scaled_le; simpl.
      * apply Rmult_le_pos; lra.
      * pose proof (rnd_abs (Vector.x v / m)) as H.
        rewrite Hdx in H. lra.
      * pose proof (rnd_abs (Vector.y v / m)) as H.
        rewrite Hdx in H. lra.
    + unfold Rdiv. rewrite !Rmult_assoc. fold q.
      apply Rmult_le_compat_l; [lra |].
      apply (Rmult_le_reg_l ((1 - u) * (1 - u))); [exact Hn |].
      rewrite Rinv_r by lra. exact Hlo.
Qed.

Lemma rounded_mult_bounds (v : Vector.t) (s : R) :
  (1 - u) * Rabs s * Vector.mag v <= Vector.mag (Rounded.mult rnd v s)
  <= (1 + u) * Rabs s * Vector.mag v.
Proof.
  pose proof (Rabs_pos s) as Hs.
  split.
  - apply mag_scaled_ge; simpl.
    + apply Rmult_le_pos; lra.
    + pose proof (rnd_abs (Vector.x v * s)) as H.
      rewrite Rabs_mult in H. lra.
    + pose proof (rnd_abs (Vector.y v * s)) as H.
      rewrite Rabs_mult in H. lra.
  - apply mag_scaled_le; simpl.
    + apply Rmult_le_pos; lra.
    + pose proof (rnd_abs (Vector.x v * s)) as H.
      rewrite Rabs_mult in H. lra.
    + pose proof (rnd_abs (Vector.y v * s)) as H.
      rewrite Rabs_mult in H. lra.
Qed.

Lemma rounded_limit_unchanged (v : Vector.t) (max : R) :
  Rounded.mag rnd v <= max -> Rounded.limit rnd v max = v.
Proof.
  intros H. unfold Rounded.limit.
  now rewrite (proj2 (num_gt_false _ _) H).
Qed.

(** The exact length of a clamped vector. *)
Lemma rounded_limit_clamped (v : Vector.t) (max : R) :
  0 <= max -> max < Rounded.mag rnd v ->
  max * ((1 - u) ^ 2 / (1 + u) ^ 2)
  <= Vector.mag (Rounded.limit rnd v max)
  <= max * ((1 + u) ^ 2 / (1 - u) ^ 2).
Proof.
  intros Hmax Hgt. unfold Rounded.limit.
  rewrite (proj2 (num_gt_true _ _) Hgt).
  assert (Hm : Rounded.mag rnd v <> 0) by lra.
  pose proof (rounded_normalize_bounds v Hm) as Hn.
  pose proof (rounded_mult_bounds (Rounded.normalize rnd v) max) as Hs.
  rewrite (Rabs_pos_eq max) in Hs by exact Hmax.
  set (n := Vector.mag (Rounded.normalize rnd v)) in *.
  set (l := Vector.mag (Rounded.mult rnd (Rounded.normalize rnd v) max)) in *.
  assert (Hp : 0 < (1 + u) * (1 + u)) by nra.
  assert (Hq : 0 < (1 - u) * (1 - u)) by nra.
  replace ((1 - u) ^ 2 / (1 + u) ^ 2)
    with ((1 - u) * ((1 - u) / ((1 + u) * (1 + u)))) by (field; lra).
  replace ((1 + u) ^ 2 / (1 - u) ^ 2)
    with ((1 + u) * ((1 + u) / ((1 - u) * (1 - u)))) by (field; lra).
  destruct Hn as [Hn1 Hn2]. destruct Hs as [Hs1 Hs2].
  split.
  - apply Rle_trans with ((1 - u) * max * n); [| exact Hs1].
    rewrite <- Rmult_assoc, (Rmult_comm max).
    apply Rmult_le_compat_l; [apply Rmult_le_pos; lra | exact Hn1].
  - apply Rle_trans with ((1 + u) * max * n); [exact Hs2 |].
    rewrite <- Rmult_assoc, (Rmult_comm max).
    apply Rmult_le_compat_l; [apply Rmult_le_pos; lra | exact Hn2].
Qed.

(** The exact length of [limit]'s result, clamped or not. *)
Lemma rounded_limit_exact (v : Vector.t) (max : R) :
  0 <= max ->
  Vector.mag (Rounded.limit rnd v max) <= max * ((1 + u) ^ 2 / (1 - u) ^ 2).
Proof.
  intros Hmax.
  destruct (Rlt_le_dec max (Rounded.mag rnd v)) as [Hgt | Hle].
  - now apply rounded_limit_clamped.
  - rewrite rounded_limit_unchanged by exact Hle.
    pose proof (rounded_mag_bounds v) as B.
    pose proof (mag_nonneg v) as N.
    assert (Hq : 0 < (1 - u) ^ 2) by (simpl; nra).
    assert (H1 : Vector.mag v <= max / (1 - u) ^ 2).
    { apply (Rmult_le_reg_r ((1 - u) ^ 2)); [exact Hq |].
      unfold Rdiv. rewrite Rmult_assoc, Rinv_l by lra. simpl. lra. }
    apply Rle_trans with (1 := H1).
    unfold Rdiv. rewrite <- Rmult_assoc.
    apply Rmult_le_compat_r; [left; now apply Rinv_0_lt_compat |].
    simpl. nra.
Qed.

(** The computed length of [limit]'s result. *)
Lemma rounded_mag_limit (v : Vector.t) (max : R) :
  0 <= max ->
  Rounded.mag rnd (Rounded.limit rnd v max)
  <= max * ((1 + u) ^ 4 / (1 - u) ^ 2).
Proof.
  intros Hmax.
  assert (Hq : 0 < (1 - u) ^ 2) by (simpl; nra).
  assert (Hs : 1 <= (1 + u) ^ 4 / (1 - u) ^ 2).
  { apply (Rmult_le_reg_r ((1 - u) ^ 2)); [exact Hq |].
    unfold Rdiv. rewrite Rmult_assoc, Rinv_l by lra.
    assert (1 <= (1 + u) ^ 2) by (simpl; nra).
    assert ((1 - u) ^ 2 <= 1) by (simpl; nra).
    replace ((1 + u) ^ 4) with ((1 + u) ^ 2 * (1 + u) ^ 2) by ring.
    nra. }
  destruct (Rlt_le_dec max (Rounded.mag rnd v)) as [Hgt | Hle].
  - pose proof (rounded_limit_clamped v max Hmax Hgt) as [_ H].
    pose proof (rounded_mag_bounds (Rounded.limit rnd v max)) as [_ B].
    apply Rle_trans with (1 := B).
    replace ((1 + u) ^ 4 / (1 - u) ^ 2)
      with ((1 + u) * (1 + u) * ((1 + u) ^ 2 / (1 - u) ^ 2)) by (field; lra).
    apply Rle_trans
      with ((1 + u) * (1 + u) * (max * ((1 + u) ^ 2 / (1 - u) ^ 2)));
      [| right; ring].
    apply Rmult_le_compat_l; [nra | exact H].
  - rewrite rounded_limit_unchanged by exact Hle.
    apply Rle_trans with (1 := Hle).
    rewrite <- (Rmult_1_r max) at 1.
    apply Rmult_le_compat_l; [exact Hmax | exact Hs].
Qed.

Lemma rounded_mag_nonzero (v : Vector.t) :
  Vector.mag v <> 0 -> Rounded.mag rnd v <> 0.
Proof.
  intros H. pose proof (rounded_mag_bounds v) as [B _].
  pose proof (mag_nonneg v) as N.
  assert (0 < (1 - u) * (1 - u) * Vector.mag v)
    by (apply Rmult_lt_0_compat; [nra | lra]).
  lra.
Qed.

(** The computed length of the computed unit vector. *)
Lemma rounded_mag_normalize (v : Vector.t) :
  Rounded.mag rnd v <> 0 ->
  (1 - u) ^ 3 / (1 + u) ^ 2 <= Rounded.mag rnd (Rounded.normalize rnd v)
  <= (1 + u) ^ 3 / (1 - u) ^ 2.
Proof.
  intros Hm.
  pose proof (rounded_normalize_bounds v Hm) as [H1 H2].
  pose proof (rounded_mag_bounds (Rounded.normalize rnd v)) as [B1 B2].
  replace ((1 - u) ^ 3 / (1 + u) ^ 2)
    with ((1 - u) * (1 - u) * ((1 - u) / ((1 + u) * (1 + u))))
    by (field; lra).
  replace ((1 + u) ^ 3 / (1 - u) ^ 2)
    with ((1 + u) * (1 + u) * ((1 + u) / ((1 - u) * (1 - u))))
    by (field; lra).
  split.
  - apply Rle_trans with (2 := B1).
    apply Rmult_le_compat_l; [nra | exact H1].
  - apply Rle_trans with (1 := B2).
    apply Rmult_le_compat_l; [nra | exact H2].
Qed.

(** The computed length of a clamped vector. *)
Lemma rounded_mag_limit_clamped (v : Vector.t) (max : R) :
  0 <= max -> max < Rounded.mag rnd v ->
  max * ((1 - u) ^ 4 / (1 + u) ^ 2)
  <= Rounded.mag rnd (Rounded.limit rnd v max)
  <= max * ((1 + u) ^ 4 / (1 - u) ^ 2).
Proof.
  intros Hmax Hgt.
  pose proof (rounded_limit_clamped v max Hmax Hgt) as [H1 H2].
  pose proof (rounded_mag_bounds (Rounded.limit rnd v max)) as [B1 B2].
  replace ((1 - u) ^ 4 / (1 + u) ^ 2)
    with ((1 - u) * (1 - u) * ((1 - u) ^ 2 / (1 + u) ^ 2)) by (field; lra).
  replace ((1 + u) ^ 4 / (1 - u) ^ 2)
    with ((1 + u) * (1 + u) * ((1 + u) ^ 2 / (1 - u) ^ 2)) by (field; lra).
  split.
  - apply Rle_trans with (2 := B1).
    apply Rle_trans
      with ((1 - u) * (1 - u) * (max * ((1 - u) ^ 2 / (1 + u) ^ 2)));
      [right; ring |].
    apply Rmult_le_compat_l; [nra | exact H1].
  - apply Rle_trans with (1 := B2).
    apply Rle_trans
      with ((1 + u) * (1 + u) * (max * ((1 + u) ^ 2 / (1 - u) ^ 2)));
      [| right; ring].
    apply Rmult_le_compat_l; [nra | exact H2].
Qed.

Variable env : Environment.t.

Lemma rounded_update_velocity (a : Agent.t) :
  let clamped := Rounded.limit rnd (Agent.velocity a) (Agent.maxSpeed a) in
  Agent.velocity (Rounded.update rnd a env) = clamped
  \/ Agent.velocity (Rounded.update rnd a env)
     = Rounded.mult rnd clamped (rnd 0.8).
Proof.
  unfold Rounded.update; simpl.
  destruct (Rounded.isPositionValid rnd env _); simpl; auto.
Qed.

Lemma rounded_update_speed_bound (a : Agent.t) :
  u <= / 10 ->
  0 <= Agent.maxSpeed a ->
  Rounded.mag rnd (Agent.velocity (Rounded.update rnd a env))
  <= Agent.maxSpeed a * ((1 + u) ^ 4 / (1 - u) ^ 2).
Proof.
  intros Hsmall Hmax.
  destruct (rounded_update_velocity a) as [-> | ->].
  - now apply rounded_mag_limit.
  - set (l := Rounded.limit rnd (Agent.velocity a) (Agent.maxSpeed a)).
    pose proof (rounded_limit_exact (Agent.velocity a) (Agent.maxSpeed a) Hmax)
      as Hl. fold l in Hl.
    pose proof (rounded_mult_bounds l (rnd 0.8)) as [_ Hw].
    pose proof (rounded_mag_bounds (Rounded.mult rnd l (rnd 0.8)))
      as [_ B].
    assert (Hk : Rabs (rnd 0.8) <= (1 + u) * 0.8).
    { pose proof (rnd_abs 0.8) as H.
      rewrite (Rabs_pos_eq 0.8) in H by lra. lra. }
    pose proof (mag_nonneg l) as Nl.
    pose proof (mag_nonneg (Rounded.mult rnd l (rnd 0.8))) as Nw.
    set (w := Vector.mag (Rounded.mult rnd l (rnd 0.8))) in *.
    set (S := (1 + u) ^ 2 / (1 - u) ^ 2) in *.
    assert (HS : (1 + u) ^ 4 / (1 - u) ^ 2 = (1 + u) * (1 + u) * S)
      by (unfold S; field; lra).
    rewrite HS.
    assert (H1 : w <= (1 + u) * ((1 + u) * 0.8) * Vector.mag l).
    { apply Rle_trans with (1 := Hw).
      apply Rmult_le_compat_r; [exact Nl |].
      apply Rmult_le_compat_l; lra. }
    assert (H2 : (1 + u) * ((1 + u) * 0.8) <= 1) by nra.
    assert (H3 : w <= Vector.mag l).
    { apply Rle_trans with (1 := H1).
      rewrite <- (Rmult_1_l (Vector.mag l)) at 2.
      apply Rmult_le_compat_r; [exact Nl | exact H2]. }
    apply Rle_trans with (1 := B).
    apply Rle_trans with ((1 + u) * (1 + u) * (Agent.maxSpeed a * S));
      [| right; ring].
    apply Rmult_le_compat_l; [nra | lra].
Qed.

Lemma rounded_update_maxSpeed (a : Agent.t) :
  Agent.maxSpeed (Rounded.update rnd a env) = Agent.maxSpeed a.
Proof.
  unfold Rounded.update; simpl.
  destruct (Rounded.isPositionValid rnd env _); reflexivity.
Qed.

End RoundedFacts.

(** With exact arithmetic the rounded code is the code of the main
    model. *)
Lemma rounded_exact (a : Agent.t) (env : Environment.t) :
  Rounded.update (fun x => x) a env = Agent.update a env.
Proof. reflexivity. Qed.

Lemma mag_19_29 : 34 <= Vector.mag (Vector.new 19 29).
Proof.
  unfold Vector.mag; cbn [Vector.x Vector.y].
  rewrite <- (sqrt_square 34) by lra.
  apply sqrt_le_1_alt. lra.
Qed.

(** C1. After [Agent.update(env)] the magnitude of the agent's velocity,
    as the code computes it, is at most [maxSpeed] up to rounding, for
    every agent with [maxSpeed > 0], whatever its velocity was before
    and whatever the environment: when every operation rounds within
    the relative error [u <= 1/10], the magnitude is at most
    [maxSpeed * (1+u)^4 / (1-u)^2].  In exact arithmetic ([u = 0]) that
    is [maxSpeed]; in doubles ([u = 2^-53]) it is [maxSpeed] and a few
    units in its last place. *)
Theorem C1_velocity_bounded_up_to_rounding
        (rnd : R -> R) (u : R) (a : Agent.t) (env : Environment.t) :
  0 <= u <= / 10 ->
  rounds_within u rnd ->
  0 < Agent.maxSpeed a ->
  Rounded.mag rnd (Agent.velocity (Rounded.update rnd a env))
  <= Agent.maxSpeed (Rounded.update rnd a env)
     * ((1 + u) ^ 4 / (1 - u) ^ 2).
Proof.
  intros Hu Hrnd Hmax. rewrite rounded_update_maxSpeed.
  apply rounded_update_speed_bound; try assumption; lra.
Qed.

Lemma C1_rounding_witness :
  0 <= unit_roundoff <= / 10
  /\ rounds_within unit_roundoff round53
  /\ 0 < Agent.maxSpeed speeder
  /\ Rounded.mag round53
       (Agent.velocity (Rounded.update round53 speeder (Environment.new 800 600)))
     <= 2 * (1 + 7 * unit_roundoff).
Proof.
  assert (Hu : 0 <= unit_roundoff <= / 10)
    by (pose proof unit_roundoff_small; lra).
  assert (Hs : 0 < Agent.maxSpeed speeder) by (simpl; lra).
  split; [exact Hu |]. split; [exact round53_error |]. split; [exact Hs |].
  pose proof (C1_velocity_bounded_up_to_rounding round53 unit_roundoff speeder
                (Environment.new 800 600) Hu round53_error Hs) as H.
  rewrite rounded_update_maxSpeed in H. cbn [Agent.maxSpeed speeder] in H.
  assert (Hsl : (1 + unit_roundoff) ^ 4 / (1 - unit_roundoff) ^ 2
                <= 1 + 7 * unit_roundoff)
    by (apply slack_small; pose proof unit_roundoff_small; lra).
  lra.
Defined.

(** The bound of C1 without the rounding term fails in doubles.  For
    the velocity (19, 29) and [maxSpeed] 2, [limit] leaves the vector
    (1.0960..., 1.6729...), whose magnitude [mag] computes as
    2.0000000000000004; the same happens to an agent in its first frame
    after it was created at rest at (64, 273). *)
Lemma C1_speed_above_maxSpeed_in_doubles :
  PrimFloat.ltb PrimFloat.zero (Binary64.Agent.maxSpeed Binary64.fast_agent)
  = true
  /\ PrimFloat.leb
       (Binary64.Vector.mag
          (Binary64.Agent.velocity
             (Binary64.Agent.update Binary64.fast_agent Binary64.hall)))
       (Binary64.Agent.maxSpeed
          (Binary64.Agent.update Binary64.fast_agent Binary64.hall))
     = false
  /\ PrimFloat.leb
       (Binary64.Vector.mag
          (Binary64.Agent.velocity
             (Binary64.Agent.update Binary64.lone_agent_pushed Binary64.hall)))
       (Binary64.Agent.maxSpeed
          (Binary64.Agent.update Binary64.lone_agent_pushed Binary64.hall))
     = false.
Proof. vm_compute. repeat split. Qed.

(** C9. [div] by a scalar that is exactly zero leaves both components as
    they were, and [normalize] leaves a vector of magnitude exactly zero
    as it was. *)
Theorem C9_div_zero_and_normalize_zero_are_noops (v : Vector.t) :
  (Vector.x (Vector.div v 0) = Vector.x v
   /\ Vector.y (Vector.div v 0) = Vector.y v)
  /\ (Vector.mag v = 0 -> Vector.normalize v = v).
Proof.
  split.
  - unfold Vector.div.
    assert (H : num_ne 0 0 = false) by now apply num_ne_false.
    now rewrite H.
  - apply normalize_zero_mag.
Qed.

Lemma C9_witness :
  Vector.mag (Vector.new 0 0) = 0
  /\ Vector.normalize (Vector.new 0 0) = Vector.new 0 0.
Proof.
  assert (H : Vector.mag (Vector.new 0 0) = 0) by now apply mag_zero_iff.
  split; [exact H |].
  apply (C9_div_zero_and_normalize_zero_are_noops (Vector.new 0 0)), H.
Defined.


(** ** Deciding comparisons of concrete numbers *)

Ltac num_compare :=
  repeat match goal with
  | |- context [num_lt ?a ?b] =>
      first [ rewrite (proj2 (num_lt_true a b)) by (simpl; lra)
            | rewrite (proj2 (num_lt_false a b)) by (simpl; lra) ]
  | |- context [num_gt ?a ?b] =>
      first [ rewrite (proj2 (num_gt_true a b)) by (simpl; lra)
            | rewrite (proj2 (num_gt_false a b)) by (simpl; lra) ]
  | |- context [num_ne ?a ?b] =>
      first [ rewrite (proj2 (num_ne_true a b)) by (simpl; lra)
            | rewrite (proj2 (num_ne_false a b)) by (simpl; lra) ]
  end.

(** ** Environment.isPositionValid *)

Section PositionValid.

Lemma rectIntersect_overlaps (r1 r2 : Rect.t) :
  Environment.rectIntersect r1 r2 = true <-> overlaps r1 r2.
Proof.
  unfold Environment.rectIntersect, overlaps.
  rewrite negb_true_iff, !orb_false_iff, !num_lt_false, !num_gt_false.
  lra.
Qed.

Lemma out_of_bounds_outside (env : Environment.t) (pos : Vector.t) :
  Environment.out_of_bounds env pos = true <-> outside env pos.
Proof.
  unfold Environment.out_of_bounds, outside.
  rewrite !orb_true_iff, !num_lt_true, !num_gt_true. unfold Rgt. tauto.
Qed.

Lemma existsb_overlaps (r : Rect.t) (l : list Rect.t) :
  existsb (fun r' => Environment.rectIntersect r r') l = true
  <-> exists r', In r' l /\ overlaps r r'.
Proof.
  rewrite existsb_exists.
  split; intros (r' & Hin & H); exists r'; split; auto;
    now apply rectIntersect_overlaps.
Qed.

End PositionValid.

(** C2, as the code has it.  [isPositionValid] returns [false] exactly
    when the agent-sized square around the point overlaps a wall, or
    overlaps a restricted zone, or the point lies outside
    [[0,width] x [0,height]]: the restricted zones block like walls. *)
Theorem C2_isPositionValid_false_iff (env : Environment.t) (pos : Vector.t) :
  Environment.isPositionValid env pos = false
  <-> (exists wall, In wall (Environment.walls env)
                    /\ overlaps (Environment.agentRect pos) wall)
      \/ (exists zone, In zone (Environment.restrictedZones env)
                       /\ overlaps (Environment.agentRect pos) zone)
      \/ outside env pos.
Proof.
  unfold Environment.isPositionValid.
  rewrite <- !existsb_overlaps, <- out_of_bounds_outside.
  destruct (existsb _ (Environment.walls env));
    destruct (existsb _ (Environment.restrictedZones env));
    destruct (Environment.out_of_bounds env pos); intuition congruence.
Qed.

(** C2 fails as stated: in the default 800 x 600 layout the point
    (150, 150) lies inside the restricted zone, its square touches no
    wall and it is inside the bounds, and [isPositionValid] is [false]. *)
Lemma C2_restricted_zone_blocks :
  Environment.isPositionValid (Environment.new 800 600) (Vector.new 150 150)
  = false
  /\ existsb (fun wall =>
                Environment.rectIntersect
                  (Environment.agentRect (Vector.new 150 150)) wall)
             (Environment.walls (Environment.new 800 600)) = false
  /\ Environment.out_of_bounds (Environment.new 800 600) (Vector.new 150 150)
     = false.
Proof.
  assert (Hw : existsb (fun wall =>
                Environment.rectIntersect
                  (Environment.agentRect (Vector.new 150 150)) wall)
             (Environment.walls (Environment.new 800 600)) = false).
  { cbn [Environment.new Environment.setupEnvironment Environment.push_wall
         Environment.push_zone Environment.walls Environment.width
         Environment.height app existsb].
    unfold Environment.rectIntersect. num_compare. reflexivity. }
  assert (Hb : Environment.out_of_bounds (Environment.new 800 600)
                 (Vector.new 150 150) = false).
  { unfold Environment.out_of_bounds. num_compare. reflexivity. }
  split; [| split; assumption].
  unfold Environment.isPositionValid. rewrite Hw.
  cbn [Environment.new Environment.setupEnvironment Environment.push_zone
       Environment.push_wall Environment.restrictedZones app existsb].
  unfold Environment.rectIntersect. num_compare. reflexivity.
Qed.

(** ** Agent.seekGoal *)

Section SeekGoal.

Lemma sub_zero_iff (u v : Vector.t) :
  Vector.sub u v = Vector.new 0 0 <-> v = u.
Proof.
  unfold Vector.sub. split.
  - intros H. injection H as Hx Hy. apply vector_eq; lra.
  - intros ->. f_equal; lra.
Qed.

Lemma static_sub_zero_iff (u v : Vector.t) :
  Vector.static_sub u v = Vector.new 0 0 <-> v = u.
Proof. apply sub_zero_iff. Qed.

Lemma desired_velocity_nonzero (a : Agent.t) (goal : Vector.t) :
  Agent.maxSpeed a <> 0 -> Agent.position a <> goal ->
  desired_velocity a goal <> Vector.new 0 0.
Proof.
  intros Hs Hp Hd. apply (proj2 (mag_zero_iff _)) in Hd.
  unfold desired_velocity in Hd. rewrite mag_mult in Hd.
  assert (Hm : Vector.mag (Vector.static_sub goal (Agent.position a)) <> 0).
  { intros Hm. apply (proj1 (mag_zero_iff _)) in Hm.
    apply (proj1 (static_sub_zero_iff _ _)) in Hm. contradiction. }
  rewrite (mag_normalize _ Hm) in Hd.
  apply Rabs_no_R0 in Hs. lra.
Qed.

End SeekGoal.

(** C6, as the code has it.  [seekGoal] returns the desired velocity
    (the unit vector towards the goal times [maxSpeed]) minus the
    current velocity, so it is the zero vector exactly when the agent
    already moves with the desired velocity; for an agent at rest with
    [maxSpeed <> 0] that is not at the goal it is never zero. *)
Theorem C6_seekGoal_zero_iff (a : Agent.t) (goal : Vector.t) :
  (Agent.seekGoal a goal = Vector.new 0 0
   <-> Agent.velocity a = desired_velocity a goal)
  /\ (Agent.velocity a = Vector.new 0 0 -> Agent.maxSpeed a <> 0 ->
      Agent.position a <> goal -> Agent.seekGoal a goal <> Vector.new 0 0).
Proof.
  assert (Hiff : Agent.seekGoal a goal = Vector.new 0 0
                 <-> Agent.velocity a = desired_velocity a goal)
    by apply sub_zero_iff.
  split; [exact Hiff |].
  intros Hv Hs Hp Hz. apply Hiff in Hz.
  apply (desired_velocity_nonzero a goal Hs Hp). congruence.
Qed.

Lemma C6_witness :
  Agent.velocity (Agent.new 5 5 2 50 20) = Vector.new 0 0
  /\ Agent.maxSpeed (Agent.new 5 5 2 50 20) <> 0
  /\ Agent.position (Agent.new 5 5 2 50 20) <> Vector.new 8 9
  /\ Agent.seekGoal (Agent.new 5 5 2 50 20) (Vector.new 8 9) <> Vector.new 0 0.
Proof.
  assert (Hp : Agent.position (Agent.new 5 5 2 50 20) <> Vector.new 8 9).
  { simpl. intros H. injection H as Hx Hy. lra. }
  split; [reflexivity |]. split; [simpl; lra |]. split; [exact Hp |].
  apply (proj2 (C6_seekGoal_zero_iff (Agent.new 5 5 2 50 20) (Vector.new 8 9)));
    [reflexivity | simpl; lra | exact Hp].
Defined.

(** C6 fails as stated: an agent at (0, 0) that already moves towards
    the goal (10, 0) at its [maxSpeed] gets the zero steering vector
    although it is not at the goal. *)
Lemma C6_zero_steering_away_from_goal :
  Agent.seekGoal (Agent.mk (Vector.new 0 0) (Vector.new 2 0) 2 50 20 5 30)
                 (Vector.new 10 0)
  = Vector.new 0 0
  /\ Agent.position (Agent.mk (Vector.new 0 0) (Vector.new 2 0) 2 50 20 5 30)
     <> Vector.new 10 0.
Proof.
  split.
  - unfold Agent.seekGoal, Vector.normalize, Vector.static_sub; simpl.
    assert (Hm : Vector.mag (Vector.new (10 - 0) (0 - 0)) = 10).
    { unfold Vector.mag; simpl.
      replace ((10 - 0) * (10 - 0) + (0 - 0) * (0 - 0)) with (10 * 10) by lra.
      apply sqrt_square; lra. }
    rewrite Hm. unfold Vector.div. num_compare.
    unfold Vector.mult, Vector.sub; simpl. f_equal; lra.
  - simpl. intros H. injection H as Hx. lra.
Qed.

(** ** Agent.alignment *)

Section Alignment.

Lemma alignment_loop (neighbors : list Agent.t) (sum : Vector.t) (count : nat) :
  fold_left (fun acc neighbor =>
               (Vector.add (fst acc) (Agent.velocity neighbor), S (snd acc)))
            neighbors (sum, count)
  = (fold_left (fun sum neighbor => Vector.add sum (Agent.velocity neighbor))
               neighbors sum,
     (count + length neighbors)%nat).
Proof.
  revert sum count.
  induction neighbors as [| n l IH]; intros sum count; simpl.
  - now rewrite Nat.add_0_r.
  - rewrite IH. f_equal. lia.
Qed.

Lemma div_zero_vector (s : R) : Vector.div (Vector.new 0 0) s = Vector.new 0 0.
Proof.
  unfold Vector.div. destruct (num_ne s 0); [| reflexivity].
  simpl. f_equal; unfold Rdiv; ring.
Qed.

End Alignment.

(** C10. With at least one neighbour and neighbour velocities that sum
    to the zero vector, [alignment] returns the negation of the agent's
    own velocity: the zero mean goes unchanged through [div],
    [normalize] and [mult], and the velocity is subtracted from it. *)
Theorem C10_alignment_brakes_on_zero_mean (a : Agent.t) (neighbors : list Agent.t) :
  neighbors <> [] ->
  sum_velocities neighbors = Vector.new 0 0 ->
  Agent.alignment a neighbors
  = Vector.new (- Vector.x (Agent.velocity a)) (- Vector.y (Agent.velocity a)).
Proof.
  intros Hne Hsum. unfold Agent.alignment.
  rewrite alignment_loop. fold (sum_velocities neighbors). rewrite Hsum.
  cbn [fst snd].
  destruct neighbors as [| n l]; [contradiction |].
  cbn [length Nat.add Nat.ltb Nat.leb].
  rewrite div_zero_vector.
  rewrite normalize_zero_mag by now apply mag_zero_iff.
  unfold Vector.mult, Vector.sub; simpl. f_equal; ring.
Qed.

Lemma C10_witness :
  [Agent.mk (Vector.new 10 10) (Vector.new 1 0) 2 50 20 5 30;
   Agent.mk (Vector.new 20 10) (Vector.new (-1) 0) 2 50 20 5 30] <> []
  /\ sum_velocities
       [Agent.mk (Vector.new 10 10) (Vector.new 1 0) 2 50 20 5 30;
        Agent.mk (Vector.new 20 10) (Vector.new (-1) 0) 2 50 20 5 30]
     = Vector.new 0 0
  /\ Agent.alignment
       (Agent.mk (Vector.new 15 10) (Vector.new 1 1) 2 50 20 5 30)
       [Agent.mk (Vector.new 10 10) (Vector.new 1 0) 2 50 20 5 30;
        Agent.mk (Vector.new 20 10) (Vector.new (-1) 0) 2 50 20 5 30]
     = Vector.new (- 1) (- 1).
Proof.
  assert (Hs : sum_velocities
       [Agent.mk (Vector.new 10 10) (Vector.new 1 0) 2 50 20 5 30;
        Agent.mk (Vector.new 20 10) (Vector.new (-1) 0) 2 50 20 5 30]
     = Vector.new 0 0).
  { unfold sum_velocities, Vector.add; simpl. f_equal; lra. }
  split; [discriminate |]. split; [exact Hs |].
  apply (C10_alignment_brakes_on_zero_mean
           (Agent.mk (Vector.new 15 10) (Vector.new 1 1) 2 50 20 5 30));
    [discriminate | exact Hs].
Defined.

(** ** Simulation.updateGrid *)

Section UpdateGrid.

Import Simulation.

Lemma length_modify_nth {A : Type} (i : nat) (f : A -> A) (l : list A) :
  length (modify_nth i f l) = length l.
Proof.
  revert i; induction l as [| a l IH]; intros [| i]; simpl; auto.
Qed.

Lemma nth_modify_nth {A : Type} (i j : nat) (f : A -> A) (l : list A) (d : A) :
  nth j (modify_nth i f l) d
  = if (i =? j)%nat && (i <? length l)%nat then f (nth i l d) else nth j l d.
Proof.
  revert i j; induction l as [| a l IH]; intros i j.
  - simpl. rewrite andb_false_r. now destruct i, j.
  - destruct i as [| i], j as [| j]; simpl; try reflexivity.
    rewrite IH. reflexivity.
Qed.

Lemma in_grid_spec (g : Grid) (col row : Z) :
  in_grid g col row = true
  <-> (0 <= col < Z.of_nat (cols g))%Z /\ (0 <= row < Z.of_nat (rows g))%Z.
Proof.
  unfold in_grid, cols, rows.
  rewrite !andb_true_iff, !Z.leb_le, !Z.ltb_lt. tauto.
Qed.

Lemma in_cell_spec (gridSize : R) (a : Agent.t) (c r : nat) :
  in_cell gridSize a c r = true
  <-> col_of gridSize a = Z.of_nat c /\ row_of gridSize a = Z.of_nat r.
Proof.
  unfold in_cell. now rewrite andb_true_iff, !Z.eqb_eq.
Qed.

Lemma cols_push_bucket (g : Grid) (c r : nat) (a : ref) :
  cols (push_bucket g c r a) = cols g.
Proof. apply length_modify_nth. Qed.

Lemma column_push_bucket (g : Grid) (c r : nat) (a : ref) (c' : nat) :
  length (nth c' (push_bucket g c r a) []) = length (nth c' g []).
Proof.
  unfold push_bucket. rewrite nth_modify_nth.
  destruct ((c =? c')%nat && (c <? length g)%nat) eqn:E; [| reflexivity].
  apply andb_true_iff in E as [E _]. apply Nat.eqb_eq in E. subst c'.
  apply length_modify_nth.
Qed.

Lemma bucket_push_bucket (g : Grid) (c r : nat) (a : ref) (c' r' : nat) :
  (c < cols g)%nat -> (r < length (nth c g []))%nat ->
  bucket (push_bucket g c r a) c' r'
  = if (c =? c')%nat && (r =? r')%nat then bucket g c r ++ [a]
    else bucket g c' r'.
Proof.
  intros Hc Hr. unfold bucket, push_bucket.
  rewrite nth_modify_nth.
  apply Nat.ltb_lt in Hc as Hc'. unfold cols in Hc'. rewrite Hc', andb_true_r.
  destruct (c =? c')%nat eqn:Ec; [| reflexivity].
  apply Nat.eqb_eq in Ec. subst c'. rewrite nth_modify_nth.
  apply Nat.ltb_lt in Hr. rewrite Hr, andb_true_r. simpl.
  destruct (r =? r')%nat eqn:Er; [| reflexivity]. reflexivity.
Qed.

Lemma place_shape (gridSize : R) (h : Heap) (g : Grid) (a : ref) :
  cols (place gridSize h g a) = cols g
  /\ forall c, length (nth c (place gridSize h g a) []) = length (nth c g []).
Proof.
  unfold place. destruct (in_grid g _ _); [| auto].
  split; [apply cols_push_bucket | intros c; apply column_push_bucket].
Qed.

Lemma place_rectangular (gridSize : R) (h : Heap) (g : Grid) (a : ref) :
  rectangular g ->
  rectangular (place gridSize h g a)
  /\ cols (place gridSize h g a) = cols g
  /\ rows (place gridSize h g a) = rows g.
Proof.
  intros Hg. destruct (place_shape gridSize h g a) as [Hc Hl].
  split; [| split; [exact Hc | apply Hl]].
  intros c Hlt. unfold rows. rewrite !Hl. apply Hg. now rewrite <- Hc.
Qed.

Lemma place_bucket (gridSize : R) (h : Heap) (g : Grid) (a : ref) (c r : nat) :
  rectangular g -> (c < cols g)%nat -> (r < rows g)%nat ->
  bucket (place gridSize h g a) c r
  = bucket g c r ++ (if in_cell gridSize (h a) c r then [a] else []).
Proof.
  intros Hg Hc Hr. unfold place.
  destruct (in_grid g _ _) eqn:Ein.
  - apply in_grid_spec in Ein as [Hcol Hrow].
    rewrite bucket_push_bucket by (try rewrite Hg; lia).
    destruct ((Z.to_nat (col_of gridSize (h a)) =? c)%nat
              && (Z.to_nat (row_of gridSize (h a)) =? r)%nat) eqn:E.
    + apply andb_true_iff in E as [E1 E2].
      apply Nat.eqb_eq in E1, E2. subst c r.
      assert (Hcell : in_cell gridSize (h a)
                        (Z.to_nat (col_of gridSize (h a)))
                        (Z.to_nat (row_of gridSize (h a))) = true)
        by (apply in_cell_spec; lia).
      now rewrite Hcell.
    + destruct (in_cell gridSize (h a) c r) eqn:Ecell;
        [| now rewrite app_nil_r].
      apply in_cell_spec in Ecell as [E1 E2].
      apply andb_false_iff in E as [E | E]; apply Nat.eqb_neq in E; lia.
  - destruct (in_cell gridSize (h a) c r) eqn:Ecell;
      [| now rewrite app_nil_r].
    apply in_cell_spec in Ecell as [E1 E2].
    assert (in_grid g (col_of gridSize (h a)) (row_of gridSize (h a)) = true)
      by (apply in_grid_spec; lia).
    congruence.
Qed.

Lemma fill_rectangular (gridSize : R) (h : Heap) (l : list ref) (g : Grid) :
  rectangular g ->
  rectangular (fold_left (place gridSize h) l g)
  /\ cols (fold_left (place gridSize h) l g) = cols g
  /\ rows (fold_left (place gridSize h) l g) = rows g.
Proof.
  revert g; induction l as [| a l IH]; intros g Hg; simpl; [auto |].
  destruct (place_rectangular gridSize h g a Hg) as (Hp & Hc & Hr).
  destruct (IH _ Hp) as (H1 & H2 & H3).
  split; [exact H1 | split; congruence].
Qed.

Lemma fill_bucket (gridSize : R) (h : Heap) (l : list ref) (g : Grid)
      (c r : nat) :
  rectangular g -> (c < cols g)%nat -> (r < rows g)%nat ->
  bucket (fold_left (place gridSize h) l g) c r
  = bucket g c r ++ filter (fun a => in_cell gridSize (h a) c r) l.
Proof.
  revert g; induction l as [| a l IH]; intros g Hg Hc Hr; simpl.
  - now rewrite app_nil_r.
  - destruct (place_rectangular gridSize h g a Hg) as (Hp & Hpc & Hpr).
    rewrite IH by (auto; congruence).
    rewrite place_bucket by assumption.
    rewrite <- app_assoc. f_equal.
    now destruct (in_cell gridSize (h a) c r).
Qed.

Lemma clear_shape (g : Grid) :
  cols (clear g) = cols g
  /\ forall c, length (nth c (clear g) []) = length (nth c g []).
Proof.
  unfold clear, cols. split; [apply length_map |].
  intros c.
  pose proof (map_nth (map (fun _ : list ref => @nil ref)) g [] c) as Hn.
  simpl in Hn. rewrite Hn. apply length_map.
Qed.

Lemma clear_rectangular (g : Grid) :
  rectangular g ->
  rectangular (clear g) /\ cols (clear g) = cols g /\ rows (clear g) = rows g.
Proof.
  intros Hg. destruct (clear_shape g) as [Hc Hl].
  split; [| split; [exact Hc | apply Hl]].
  intros c Hlt. unfold rows. rewrite !Hl. apply Hg. now rewrite <- Hc.
Qed.

Lemma clear_bucket (g : Grid) (c r : nat) : bucket (clear g) c r = [].
Proof.
  unfold bucket, clear.
  pose proof (map_nth (map (fun _ : list ref => @nil ref)) g [] c) as Hc.
  simpl in Hc. rewrite Hc.
  exact (map_nth (fun _ : list ref => @nil ref) (nth c g []) [] r).
Qed.

Lemma bucket_outside (g : Grid) (c r : nat) :
  rectangular g -> ~ ((c < cols g)%nat /\ (r < rows g)%nat) ->
  bucket g c r = [].
Proof.
  intros Hg Hout. unfold bucket.
  destruct (Nat.lt_ge_cases c (cols g)) as [Hc | Hc].
  - apply nth_overflow. rewrite Hg by assumption. lia.
  - rewrite (nth_overflow g) by (unfold cols in Hc; lia). now destruct r.
Qed.

Lemma setupGrid_rectangular (this : t) : rectangular (grid (setupGrid this)).
Proof.
  unfold setupGrid, rectangular, cols, rows; simpl. intros c Hc.
  rewrite repeat_length in Hc.
  rewrite !nth_repeat_lt by lia. reflexivity.
Qed.

End UpdateGrid.


(** ** Simulation.getNeighbors *)

Section GetNeighbors.

Import Simulation.

Lemma for_of_app {A B : Type} (body : B -> A -> Loop A) (l1 l2 : list B)
      (acc : A) :
  for_of body (l1 ++ l2) acc
  = match for_of body l1 acc with
    | Continue acc' => for_of body l2 acc'
    | Return r => Return r
    end.
Proof.
  revert acc; induction l1 as [| b l1 IH]; intros acc; simpl; [reflexivity |].
  destruct (body b acc); [apply IH | reflexivity].
Qed.

(** Nested loops that share their early [return] scan the concatenation. *)
Lemma for_of_flat_map {A B C : Type} (body : C -> A -> Loop A)
      (inner : B -> list C) (l : list B) (acc : A) :
  for_of (fun b => for_of body (inner b)) l acc
  = for_of body (flat_map inner l) acc.
Proof.
  revert acc; induction l as [| b l IH]; intros acc; simpl; [reflexivity |].
  rewrite for_of_app.
  destruct (for_of body (inner b) acc); [apply IH | reflexivity].
Qed.

Lemma for_of_ext {A B : Type} (f g : B -> A -> Loop A) (l : list B) (acc : A) :
  (forall b a, f b a = g b a) -> for_of f l acc = for_of g l acc.
Proof.
  intros H. revert acc; induction l as [| b l IH]; intros acc; simpl;
    [reflexivity |].
  rewrite H. destruct (g b acc); [apply IH | reflexivity].
Qed.

Lemma getNeighbors_loops_scanned (g : Grid) (gridSize : R) (h : Heap)
      (agent : ref) :
  getNeighbors_loops g gridSize h agent
  = for_of (visit h agent) (scanned g gridSize (h agent)) [].
Proof.
  unfold getNeighbors_loops, scanned.
  rewrite <- for_of_flat_map. apply for_of_ext. intros i acc.
  rewrite <- for_of_flat_map. apply for_of_ext. intros j acc'.
  now destruct (in_grid g _ _).
Qed.

(** The innermost loop collects the matches in order and returns as
    soon as it holds ten of them. *)
Lemma for_of_visit (h : Heap) (agent : ref) (l : list ref) (acc : list ref) :
  (length acc < 10)%nat ->
  for_of (visit h agent) l acc
  = let found := acc ++ filter (is_neighbor h agent) l in
    if (length found <? 10)%nat then Continue found
    else Return (firstn 10 found).
Proof.
  revert acc; induction l as [| o l IH]; intros acc Hlen; cbn zeta.
  - cbn [for_of filter]. rewrite app_nil_r.
    apply Nat.ltb_lt in Hlen. now rewrite Hlen.
  - cbn [for_of filter]. unfold visit at 1.
    destruct (is_neighbor h agent o) eqn:Hn.
    + destruct (10 <=? length (acc ++ [o]))%nat eqn:Hfull.
      * apply Nat.leb_le in Hfull. rewrite length_app in Hfull; simpl in Hfull.
        assert (Hten : length (acc ++ [o]) = 10%nat)
          by (rewrite length_app; simpl; lia).
        replace (acc ++ o :: filter (is_neighbor h agent) l)
          with ((acc ++ [o]) ++ filter (is_neighbor h agent) l)
          by now rewrite <- app_assoc.
        assert (Hge : (length ((acc ++ [o]) ++ filter (is_neighbor h agent) l)
                       <? 10)%nat = false)
          by (apply Nat.ltb_ge; rewrite length_app; lia).
        rewrite Hge. f_equal.
        rewrite firstn_app, Hten, Nat.sub_diag, firstn_O, app_nil_r.
        symmetry. apply firstn_all2. lia.
      * apply Nat.leb_gt in Hfull. rewrite IH by exact Hfull. cbn zeta.
        now rewrite <- app_assoc.
    + now rewrite IH by exact Hlen.
Qed.

Lemma is_neighbor_spec (h : Heap) (agent other : ref) :
  is_neighbor h agent other = true
  <-> other <> agent
      /\ Vector.dist (Agent.position (h agent)) (Agent.position (h other))
         < Agent.perceptionRadius (h agent).
Proof.
  unfold is_neighbor.
  rewrite andb_true_iff, negb_true_iff, Nat.eqb_neq, num_lt_true. tauto.
Qed.

Lemma in_firstn {A : Type} (n : nat) (l : list A) (x : A) :
  In x (firstn n l) -> In x l.
Proof.
  revert l; induction n as [| n IH]; intros [| a l]; simpl; try tauto.
  intros [-> | H]; [now left | right; now apply IH].
Qed.

Lemma getNeighbors_firstn (g : Grid) (gridSize : R) (h : Heap) (agent : ref) :
  getNeighbors g gridSize h agent
  = firstn 10 (filter (is_neighbor h agent) (scanned g gridSize (h agent))).
Proof.
  unfold getNeighbors. rewrite getNeighbors_loops_scanned.
  rewrite for_of_visit by (simpl; lia). cbn zeta. rewrite app_nil_l.
  destruct (length _ <? 10)%nat eqn:E; cbn [loop_value]; [| reflexivity].
  apply Nat.ltb_lt in E. symmetry. apply firstn_all2. lia.
Qed.

End GetNeighbors.

(** C5. [getNeighbors] returns at most 10 agents; each is another
    object than the querying agent and lies at Euclidean distance
    strictly below the querying agent's [perceptionRadius]; the result
    is the first 10 matches in scan order; and the loops run to their
    end only while fewer than 10 matches exist, otherwise they end
    through the early [return] with the first 10.  The cell size is
    positive, as the constructor sets it. *)
Theorem C5_getNeighbors_at_most_ten_in_radius
        (g : Simulation.Grid) (gridSize : R) (h : Heap) (agent : ref) :
  0 < gridSize ->
  let neighbors := Simulation.getNeighbors g gridSize h agent in
  let matches :=
    filter (Simulation.is_neighbor h agent) (scanned g gridSize (h agent)) in
  (length neighbors <= 10)%nat
  /\ (forall other, In other neighbors ->
        other <> agent
        /\ Vector.dist (Agent.position (h agent)) (Agent.position (h other))
           < Agent.perceptionRadius (h agent))
  /\ neighbors = firstn 10 matches
  /\ Simulation.getNeighbors_loops g gridSize h agent
     = if (length matches <? 10)%nat then Continue matches
       else Return (firstn 10 matches).
Proof.
  intros _ neighbors matches.
  assert (E : neighbors = firstn 10 matches) by apply getNeighbors_firstn.
  split; [rewrite E; apply firstn_le_length |].
  split; [| split; [exact E |]].
  - intros other Hin. rewrite E in Hin. apply in_firstn in Hin.
    apply filter_In in Hin as [_ Hin]. now apply is_neighbor_spec.
  - rewrite getNeighbors_loops_scanned.
    rewrite for_of_visit by (simpl; lia). cbn zeta. now rewrite app_nil_l.
Qed.

(** ** The loop of Simulation.update *)

Section Sweep.

Import Simulation.

Variables (e : Environment.t) (p : Params) (g : Grid) (gridSize : R).

Lemma splice1_middle {A : Type} (pre suf : list A) (a : A) :
  splice1 (length pre) (pre ++ a :: suf) = pre ++ suf.
Proof.
  induction pre as [| x pre IH]; [reflexivity |].
  unfold splice1 in *. cbn [length app firstn skipn] in *. now rewrite IH.
Qed.

Lemma nth_error_middle {A : Type} (pre suf : list A) (a : A) :
  nth_error (pre ++ a :: suf) (length pre) = Some a.
Proof.
  rewrite nth_error_app2 by lia. now rewrite Nat.sub_diag.
Qed.

(** The descending loop with its [splice] is a right fold over the
    array: the last agent is processed first, and an agent that reaches
    the exit is dropped from the part already processed. *)
Lemma sweep_fold_right (pre suf : list ref) (h : Heap) (ts : R) (j : nat) :
  sweep e p g gridSize (length pre) (mkSweep (pre ++ suf) h ts j)
  = fold_right (iteration e p g gridSize) (mkSweep suf h ts j) pre.
Proof.
  revert suf h ts j.
  induction pre as [| a pre IH] using rev_ind; intros suf h ts j;
    [reflexivity |].
  rewrite fold_right_app, length_app, Nat.add_comm. cbn [length Nat.add sweep].
  rewrite <- app_assoc. cbn [app].
  unfold sweep_body. cbn [sw_agents sw_heap totalSpeed jamThisFrame].
  rewrite nth_error_middle, splice1_middle.
  cbn [fold_right]. unfold iteration at 2, agent_after.
  cbn [sw_agents sw_heap totalSpeed jamThisFrame].
  destruct (Environment.isAtExit_default e _); apply IH.
Qed.

Lemma sweep_all (l : list ref) (h : Heap) :
  sweep e p g gridSize (length l) (mkSweep l h 0 0%nat)
  = fold_right (iteration e p g gridSize) (mkSweep [] h 0 0%nat) l.
Proof.
  rewrite <- (sweep_fold_right l [] h 0 0%nat). now rewrite app_nil_r.
Qed.

Lemma store_same (h : Heap) (r : ref) (a : Agent.t) : store h r a r = a.
Proof. unfold store. now rewrite Nat.eqb_refl. Qed.

Lemma store_other (h : Heap) (r r' : ref) (a : Agent.t) :
  r' <> r -> store h r a r' = h r'.
Proof.
  intros Hne. unfold store. apply Nat.eqb_neq in Hne. now rewrite Hne.
Qed.

(** An iteration writes to its own agent only. *)
Lemma fold_heap_untouched (l : list ref) (init : Sweep) (r : ref) :
  ~ In r l -> sw_heap (fold_right (iteration e p g gridSize) init l) r = sw_heap init r.
Proof.
  induction l as [| a l IH]; intros Hnin; [reflexivity |].
  cbn [fold_right iteration sw_heap].
  rewrite store_other by (intros ->; apply Hnin; now left).
  apply IH. intros Hin. apply Hnin. now right.
Qed.

Lemma fold_agents_incl (l : list ref) (init : Sweep) (r : ref) :
  In r (sw_agents (fold_right (iteration e p g gridSize) init l)) ->
  In r l \/ In r (sw_agents init).
Proof.
  induction l as [| a l IH]; [now right |].
  cbn [fold_right iteration sw_agents].
  destruct (Environment.isAtExit_default e _).
  - intros Hin. destruct (IH Hin); [left; now right | now right].
  - intros [-> | Hin]; [left; now left |].
    destruct (IH Hin); [left; now right | now right].
Qed.

Lemma fold_agents_NoDup (l : list ref) (h : Heap) (ts : R) (j : nat) :
  NoDup l -> NoDup (sw_agents (fold_right (iteration e p g gridSize) (mkSweep [] h ts j) l)).
Proof.
  induction l as [| a l IH]; intros Hnd; [constructor |].
  inversion Hnd as [| ? ? Hnin Hnd']; subst.
  cbn [fold_right iteration sw_agents].
  destruct (Environment.isAtExit_default e _); [now apply IH |].
  constructor; [| now apply IH].
  intros Hin. apply fold_agents_incl in Hin as [Hin | []]. contradiction.
Qed.

(** The agent of an iteration, once the loop is over, is still as the
    iteration left it. *)
Lemma fold_heap_head (a : ref) (l : list ref) (init : Sweep) :
  sw_heap (fold_right (iteration e p g gridSize) init (a :: l)) a
  = agent_after e p g gridSize (sw_heap (fold_right (iteration e p g gridSize) init l)) a.
Proof. cbn [fold_right iteration sw_heap]. apply store_same. Qed.

(** [totalSpeed] adds up the speed of every agent the loop went over,
    the removed ones included. *)
Lemma fold_totalSpeed (l : list ref) (init : Sweep) :
  NoDup l ->
  totalSpeed (fold_right (iteration e p g gridSize) init l)
  = totalSpeed init
    + sum_list (map (speed_of (sw_heap (fold_right (iteration e p g gridSize) init l))) l).
Proof.
  induction l as [| a l IH]; intros Hnd; [simpl; lra |].
  inversion Hnd as [| ? ? Hnin Hnd']; subst.
  cbn [map sum_list]. unfold speed_of at 1. rewrite fold_heap_head.
  cbn [fold_right iteration totalSpeed sw_heap].
  rewrite (IH Hnd').
  assert (Hm : map (speed_of (store (sw_heap (fold_right (iteration e p g gridSize) init l)) a
                       (agent_after e p g gridSize (sw_heap (fold_right (iteration e p g gridSize) init l)) a)))
                   l
               = map (speed_of (sw_heap (fold_right (iteration e p g gridSize) init l))) l).
  { apply map_ext_in. intros r Hr. unfold speed_of.
    rewrite store_other; [reflexivity |]. intros ->. contradiction. }
  rewrite Hm. lra.
Qed.

End Sweep.

(** ** Simulation.update *)

Section Update.

Import Simulation.

Lemma update_swept (now : R) (this : t) :
  agents (fst (update now this)) = sw_agents (swept this)
  /\ heap (fst (update now this)) = sw_heap (swept this)
  /\ averageSpeed (fst (update now this))
     = Some (if (0 <? length (sw_agents (swept this)))%nat
             then totalSpeed (swept this)
                  / INR (length (sw_agents (swept this)))
             else 0).
Proof.
  unfold update, swept. cbn [fst].
  cbn [agents heap averageSpeed set_stats set_agents set_frame updateGrid
       set_grid env params grid gridSize].
  rewrite sweep_all. auto.
Qed.

Lemma applyForce_fields (a : Agent.t) (f : Vector.t) :
  Agent.position (Agent.applyForce a f) = Agent.position a
  /\ Agent.maxSpeed (Agent.applyForce a f) = Agent.maxSpeed a.
Proof. now split. Qed.

Lemma agent_after_speed (e : Environment.t) (p : Params) (g : Grid)
      (gs : R) (h : Heap) (r : ref) :
  0 <= Agent.maxSpeed (h r) ->
  Vector.mag (Agent.velocity (agent_after e p g gs h r)) <= Agent.maxSpeed (h r).
Proof.
  intros Hs. unfold agent_after.
  exact (update_speed_bound e (Agent.applyForce (h r) _) Hs).
Qed.

Lemma agent_after_position (e : Environment.t) (p : Params) (g : Grid)
      (gs : R) (h : Heap) (r : ref) :
  Agent.position (agent_after e p g gs h r)
  = Vector.static_add (Agent.position (h r))
                      (Agent.velocity (agent_after e p g gs h r)).
Proof. unfold agent_after. now rewrite update_position. Qed.

(** One step from the exit's centre ends within the arrival threshold. *)
Lemma agent_after_at_exit (e : Environment.t) (p : Params) (g : Grid)
      (gs : R) (h : Heap) (r : ref) :
  Agent.position (h r) = Environment.exitCenter e ->
  0 <= Agent.maxSpeed (h r) < 10 ->
  Environment.isAtExit_default e (Agent.position (agent_after e p g gs h r))
  = true.
Proof.
  intros Hpos [Hlo Hhi].
  unfold Environment.isAtExit_default, Environment.isAtExit.
  apply num_lt_true.
  rewrite agent_after_position, <- Hpos, dist_static_add.
  pose proof (agent_after_speed e p g gs h r Hlo). lra.
Qed.

Lemma fold_removes_at_exit (e : Environment.t) (p : Params) (g : Grid)
      (gs : R) (l : list ref) (h : Heap) (ts : R) (j : nat) (a : ref) :
  NoDup l -> In a l ->
  Agent.position (h a) = Environment.exitCenter e ->
  0 <= Agent.maxSpeed (h a) < 10 ->
  ~ In a (sw_agents (fold_right (iteration e p g gs) (mkSweep [] h ts j) l)).
Proof.
  intros Hnd Hin Hpos Hs.
  induction l as [| b l IH]; [contradiction |].
  inversion Hnd as [| ? ? Hnin Hnd']; subst.
  cbn [fold_right iteration sw_agents].
  destruct (Nat.eq_dec a b) as [-> | Hne].
  - assert (Hh : sw_heap (fold_right (iteration e p g gs) (mkSweep [] h ts j) l) b
                 = h b) by now apply fold_heap_untouched.
    rewrite agent_after_at_exit by (rewrite Hh; assumption).
    intros Hin'. apply fold_agents_incl in Hin' as [Hin' | []]. contradiction.
  - destruct Hin as [-> | Hin]; [contradiction |].
    specialize (IH Hnd' Hin).
    destruct (Environment.isAtExit_default e _); [exact IH |].
    intros [-> | Hin']; contradiction.
Qed.

End Update.

(** C3. An agent whose position is the exact centre of the exit
    rectangle is not in the active set after one call of
    [Simulation.update]: its step is at most [maxSpeed] long, which is
    below the arrival threshold 10 (the agents of [initAgents] have
    [maxSpeed = 2]), so [isAtExit] holds and it is spliced out.  This
    holds in every environment, the default layout included, given that
    the entries of [this.agents] are distinct objects. *)
Theorem C3_agent_at_exit_center_removed
        (now : R) (this : Simulation.t) (a : ref) :
  NoDup (Simulation.agents this) ->
  In a (Simulation.agents this) ->
  Agent.position (Simulation.heap this a)
  = Environment.exitCenter (Simulation.env this) ->
  0 <= Agent.maxSpeed (Simulation.heap this a) < 10 ->
  ~ In a (Simulation.agents (fst (Simulation.update now this))).
Proof.
  intros Hnd Hin Hpos Hs.
  destruct (update_swept now this) as (-> & _ & _).
  unfold swept. apply fold_removes_at_exit; assumption.
Qed.

(** ** The default layout, away from its walls *)

Section Corridor.

Import Simulation.

Lemma abs_dx_le_dist (p q : Vector.t) :
  Rabs (Vector.x p - Vector.x q) <= Vector.dist p q.
Proof.
  unfold Vector.dist. cbn zeta.
  rewrite <- (sqrt_Rsqr_abs (Vector.x p - Vector.x q)).
  apply sqrt_le_1_alt. unfold Rsqr.
  pose proof (Rle_0_sqr (Vector.y p - Vector.y q)) as H. unfold Rsqr in H. lra.
Qed.

Lemma abs_dy_le_dist (p q : Vector.t) :
  Rabs (Vector.y p - Vector.y q) <= Vector.dist p q.
Proof.
  unfold Vector.dist. cbn zeta.
  rewrite <- (sqrt_Rsqr_abs (Vector.y p - Vector.y q)).
  apply sqrt_le_1_alt. unfold Rsqr.
  pose proof (Rle_0_sqr (Vector.x p - Vector.x q)) as H. unfold Rsqr in H. lra.
Qed.

Lemma repel_far (a : Agent.t) (cutoff : R) (acc : Vector.t * nat)
      (point : Vector.t) :
  cutoff <= Vector.dist (Agent.position a) point ->
  Agent.repel a cutoff acc point = acc.
Proof.
  intros Hfar. unfold Agent.repel.
  apply num_lt_false in Hfar. now rewrite Hfar, andb_false_r.
Qed.

Lemma steer_finish_zero (a : Agent.t) :
  Agent.steer_finish a (Vector.new 0 0) 0 = Vector.new 0 0.
Proof.
  unfold Agent.steer_finish. cbn [Nat.ltb Nat.leb].
  assert (Hm : Vector.mag (Vector.new 0 0) = 0) by now apply mag_zero_iff.
  rewrite Hm. assert (Hg : num_gt 0 0 = false) by (apply num_gt_false; lra).
  now rewrite Hg.
Qed.

Lemma separation_nil (a : Agent.t) : Agent.separation a [] = Vector.new 0 0.
Proof. apply steer_finish_zero. Qed.

Lemma alignment_nil (a : Agent.t) : Agent.alignment a [] = Vector.new 0 0.
Proof. reflexivity. Qed.

Lemma cohesion_nil (a : Agent.t) : Agent.cohesion a [] = Vector.new 0 0.
Proof. reflexivity. Qed.

Lemma in_bucket_push (g : Grid) (c r : nat) (a x : ref) (c' r' : nat) :
  In x (bucket (push_bucket g c r a) c' r') ->
  x = a \/ In x (bucket g c' r').
Proof.
  unfold bucket, push_bucket. rewrite nth_modify_nth.
  destruct ((c =? c')%nat && (c <? length g)%nat) eqn:Ec; [| now right].
  apply andb_true_iff in Ec as [Ec _]. apply Nat.eqb_eq in Ec. subst c'.
  rewrite nth_modify_nth.
  destruct ((r =? r')%nat && (r <? length (nth c g []))%nat) eqn:Er;
    [| now right].
  apply andb_true_iff in Er as [Er _]. apply Nat.eqb_eq in Er. subst r'.
  intros Hin. apply in_app_or in Hin as [Hin | [-> | []]]; auto.
Qed.

Lemma in_bucket_fill (gs : R) (h : Heap) (l : list ref) (g : Grid)
      (x : ref) (c r : nat) :
  In x (bucket (fold_left (place gs h) l g) c r) ->
  In x l \/ In x (bucket g c r).
Proof.
  revert g; induction l as [| a l IH]; intros g; cbn [fold_left]; [now right |].
  intros Hin. apply IH in Hin as [Hin | Hin]; [left; now right |].
  unfold place in Hin. destruct (in_grid g _ _); [| now right].
  apply in_bucket_push in Hin as [-> | Hin]; [left; now left | now right].
Qed.

Lemma in_bucket_updateGrid (this : t) (x : ref) (c r : nat) :
  In x (bucket (grid (updateGrid this)) c r) -> In x (agents this).
Proof.
  unfold updateGrid. cbn [grid set_grid]. intros Hin.
  apply in_bucket_fill in Hin as [Hin | Hin]; [exact Hin |].
  now rewrite clear_bucket in Hin.
Qed.

Lemma in_scanned (g : Grid) (gs : R) (a : Agent.t) (x : ref) :
  In x (scanned g gs a) -> exists c r, In x (bucket g c r).
Proof.
  unfold scanned. cbn zeta. intros Hin.
  apply in_flat_map in Hin as (i & _ & Hin).
  apply in_flat_map in Hin as (j & _ & Hin).
  destruct (in_grid g _ _); [| contradiction]. eauto.
Qed.

Lemma getNeighbors_none (g : Grid) (gs : R) (h : Heap) (a : ref) :
  (forall x c r, In x (bucket g c r) -> is_neighbor h a x = false) ->
  getNeighbors g gs h a = [].
Proof.
  intros Hnone. rewrite getNeighbors_firstn.
  assert (Hf : filter (is_neighbor h a) (scanned g gs (h a)) = []).
  { destruct (filter _ _) as [| x l] eqn:E; [reflexivity |].
    assert (Hin : In x (filter (is_neighbor h a) (scanned g gs (h a))))
      by (rewrite E; now left).
    apply filter_In in Hin as [Hin Hn].
    apply in_scanned in Hin as (c & r & Hin).
    rewrite (Hnone _ _ _ Hin) in Hn. discriminate. }
  now rewrite Hf.
Qed.

Ltac clamp_cases :=
  unfold Agent.closestPoint, Rmax, Rmin; cbn [Vector.x Vector.y Rect.x Rect.y Rect.w Rect.h];
  repeat match goal with
         | |- context [Rle_dec ?a ?b] => destruct (Rle_dec a b)
         end;
  unfold Rabs;
  repeat match goal with
         | |- context [Rcase_abs ?a] => destruct (Rcase_abs a)
         end;
  lra.

Ltac far_by_x :=
  eapply Rle_trans; [| apply abs_dx_le_dist]; clamp_cases.

Ltac far_by_y :=
  eapply Rle_trans; [| apply abs_dy_le_dist]; clamp_cases.

Lemma wallAvoidance_corridor (a : Agent.t) :
  Agent.wallPerceptionRadius a <= 30 ->
  350 <= Vector.x (Agent.position a) ->
  50 <= Vector.y (Agent.position a) <= 550 ->
  Agent.wallAvoidance a (Environment.new 800 600) = Vector.new 0 0.
Proof.
  intros Hr Hx Hy. unfold Agent.wallAvoidance.
  cbn [Environment.new Environment.setupEnvironment Environment.push_wall
       Environment.push_zone Environment.walls Environment.restrictedZones
       Environment.width Environment.height app fold_left].
  rewrite (repel_far a _ _ (Agent.closestPoint a (Rect.mk 0 0 800 20)))
    by far_by_y.
  rewrite (repel_far a _ _ (Agent.closestPoint a (Rect.mk 0 (600 - 20) 800 20)))
    by far_by_y.
  rewrite (repel_far a _ _ (Agent.closestPoint a (Rect.mk 0 0 20 600)))
    by far_by_x.
  rewrite (repel_far a _ _ (Agent.closestPoint a (Rect.mk 300 100 20 200)))
    by far_by_x.
  rewrite (repel_far a _ _ (Agent.closestPoint a (Rect.mk 300 400 20 200)))
    by far_by_x.
  rewrite (repel_far a _ _ (Agent.closestPoint a (Rect.mk 100 100 100 100)))
    by far_by_x.
  apply steer_finish_zero.
Qed.

Lemma valid_corridor (x y : R) :
  326 <= x <= 800 -> 26 <= y <= 574 ->
  Environment.isPositionValid (Environment.new 800 600) (Vector.new x y) = true.
Proof.
  intros Hx Hy. unfold Environment.isPositionValid.
  cbn [Environment.new Environment.setupEnvironment Environment.push_wall
       Environment.push_zone Environment.walls Environment.restrictedZones
       Environment.width Environment.height app existsb].
  unfold Environment.rectIntersect, Environment.out_of_bounds,
    Environment.agentRect.
  cbn [Vector.x Vector.y Rect.x Rect.y Rect.w Rect.h Environment.width
       Environment.height].
  num_compare. reflexivity.
Qed.

Lemma mag_along_x (x : R) : 0 <= x -> Vector.mag (Vector.new x 0) = x.
Proof.
  intros Hx. unfold Vector.mag; cbn [Vector.x Vector.y].
  replace (x * x + 0 * 0) with (x * x) by lra. now apply sqrt_square.
Qed.

Lemma normalize_along_x (x : R) :
  0 < x -> Vector.normalize (Vector.new x 0) = Vector.new 1 0.
Proof.
  intros Hx. unfold Vector.normalize. rewrite mag_along_x by lra.
  unfold Vector.div. num_compare. cbn [Vector.x Vector.y].
  f_equal; field; lra.
Qed.

Lemma limit_along_x (x max : R) :
  0 < max <= x -> Vector.limit (Vector.new x 0) max = Vector.new max 0.
Proof.
  intros [Hm Hx]. unfold Vector.limit. rewrite mag_along_x by lra.
  destruct (num_gt x max) eqn:E.
  - rewrite normalize_along_x by lra. unfold Vector.mult; simpl.
    f_equal; lra.
  - apply num_gt_false in E. f_equal. lra.
Qed.

(** An agent of the scene's kind on the line [y = 300] of the corridor,
    heading for the exit with nobody around: after its iteration it
    moves at full speed along the line. *)
Lemma corridor_step (g : Grid) (gs : R) (h : Heap) (r : ref) (x vx : R) :
  h r = Agent.mk (Vector.new x 300) (Vector.new vx 0) 2 50 20 5 30 ->
  350 <= x <= 770 -> 0 <= vx <= 2 ->
  getNeighbors g gs h r = [] ->
  agent_after (Environment.new 800 600) scene_params g gs h r
  = Agent.mk (Vector.new (x + 2) 300) (Vector.new 2 0) 2 50 20 5 30.
Proof.
  intros Hr Hx Hv Hn. unfold agent_after. rewrite Hn, Hr. cbn [map].
  unfold combined_force.
  rewrite separation_nil, alignment_nil, cohesion_nil.
  rewrite wallAvoidance_corridor by (cbn; lra).
  assert (Hseek :
    Agent.seekGoal
      (Agent.mk (Vector.new x 300) (Vector.new vx 0) 2 50 20 5 30)
      (Vector.new
         (Rect.x (Environment.exit (Environment.new 800 600))
          + Rect.w (Environment.exit (Environment.new 800 600)) / 2)
         (Rect.y (Environment.exit (Environment.new 800 600))
          + Rect.h (Environment.exit (Environment.new 800 600)) / 2))
    = Vector.new (2 - vx) 0).
  { unfold Agent.seekGoal. cbn [Agent.position Agent.velocity Agent.maxSpeed].
    assert (Hd : Vector.static_sub
                   (Vector.new
                      (Rect.x (Environment.exit (Environment.new 800 600))
                       + Rect.w (Environment.exit (Environment.new 800 600)) / 2)
                      (Rect.y (Environment.exit (Environment.new 800 600))
                       + Rect.h (Environment.exit (Environment.new 800 600)) / 2))
                   (Vector.new x 300)
                 = Vector.new (775 - x) 0).
    { unfold Vector.static_sub. cbn. f_equal; lra. }
    rewrite Hd, normalize_along_x by lra.
    unfold Vector.mult, Vector.sub. cbn. f_equal; lra. }
  rewrite Hseek.
  assert (Hforce :
    Vector.add
      (Vector.add
         (Vector.add
            (Vector.add
               (Vector.add (Vector.new 0 0)
                  (Vector.mult (Vector.new 0 0) (separationWeight scene_params)))
               (Vector.mult (Vector.new 0 0) (alignmentWeight scene_params)))
            (Vector.mult (Vector.new 0 0) (cohesionWeight scene_params)))
         (Vector.mult (Vector.new (2 - vx) 0) (goalWeight scene_params)))
      (Vector.mult (Vector.new 0 0) 1.5)
    = Vector.new ((2 - vx) * 1.2) 0).
  { unfold Vector.add, Vector.mult. cbn. f_equal; lra. }
  rewrite Hforce.
  unfold Agent.update, Agent.applyForce.
  cbn [Agent.set_velocity Agent.set_position Agent.velocity Agent.position
       Agent.maxSpeed Agent.perceptionRadius Agent.desiredSeparation
       Agent.radius Agent.wallPerceptionRadius].
  assert (Hvel : Vector.add (Vector.new vx 0) (Vector.new ((2 - vx) * 1.2) 0)
                 = Vector.new (vx + (2 - vx) * 1.2) 0).
  { unfold Vector.add. cbn. f_equal; lra. }
  rewrite Hvel, limit_along_x by lra.
  assert (Hnext : Vector.static_add (Vector.new x 300) (Vector.new 2 0)
                  = Vector.new (x + 2) 300).
  { unfold Vector.static_add. cbn. f_equal; lra. }
  rewrite Hnext, valid_corridor by lra.
  reflexivity.
Qed.

Lemma not_neighbor_far (h : Heap) (a o : ref) :
  Agent.perceptionRadius (h a)
  <= Rabs (Vector.x (Agent.position (h a)) - Vector.x (Agent.position (h o))) ->
  is_neighbor h a o = false.
Proof.
  intros Hfar. unfold is_neighbor. apply andb_false_iff. right.
  apply num_lt_false. eapply Rle_trans; [exact Hfar | apply abs_dx_le_dist].
Qed.

Lemma not_neighbor_self (h : Heap) (a : ref) : is_neighbor h a a = false.
Proof. unfold is_neighbor. now rewrite Nat.eqb_refl. Qed.

Lemma scene_neighbors_none (h : Heap) (a : ref) :
  (forall o, In o [0%nat; 1%nat] -> is_neighbor h a o = false) ->
  getNeighbors (grid (updateGrid scene)) 50 h a = [].
Proof.
  intros Hnone. apply getNeighbors_none. intros x c r Hin.
  apply in_bucket_updateGrid in Hin. now apply Hnone.
Qed.

Lemma scene_swept :
  swept scene
  = mkSweep [1%nat]
            (store (store scene_heap 1%nat stander_after) 0%nat walker_after)
            (0 + 2 + 2) 0%nat.
Proof.
  unfold swept.
  change (agents scene) with [0%nat; 1%nat].
  change (env scene) with (Environment.new 800 600).
  change (params scene) with scene_params.
  change (gridSize scene) with 50.
  change (heap scene) with scene_heap.
  cbn [fold_right].
  (* agent 1, the last of the array, goes first *)
  assert (H1 : agent_after (Environment.new 800 600) scene_params
                 (grid (updateGrid scene)) 50 scene_heap 1%nat
               = stander_after).
  { apply (corridor_step _ _ _ _ 400 0); [reflexivity | lra | lra |].
    apply scene_neighbors_none. intros o [<- | [<- | []]].
    - apply not_neighbor_far. cbn. unfold Rabs.
      destruct (Rcase_abs _); lra.
    - apply not_neighbor_self. }
  unfold iteration at 2. cbn [sw_heap sw_agents totalSpeed jamThisFrame].
  rewrite H1.
  assert (E1 : Environment.isAtExit_default (Environment.new 800 600)
                 (Agent.position stander_after) = false).
  { apply num_lt_false. eapply Rle_trans; [| apply abs_dx_le_dist].
    cbn. unfold Rabs. destruct (Rcase_abs _); lra. }
  rewrite E1.
  assert (M : Vector.mag (Vector.new 2 0) = 2) by (apply mag_along_x; lra).
  change (Agent.velocity stander_after) with (Vector.new 2 0).
  rewrite M.
  assert (J : num_lt 2 0.5 = false) by (apply num_lt_false; lra).
  rewrite J.
  (* agent 0 sees agent 1 where its iteration left it *)
  assert (H0 : agent_after (Environment.new 800 600) scene_params
                 (grid (updateGrid scene)) 50
                 (store scene_heap 1%nat stander_after) 0%nat
               = walker_after).
  { apply (corridor_step _ _ _ _ 764 2); [reflexivity | lra | lra |].
    apply scene_neighbors_none. intros o [<- | [<- | []]].
    - apply not_neighbor_self.
    - apply not_neighbor_far. cbn. unfold Rabs.
      destruct (Rcase_abs _); lra. }
  unfold iteration. cbn [sw_heap sw_agents totalSpeed jamThisFrame].
  rewrite H0.
  assert (E0 : Environment.isAtExit_default (Environment.new 800 600)
                 (Agent.position walker_after) = true).
  { apply num_lt_true. unfold Vector.dist. cbn.
    replace ((764 + 2 - (800 - 50 + 50 / 2)) * (764 + 2 - (800 - 50 + 50 / 2))
             + (300 - (600 / 2 - 25 + 50 / 2)) * (300 - (600 / 2 - 25 + 50 / 2)))
      with (9 * 9) by lra.
    rewrite sqrt_square; lra. }
  rewrite E0.
  change (Agent.velocity walker_after) with (Vector.new 2 0).
  rewrite M, J. reflexivity.
Qed.

End Corridor.

(** ** The average speed *)

Section AverageSpeed.

Import Simulation.

(** What [update] stores in [averageSpeed]: the speeds of all agents
    that were active when the frame began, divided by the number of
    agents left when it ends. *)
Lemma update_averageSpeed (now : R) (this : t) :
  NoDup (agents this) ->
  let after := fst (update now this) in
  averageSpeed after
  = Some (if (0 <? length (agents after))%nat
          then sum_list (map (speed_of (heap after)) (agents this))
               / INR (length (agents after))
          else 0).
Proof.
  intros Hnd after.
  destruct (update_swept now this) as (Ha & Hh & Hv).
  unfold after. rewrite Hv, Ha, Hh. unfold swept.
  rewrite fold_totalSpeed by exact Hnd.
  cbn [totalSpeed]. now rewrite Rplus_0_l.
Qed.

End AverageSpeed.

(** C7, on the scene with two agents.  Agent 0 reaches the exit in this
    frame and is removed, agent 1 remains and moves at speed 2; the mean
    speed of the remaining agents is 2, but [averageSpeed] is 4: the
    removed agent's speed is in [totalSpeed] while the divisor counts
    only the agents left. *)
Theorem C7_averageSpeed_counts_removed_agent (now : R) :
  let after := fst (Simulation.update now scene) in
  Simulation.agents after = [1%nat]
  /\ speed_of (Simulation.heap after) 1%nat = 2
  /\ mean_speed after = 2
  /\ Simulation.averageSpeed after = Some 4.
Proof.
  intros after.
  destruct (update_swept now scene) as (Ha & Hh & Hv).
  fold after in Ha, Hh, Hv. rewrite scene_swept in Ha, Hh, Hv.
  cbn [Simulation.sw_agents Simulation.sw_heap Simulation.totalSpeed
       length Nat.ltb Nat.leb] in Ha, Hh, Hv.
  assert (Hs : speed_of (Simulation.heap after) 1%nat = 2).
  { rewrite Hh. unfold speed_of.
    change (Vector.mag (Vector.new 2 0) = 2). apply mag_along_x. lra. }
  split; [exact Ha |]. split; [exact Hs |]. split.
  - unfold mean_speed. rewrite Ha. cbn [map sum_list length].
    rewrite Hs. simpl. field.
  - rewrite Hv. f_equal. simpl. field.
Qed.

Lemma C3_witness :
  NoDup (Simulation.agents arrival_scene)
  /\ In 0%nat (Simulation.agents arrival_scene)
  /\ Agent.position (Simulation.heap arrival_scene 0%nat)
     = Environment.exitCenter (Simulation.env arrival_scene)
  /\ 0 <= Agent.maxSpeed (Simulation.heap arrival_scene 0%nat) < 10
  /\ ~ In 0%nat (Simulation.agents (fst (Simulation.update 16 arrival_scene))).
Proof.
  assert (Hnd : NoDup (Simulation.agents arrival_scene)).
  { cbn. repeat constructor; simpl; intuition discriminate. }
  assert (Hin : In 0%nat (Simulation.agents arrival_scene)) by (cbn; auto).
  assert (Hpos : Agent.position (Simulation.heap arrival_scene 0%nat)
                 = Environment.exitCenter (Simulation.env arrival_scene)).
  { cbn. unfold Environment.exitCenter. cbn. f_equal; lra. }
  assert (Hs : 0 <= Agent.maxSpeed (Simulation.heap arrival_scene 0%nat) < 10)
    by (cbn; lra).
  repeat (split; [assumption |]).
  apply (C3_agent_at_exit_center_removed 16 arrival_scene 0%nat);
    assumption.
Defined.


Lemma C5_witness :
  0 < 50
  /\ (length (Simulation.getNeighbors
                (Simulation.grid (Simulation.updateGrid scene)) 50
                scene_heap 0%nat) <= 10)%nat.
Proof.
  assert (Hs : 0 < 50) by lra.
  split; [exact Hs |].
  apply (C5_getNeighbors_at_most_ten_in_radius
           (Simulation.grid (Simulation.updateGrid scene)) 50
           scene_heap 0%nat Hs).
Defined.

(** ** The invariant of the simulation *)

Section Invariant.

Import Simulation.

Lemma initAgents_loop_agents (e : Environment.t) (pr : R) (n : nat)
      (random : list R) (l : list ref) (h : Heap)
      (l' : list ref) (h' : Heap) (random' : list R) :
  initAgents_loop e pr n random l h = Some (l', h', random') ->
  l' = l ++ seq (length l) n.
Proof.
  revert random l h.
  induction n as [| n IH]; intros random l h H; cbn [initAgents_loop] in H.
  - injection H as <- _ _. cbn. now rewrite app_nil_r.
  - destruct (spawn_point e _ random) as [[[x y] r'] |]; [| discriminate].
    apply IH in H. rewrite H, length_app, <- app_assoc. cbn [length app seq].
    now rewrite Nat.add_1_r.
Qed.

(** Every agent the loop creates has [maxSpeed = 2]. *)
Lemma initAgents_loop_maxSpeed (e : Environment.t) (pr : R) (n : nat)
      (random : list R) (l : list ref) (h : Heap)
      (l' : list ref) (h' : Heap) (random' : list R) :
  initAgents_loop e pr n random l h = Some (l', h', random') ->
  (forall a, In a l -> Agent.maxSpeed (h a) = 2) ->
  forall a, In a l' -> Agent.maxSpeed (h' a) = 2.
Proof.
  revert random l h.
  induction n as [| n IH]; intros random l h H Hl; cbn [initAgents_loop] in H.
  - injection H as <- <- _. exact Hl.
  - destruct (spawn_point e _ random) as [[[x y] r'] |]; [| discriminate].
    apply (IH _ _ _ H). intros a Hin.
    apply in_app_or in Hin as [Hin | [<- | []]].
    + unfold store. destruct (a =? length l)%nat; [reflexivity | now apply Hl].
    + now rewrite store_same.
Qed.

(** The constructor establishes the invariant, with the agents of
    [initAgents] at [maxSpeed = 2]. *)
Lemma new_well_formed (width height now : R) (random : list R) (this : t) :
  new width height now random = Some this ->
  well_formed this
  /\ env this = Environment.new width height
  /\ forall a, In a (agents this) -> Agent.maxSpeed (heap this a) = 2.
Proof.
  unfold new, initAgents. cbn [env params heap numAgents perceptionRadius].
  destruct (initAgents_loop _ _ _ random [] unallocated)
    as [[[l h] random'] |] eqn:E; [| discriminate].
  intros H. injection H as <-.
  pose proof (initAgents_loop_agents _ _ _ _ _ _ _ _ _ E) as Hl.
  cbn [app length] in Hl. subst l.
  split; [split; [| split] | split].
  - change (NoDup (seq 0 50)). apply seq_NoDup.
  - apply setupGrid_rectangular.
  - cbn. lra.
  - reflexivity.
  - cbn [agents heap setupGrid set_grid set_agents].
    apply (initAgents_loop_maxSpeed _ _ _ _ _ _ _ _ _ E). intros a [].
Qed.

(** [update] keeps the invariant. *)
Lemma update_well_formed (now : R) (this : t) :
  well_formed this -> well_formed (fst (update now this)).
Proof.
  intros (Hnd & Hg & Hs).
  destruct (update_swept now this) as (Ha & _ & _).
  split; [| split].
  - rewrite Ha. unfold swept. now apply fold_agents_NoDup.
  - unfold update, updateGrid.
    cbn [fst grid set_stats set_agents set_frame set_grid gridSize heap agents].
    apply fill_rectangular. now apply clear_rectangular.
  - exact Hs.
Qed.

End Invariant.

(** * More of the simulation code *)

(** ** Auxiliary facts *)

Section VectorAlgebra.

Lemma dot_le_mag (u v : Vector.t) :
  Vector.x u * Vector.x v + Vector.y u * Vector.y v
  <= Vector.mag u * Vector.mag v.
Proof.
  pose proof (mag_nonneg u) as Hu. pose proof (mag_nonneg v) as Hv.
  pose proof (mag_sqr u) as Su. pose proof (mag_sqr v) as Sv.
  set (a := Vector.mag u) in *. set (b := Vector.mag v) in *.
  set (ux := Vector.x u) in *. set (uy := Vector.y u) in *.
  set (vx := Vector.x v) in *. set (vy := Vector.y v) in *.
  destruct (Rle_lt_dec (ux * vx + uy * vy) (a * b)) as [H | H]; [exact H |].
  exfalso.
  assert (Hab : 0 <= a * b) by nra.
  assert (Hsq : (a * b) * (a * b) < (ux * vx + uy * vy) * (ux * vx + uy * vy))
    by nra.
  assert (Hcs : (ux * vx + uy * vy) * (ux * vx + uy * vy)
                + (ux * vy - uy * vx) * (ux * vy - uy * vx)
                = (a * a) * (b * b)) by (rewrite Su, Sv; ring).
  pose proof (Rle_0_sqr (ux * vy - uy * vx)) as Hp. unfold Rsqr in Hp.
  nra.
Qed.

Lemma mag_add_le (u v : Vector.t) :
  Vector.mag (Vector.add u v) <= Vector.mag u + Vector.mag v.
Proof.
  pose proof (mag_nonneg u) as Hu. pose proof (mag_nonneg v) as Hv.
  pose proof (mag_nonneg (Vector.add u v)) as Huv.
  pose proof (mag_sqr u) as Su. pose proof (mag_sqr v) as Sv.
  pose proof (mag_sqr (Vector.add u v)) as Suv.
  pose proof (dot_le_mag u v) as Hd.
  unfold Vector.add in Suv at 3 4 5 6. cbn [Vector.x Vector.y] in Suv.
  apply Rsqr_incr_0_var; [| lra]. unfold Rsqr. nra.
Qed.

Lemma dist_mag_static_sub (p q : Vector.t) :
  Vector.dist p q = Vector.mag (Vector.static_sub p q).
Proof. reflexivity. Qed.

Lemma dist_nonneg (p q : Vector.t) : 0 <= Vector.dist p q.
Proof. apply sqrt_pos. Qed.

Lemma dist_sym (p q : Vector.t) : Vector.dist p q = Vector.dist q p.
Proof. unfold Vector.dist. cbn zeta. f_equal. ring. Qed.

Lemma dist_zero_iff (p q : Vector.t) : Vector.dist p q = 0 <-> p = q.
Proof.
  rewrite dist_mag_static_sub, mag_zero_iff.
  split.
  - intros H. symmetry. now apply static_sub_zero_iff.
  - intros ->. now apply static_sub_zero_iff.
Qed.

Lemma dist_triangle (p q r : Vector.t) :
  Vector.dist p r <= Vector.dist p q + Vector.dist q r.
Proof.
  rewrite !dist_mag_static_sub.
  replace (Vector.static_sub p r)
    with (Vector.add (Vector.static_sub p q) (Vector.static_sub q r))
    by (unfold Vector.add, Vector.static_sub; cbn; f_equal; ring).
  apply mag_add_le.
Qed.

End VectorAlgebra.

Section Rectangles.

Lemma rectIntersect_sym (r1 r2 : Rect.t) :
  Environment.rectIntersect r1 r2 = Environment.rectIntersect r2 r1.
Proof.
  destruct (Environment.rectIntersect r1 r2) eqn:E1;
    destruct (Environment.rectIntersect r2 r1) eqn:E2; try reflexivity.
  - apply rectIntersect_overlaps in E1.
    assert (H : overlaps r2 r1) by (unfold overlaps in *; lra).
    apply rectIntersect_overlaps in H. congruence.
  - apply rectIntersect_overlaps in E2.
    assert (H : overlaps r1 r2) by (unfold overlaps in *; lra).
    apply rectIntersect_overlaps in H. congruence.
Qed.

Lemma overlaps_shared_point (r1 r2 : Rect.t) :
  proper r1 -> proper r2 ->
  overlaps r1 r2 <-> exists p, inside r1 p /\ inside r2 p.
Proof.
  intros [Hw1 Hh1] [Hw2 Hh2]. unfold overlaps, inside. split.
  - intros H.
    exists (Vector.new (Rmax (Rect.x r1) (Rect.x r2))
                       (Rmax (Rect.y r1) (Rect.y r2))).
    cbn [Vector.x Vector.y]. unfold Rmax.
    destruct (Rle_dec (Rect.x r1) (Rect.x r2));
      destruct (Rle_dec (Rect.y r1) (Rect.y r2)); lra.
  - intros (p & H1 & H2). lra.
Qed.

End Rectangles.

Section Clearance.

Lemma clamp_outside_low (p lo w : R) :
  0 <= w -> p + 5 < lo -> 5 < Rabs (p - Rmax lo (Rmin p (lo + w))).
Proof.
  intros Hw H. unfold Rmax, Rmin.
  destruct (Rle_dec p (lo + w)); destruct (Rle_dec lo _);
    unfold Rabs; destruct (Rcase_abs _); lra.
Qed.

Lemma clamp_outside_high (p lo w : R) :
  0 <= w -> p - 5 > lo + w -> 5 < Rabs (p - Rmax lo (Rmin p (lo + w))).
Proof.
  intros Hw H. unfold Rmax, Rmin.
  destruct (Rle_dec p (lo + w)); destruct (Rle_dec lo _);
    unfold Rabs; destruct (Rcase_abs _); lra.
Qed.

(** A square of half-width 5 that misses a rectangle keeps its centre
    more than 5 away from the rectangle's closest point. *)
Lemma clear_of_rect (a : Agent.t) (r : Rect.t) :
  proper r ->
  ~ overlaps (Environment.agentRect (Agent.position a)) r ->
  5 < Vector.dist (Agent.position a) (Agent.closestPoint a r).
Proof.
  intros [Hw Hh] Hno. unfold overlaps, Environment.agentRect in Hno.
  cbn [Rect.x Rect.y Rect.w Rect.h] in Hno.
  assert (Hcases : Vector.x (Agent.position a) + 5 < Rect.x r
                   \/ Vector.x (Agent.position a) - 5 > Rect.x r + Rect.w r
                   \/ Vector.y (Agent.position a) + 5 < Rect.y r
                   \/ Vector.y (Agent.position a) - 5 > Rect.y r + Rect.h r).
  { destruct (Rlt_dec (Vector.x (Agent.position a) - 5 + 5 * 2) (Rect.x r));
      [left; lra |].
    destruct (Rgt_dec (Vector.x (Agent.position a) - 5) (Rect.x r + Rect.w r));
      [right; left; lra |].
    destruct (Rlt_dec (Vector.y (Agent.position a) - 5 + 5 * 2) (Rect.y r));
      [right; right; left; lra |].
    destruct (Rgt_dec (Vector.y (Agent.position a) - 5) (Rect.y r + Rect.h r));
      [right; right; right; lra |].
    exfalso. apply Hno. intros [H | [H | [H | H]]]; contradiction. }
  destruct Hcases as [H | [H | [H | H]]].
  - eapply Rlt_le_trans; [| apply abs_dx_le_dist].
    unfold Agent.closestPoint. cbn [Vector.x]. now apply clamp_outside_low.
  - eapply Rlt_le_trans; [| apply abs_dx_le_dist].
    unfold Agent.closestPoint. cbn [Vector.x]. now apply clamp_outside_high.
  - eapply Rlt_le_trans; [| apply abs_dy_le_dist].
    unfold Agent.closestPoint. cbn [Vector.y]. now apply clamp_outside_low.
  - eapply Rlt_le_trans; [| apply abs_dy_le_dist].
    unfold Agent.closestPoint. cbn [Vector.y]. now apply clamp_outside_high.
Qed.

Lemma valid_parts (env : Environment.t) (pos : Vector.t) :
  Environment.isPositionValid env pos = true ->
  existsb (fun wall => Environment.rectIntersect (Environment.agentRect pos) wall)
          (Environment.walls env) = false
  /\ existsb (fun zone => Environment.rectIntersect (Environment.agentRect pos) zone)
             (Environment.restrictedZones env) = false
  /\ Environment.out_of_bounds env pos = false.
Proof.
  unfold Environment.isPositionValid.
  destruct (existsb _ (Environment.walls env)); [discriminate |].
  destruct (existsb _ (Environment.restrictedZones env)); [discriminate |].
  destruct (Environment.out_of_bounds env pos); [discriminate |]. auto.
Qed.

Lemma existsb_false_overlaps (r : Rect.t) (l : list Rect.t) (r' : Rect.t) :
  existsb (fun r' => Environment.rectIntersect r r') l = false ->
  In r' l -> ~ overlaps r r'.
Proof.
  intros Hex Hin Hov.
  assert (H : existsb (fun r' => Environment.rectIntersect r r') l = true)
    by (apply existsb_overlaps; eauto).
  congruence.
Qed.

End Clearance.

Section AgentMoves.

Lemma update_fields (a : Agent.t) (env : Environment.t) :
  Agent.maxSpeed (Agent.update a env) = Agent.maxSpeed a
  /\ Agent.perceptionRadius (Agent.update a env) = Agent.perceptionRadius a
  /\ Agent.desiredSeparation (Agent.update a env) = Agent.desiredSeparation a
  /\ Agent.radius (Agent.update a env) = Agent.radius a
  /\ Agent.wallPerceptionRadius (Agent.update a env)
     = Agent.wallPerceptionRadius a.
Proof.
  unfold Agent.update; cbn.
  destruct (Environment.isPositionValid env _); cbn; auto.
Qed.


Lemma mult_zero_vector (s : R) :
  Vector.mult (Vector.new 0 0) s = Vector.new 0 0.
Proof. unfold Vector.mult; cbn. f_equal; ring. Qed.

Lemma limit_zero_vector (max : R) :
  Vector.limit (Vector.new 0 0) max = Vector.new 0 0.
Proof.
  unfold Vector.limit. destruct (num_gt _ max); [| reflexivity].
  rewrite normalize_zero_mag by now apply mag_zero_iff.
  apply mult_zero_vector.
Qed.

Lemma static_add_zero (p : Vector.t) :
  Vector.static_add p (Vector.new 0 0) = p.
Proof. apply vector_eq; cbn; ring. Qed.

End AgentMoves.

Section Steering.

Lemma repel_skip (a : Agent.t) (cutoff : R) (acc : Vector.t * nat)
      (point : Vector.t) :
  Vector.dist (Agent.position a) point = 0
  \/ cutoff <= Vector.dist (Agent.position a) point ->
  Agent.repel a cutoff acc point = acc.
Proof.
  intros [Hz | Hfar]; [| now apply repel_far].
  unfold Agent.repel. rewrite Hz.
  assert (H : num_gt 0 0 = false) by (apply num_gt_false; lra).
  now rewrite H.
Qed.

Lemma fold_repel_skip {A : Type} (a : Agent.t) (cutoff : R)
      (point : A -> Vector.t) (l : list A) (acc : Vector.t * nat) :
  (forall x, In x l ->
     Vector.dist (Agent.position a) (point x) = 0
     \/ cutoff <= Vector.dist (Agent.position a) (point x)) ->
  fold_left (fun acc x => Agent.repel a cutoff acc (point x)) l acc = acc.
Proof.
  revert acc; induction l as [| x l IH]; intros acc H; [reflexivity |].
  cbn [fold_left]. rewrite repel_skip by (apply H; now left).
  apply IH. intros y Hy. apply H. now right.
Qed.

Lemma closestPoint_inside (a : Agent.t) (r : Rect.t) :
  inside r (Agent.position a) -> Agent.closestPoint a r = Agent.position a.
Proof.
  intros [Hx Hy]. unfold Agent.closestPoint.
  rewrite (Rmin_left (Vector.x _)), (Rmin_left (Vector.y _)) by lra.
  rewrite !Rmax_right by lra. apply vector_eta.
Qed.

Lemma positions_loop (neighbors : list Agent.t) (sum : Vector.t) (count : nat) :
  fold_left (fun acc neighbor =>
               (Vector.add (fst acc) (Agent.position neighbor), S (snd acc)))
            neighbors (sum, count)
  = (fold_left (fun sum neighbor => Vector.add sum (Agent.position neighbor))
               neighbors sum,
     (count + length neighbors)%nat).
Proof.
  revert sum count.
  induction neighbors as [| n l IH]; intros sum count; simpl.
  - now rewrite Nat.add_0_r.
  - rewrite IH. f_equal. lia.
Qed.

End Steering.

Section GridRange.
Import Simulation.

Lemma floor_div_range (x gs : R) (n : nat) :
  0 < gs ->
  (0 <= Zfloor (x / gs) < Z.of_nat n)%Z <-> 0 <= x < INR n * gs.
Proof.
  intros Hgs. pose proof (Zfloor_bound (x / gs)) as [Hlo Hhi].
  assert (Hx : x = x / gs * gs) by (field; lra).
  rewrite INR_IZR_INZ. split.
  - intros [H0 Hn]. apply IZR_le in H0.
    assert (Hn' : (Zfloor (x / gs) + 1 <= Z.of_nat n)%Z) by lia.
    apply IZR_le in Hn'. rewrite plus_IZR in Hn'.
    split.
    + assert (0 <= x / gs) by lra. rewrite Hx. apply Rmult_le_pos; lra.
    + assert (x / gs < IZR (Z.of_nat n)) by lra.
      rewrite Hx at 1. apply Rmult_lt_compat_r; lra.
  - intros [H0 Hn]. split.
    + apply Zfloor_lub. apply Rmult_le_pos; [lra |].
      apply Rlt_le, Rinv_0_lt_compat, Hgs.
    + apply lt_IZR. eapply Rle_lt_trans; [exact Hlo |].
      apply (Rmult_lt_reg_r gs); [exact Hgs |]. now rewrite <- Hx.
Qed.

Lemma in_grid_range (g : Grid) (gs : R) (a : Agent.t) :
  0 < gs ->
  in_grid g (col_of gs a) (row_of gs a) = true
  <-> (0 <= Vector.x (Agent.position a) < INR (cols g) * gs)
      /\ (0 <= Vector.y (Agent.position a) < INR (rows g) * gs).
Proof.
  intros Hgs. rewrite in_grid_spec. unfold col_of, row_of.
  now rewrite !floor_div_range by exact Hgs.
Qed.

Lemma ceil_cover (w gs : R) :
  0 < gs -> w <= INR (Z.to_nat (Zceil (w / gs))) * gs.
Proof.
  intros Hgs. pose proof (Zceil_bound (w / gs)) as [_ Hc].
  rewrite INR_IZR_INZ.
  assert (Hw : w = w / gs * gs) by (field; lra).
  rewrite Hw at 1. apply Rmult_le_compat_r; [lra |].
  eapply Rle_trans; [exact Hc |]. apply IZR_le. lia.
Qed.

Lemma setupGrid_dims (this : t) :
  cols (grid (setupGrid this))
  = Z.to_nat (Zceil (canvas_width this / gridSize this))
  /\ ((0 < cols (grid (setupGrid this)))%nat ->
      rows (grid (setupGrid this))
      = Z.to_nat (Zceil (canvas_height this / gridSize this))).
Proof.
  unfold setupGrid, cols, rows. cbn [grid set_grid].
  rewrite repeat_length. split; [reflexivity |].
  intros Hc. rewrite nth_repeat_lt by exact Hc. apply repeat_length.
Qed.

Lemma setupGrid_empty (this : t) (c r : nat) :
  bucket (grid (setupGrid this)) c r = [].
Proof.
  unfold setupGrid, bucket. cbn [grid set_grid].
  destruct (nth_in_or_default c (repeat (repeat (@nil ref) (Z.to_nat
              (Zceil (canvas_height this / gridSize this))))
              (Z.to_nat (Zceil (canvas_width this / gridSize this)))) [])
    as [Hin | ->]; [| now destruct r].
  apply repeat_spec in Hin. rewrite Hin.
  destruct (nth_in_or_default r (repeat (@nil ref) (Z.to_nat
              (Zceil (canvas_height this / gridSize this)))) [])
    as [Hin' | ->]; [| reflexivity].
  now apply repeat_spec in Hin'.
Qed.

End GridRange.

Section NeighborSearch.
Import Simulation.

(** The buckets of a rebuilt grid, cell by cell. *)
Lemma updateGrid_bucket_mem (this : t) (a : ref) (c r : nat) :
  rectangular (grid this) ->
  In a (bucket (grid (updateGrid this)) c r)
  <-> In a (agents this)
      /\ (c < cols (grid this))%nat /\ (r < rows (grid this))%nat
      /\ col_of (gridSize this) (heap this a) = Z.of_nat c
      /\ row_of (gridSize this) (heap this a) = Z.of_nat r.
Proof.
  intros Hg.
  destruct (clear_rectangular _ Hg) as (Hcr & Hcc & Hcw).
  destruct (fill_rectangular (gridSize this) (heap this) (agents this) _ Hcr)
    as (Hfr & Hfc & Hfw).
  unfold updateGrid. cbn [grid set_grid].
  destruct (Nat.lt_ge_cases c (cols (grid this))) as [Hc | Hc];
    [destruct (Nat.lt_ge_cases r (rows (grid this))) as [Hr | Hr] |].
  - rewrite fill_bucket by (auto; congruence).
    rewrite clear_bucket, app_nil_l, filter_In, in_cell_spec. tauto.
  - rewrite bucket_outside by (auto; rewrite Hfc, Hfw, Hcc, Hcw; lia).
    cbn. split; [tauto | lia].
  - rewrite bucket_outside by (auto; rewrite Hfc, Hfw, Hcc, Hcw; lia).
    cbn. split; [tauto | lia].
Qed.

Lemma updateGrid_shape (this : t) :
  rectangular (grid this) ->
  rectangular (grid (updateGrid this))
  /\ cols (grid (updateGrid this)) = cols (grid this)
  /\ rows (grid (updateGrid this)) = rows (grid this).
Proof.
  intros Hg.
  destruct (clear_rectangular _ Hg) as (Hcr & Hcc & Hcw).
  destruct (fill_rectangular (gridSize this) (heap this) (agents this) _ Hcr)
    as (Hfr & Hfc & Hfw).
  unfold updateGrid. cbn [grid set_grid].
  split; [exact Hfr | split; congruence].
Qed.

Lemma in_zrange (lo hi k : Z) :
  In k (zrange lo hi) <-> (lo <= k <= hi)%Z.
Proof.
  unfold zrange. rewrite in_map_iff. split.
  - intros (n & <- & Hn). apply in_seq in Hn. lia.
  - intros Hk. exists (Z.to_nat (k - lo)). split; [lia |].
    apply in_seq. lia.
Qed.

Lemma NoDup_map_injective {A B : Type} (f : A -> B) (l : list A) :
  (forall x y, f x = f y -> x = y) -> NoDup l -> NoDup (map f l).
Proof.
  intros Hinj Hnd. induction Hnd as [| x l Hnin Hnd IH]; cbn; constructor.
  - intros Hin. apply in_map_iff in Hin as (y & Hy & Hin).
    apply Hinj in Hy. now subst y.
  - exact IH.
Qed.

Lemma zrange_NoDup (lo hi : Z) : NoDup (zrange lo hi).
Proof.
  unfold zrange. apply NoDup_map_injective; [| apply seq_NoDup].
  intros x y H. lia.
Qed.

(** Two numbers less than [t] cells apart fall in cells at most
    [ceil t] apart. *)
Lemma floor_close (x1 x2 pr gs : R) :
  0 < gs -> Rabs (x1 - x2) < pr ->
  (- Zceil (pr / gs) <= Zfloor (x2 / gs) - Zfloor (x1 / gs) <= Zceil (pr / gs))%Z.
Proof.
  intros Hgs Hd.
  pose proof (Zfloor_bound (x1 / gs)) as [L1 U1].
  pose proof (Zfloor_bound (x2 / gs)) as [L2 U2].
  pose proof (Zceil_bound (pr / gs)) as [_ Hc].
  assert (Hdiv : Rabs (x1 / gs - x2 / gs) < pr / gs).
  { replace (x1 / gs - x2 / gs) with ((x1 - x2) * / gs) by (field; lra).
    rewrite Rabs_mult, (Rabs_pos_eq (/ gs))
      by (apply Rlt_le, Rinv_0_lt_compat, Hgs).
    apply Rmult_lt_compat_r; [apply Rinv_0_lt_compat, Hgs | exact Hd]. }
  apply Rabs_def2 in Hdiv as [Hd1 Hd2].
  split.
  - assert (H : IZR (Zfloor (x1 / gs)) < IZR (Zfloor (x2 / gs) + 1 + Zceil (pr / gs)))
      by (rewrite !plus_IZR; lra).
    apply lt_IZR in H. lia.
  - assert (H : IZR (Zfloor (x2 / gs)) < IZR (Zfloor (x1 / gs) + 1 + Zceil (pr / gs)))
      by (rewrite !plus_IZR; lra).
    apply lt_IZR in H. lia.
Qed.

Lemma scanned_contains (g : Grid) (gs : R) (a : Agent.t) (o : ref) (c r : Z) :
  in_grid g c r = true ->
  (- neighbor_range gs a <= c - col_of gs a <= neighbor_range gs a)%Z ->
  (- neighbor_range gs a <= r - row_of gs a <= neighbor_range gs a)%Z ->
  In o (bucket g (Z.to_nat c) (Z.to_nat r)) ->
  In o (scanned g gs a).
Proof.
  intros Hin Hc Hr Ho. unfold scanned. cbn zeta.
  apply in_flat_map. exists (c - col_of gs a)%Z.
  split; [now apply in_zrange |].
  apply in_flat_map. exists (r - row_of gs a)%Z.
  split; [now apply in_zrange |].
  replace (col_of gs a + (c - col_of gs a))%Z with c by lia.
  replace (row_of gs a + (r - row_of gs a))%Z with r by lia.
  now rewrite Hin.
Qed.

End NeighborSearch.

Section Distinct.
Import Simulation.

Lemma NoDup_flat_map {A B : Type} (f : A -> list B) (l : list A) :
  NoDup l ->
  (forall x, In x l -> NoDup (f x)) ->
  (forall x y z, In x l -> In y l -> x <> y -> In z (f x) -> ~ In z (f y)) ->
  NoDup (flat_map f l).
Proof.
  intros Hnd. induction Hnd as [| x l Hnin Hnd IH]; intros Hf Hdis;
    cbn [flat_map]; [constructor |].
  apply NoDup_app.
  - apply Hf. now left.
  - apply IH.
    + intros y Hy. apply Hf. now right.
    + intros y1 y2 z H1 H2. apply Hdis; now right.
  - intros z Hz Hz'. apply in_flat_map in Hz' as (y & Hy & Hzy).
    apply (Hdis x y z); auto; [now left | now right | ].
    intros ->. contradiction.
Qed.

Lemma NoDup_firstn {A : Type} (n : nat) (l : list A) :
  NoDup l -> NoDup (firstn n l).
Proof.
  intros Hnd. revert n. induction Hnd as [| x l Hnin Hnd IH]; intros [| n];
    cbn; try constructor.
  - intros Hin. apply in_firstn in Hin. contradiction.
  - apply IH.
Qed.

Lemma scanned_NoDup (this : t) (a : Agent.t) :
  NoDup (agents this) -> rectangular (grid this) ->
  NoDup (scanned (grid (updateGrid this)) (gridSize this) a).
Proof.
  intros Hnd Hg. unfold scanned. cbn zeta.
  set (g' := grid (updateGrid this)).
  set (gs := gridSize this).
  assert (Hcell : forall c r z, in_grid g' c r = true ->
            In z (bucket g' (Z.to_nat c) (Z.to_nat r)) ->
            col_of gs (heap this z) = c /\ row_of gs (heap this z) = r).
  { intros c r z Hin Hz. apply in_grid_spec in Hin as [Hc Hr].
    apply updateGrid_bucket_mem in Hz; [| exact Hg].
    destruct Hz as (_ & _ & _ & Hzc & Hzr). fold gs in Hzc, Hzr. lia. }
  assert (Hbnd : forall c r, NoDup (bucket g' c r)).
  { intros c r.
    destruct (clear_rectangular _ Hg) as (Hcr & Hcc & Hcw).
    destruct (Nat.lt_ge_cases c (cols (grid this))) as [Hc | Hc];
      [destruct (Nat.lt_ge_cases r (rows (grid this))) as [Hr | Hr] |].
    - unfold g', updateGrid. cbn [grid set_grid].
      rewrite fill_bucket by (auto; congruence).
      rewrite clear_bucket, app_nil_l. now apply NoDup_filter.
    - destruct (updateGrid_shape this Hg) as (Hr' & Hc' & Hw').
      unfold g'. rewrite bucket_outside by (auto; rewrite Hc', Hw'; lia).
      constructor.
    - destruct (updateGrid_shape this Hg) as (Hr' & Hc' & Hw').
      unfold g'. rewrite bucket_outside by (auto; rewrite Hc', Hw'; lia).
      constructor. }
  apply NoDup_flat_map; [apply zrange_NoDup | |].
  - intros i _. apply NoDup_flat_map; [apply zrange_NoDup | |].
    + intros j _. destruct (in_grid g' _ _); [apply Hbnd | constructor].
    + intros j1 j2 z _ _ Hne H1 H2.
      destruct (in_grid g' _ (row_of gs a + j1)) eqn:E1; [| contradiction].
      destruct (in_grid g' _ (row_of gs a + j2)) eqn:E2; [| contradiction].
      apply (Hcell _ _ _ E1) in H1. apply (Hcell _ _ _ E2) in H2. lia.
  - intros i1 i2 z _ _ Hne H1 H2.
    apply in_flat_map in H1 as (j1 & _ & H1).
    apply in_flat_map in H2 as (j2 & _ & H2).
    destruct (in_grid g' (col_of gs a + i1) _) eqn:E1; [| contradiction].
    destruct (in_grid g' (col_of gs a + i2) _) eqn:E2; [| contradiction].
    apply (Hcell _ _ _ E1) in H1. apply (Hcell _ _ _ E2) in H2. lia.
Qed.

End Distinct.

Section SweepMore.
Import Simulation.

Variables (e : Environment.t) (p : Params) (g : Grid) (gs : R).

Lemma agent_after_fields (h : Heap) (r : ref) :
  Agent.maxSpeed (agent_after e p g gs h r) = Agent.maxSpeed (h r)
  /\ Agent.perceptionRadius (agent_after e p g gs h r)
     = Agent.perceptionRadius (h r)
  /\ Agent.desiredSeparation (agent_after e p g gs h r)
     = Agent.desiredSeparation (h r)
  /\ Agent.radius (agent_after e p g gs h r) = Agent.radius (h r)
  /\ Agent.wallPerceptionRadius (agent_after e p g gs h r)
     = Agent.wallPerceptionRadius (h r).
Proof.
  unfold agent_after.
  exact (update_fields (Agent.applyForce (h r) _) e).
Qed.

(** The loop changes positions and velocities only. *)
Lemma fold_heap_fields (l : list ref) (init : Sweep) (r : ref) :
  let h' := sw_heap (fold_right (iteration e p g gs) init l) in
  Agent.maxSpeed (h' r) = Agent.maxSpeed (sw_heap init r)
  /\ Agent.perceptionRadius (h' r) = Agent.perceptionRadius (sw_heap init r)
  /\ Agent.desiredSeparation (h' r) = Agent.desiredSeparation (sw_heap init r)
  /\ Agent.radius (h' r) = Agent.radius (sw_heap init r)
  /\ Agent.wallPerceptionRadius (h' r)
     = Agent.wallPerceptionRadius (sw_heap init r).
Proof.
  induction l as [| a l IH]; cbn zeta; [auto |].
  cbn [fold_right iteration sw_heap]. unfold store.
  destruct (r =? a)%nat eqn:E; [| exact IH].
  apply Nat.eqb_eq in E. subst r.
  destruct (agent_after_fields (sw_heap (fold_right (iteration e p g gs) init l)) a)
    as (-> & -> & -> & -> & ->).
  exact IH.
Qed.

(** The survivors are the agents whose new position is not at the exit. *)
Lemma fold_agents_filter (l : list ref) (h : Heap) (ts : R) (j : nat) :
  NoDup l ->
  let st := fold_right (iteration e p g gs) (mkSweep [] h ts j) l in
  sw_agents st
  = filter (fun a => negb (Environment.isAtExit_default e
                             (Agent.position (sw_heap st a)))) l.
Proof.
  induction l as [| a l IH]; intros Hnd; cbn zeta; [reflexivity |].
  inversion Hnd as [| ? ? Hnin Hnd']; subst.
  specialize (IH Hnd'). cbn zeta in IH.
  cbn [fold_right iteration sw_agents sw_heap filter].
  rewrite store_same.
  assert (Hf : filter (fun a0 => negb (Environment.isAtExit_default e
                 (Agent.position
                    (store (sw_heap (fold_right (iteration e p g gs)
                                       (mkSweep [] h ts j) l)) a
                       (agent_after e p g gs
                          (sw_heap (fold_right (iteration e p g gs)
                                      (mkSweep [] h ts j) l)) a) a0)))) l
               = filter (fun a0 => negb (Environment.isAtExit_default e
                 (Agent.position
                    (sw_heap (fold_right (iteration e p g gs)
                                (mkSweep [] h ts j) l) a0)))) l).
  { apply filter_ext_in. intros x Hx.
    rewrite store_other; [reflexivity |]. intros ->. contradiction. }
  rewrite Hf, <- IH.
  now destruct (Environment.isAtExit_default e _).
Qed.

(** The store an iteration reads: the agents behind it in the array
    are already as the frame leaves them, all others are untouched. *)
Lemma fold_live_state (pre suf : list ref) (a : ref) (init : Sweep) :
  NoDup (pre ++ a :: suf) ->
  let final := sw_heap (fold_right (iteration e p g gs) init (pre ++ a :: suf)) in
  let mid := sw_heap (fold_right (iteration e p g gs) init suf) in
  (forall r, In r suf -> mid r = final r)
  /\ (forall r, ~ In r suf -> mid r = sw_heap init r)
  /\ final a = agent_after e p g gs mid a.
Proof.
  intros Hnd final mid.
  apply NoDup_remove in Hnd as Hrem. destruct Hrem as [Hnd' Hnin].
  assert (Hfinal : forall r, ~ In r pre ->
            final r = sw_heap (fold_right (iteration e p g gs) init (a :: suf)) r).
  { intros r Hr. unfold final. rewrite fold_right_app.
    now apply fold_heap_untouched. }
  split; [| split].
  - intros r Hr.
    assert (Hrp : ~ In r pre).
    { intros Hp. apply NoDup_app_remove_r in Hnd as Hpre.
      clear - Hnd Hp Hr.
      induction pre as [| x pre IH]; [contradiction |].
      cbn in Hnd. inversion Hnd as [| ? ? Hx Hnd']; subst.
      destruct Hp as [-> | Hp]; [| now apply IH].
      apply Hx. apply in_or_app. right. now right. }
    rewrite (Hfinal r Hrp). cbn [fold_right iteration sw_heap].
    rewrite store_other; [reflexivity |].
    intros ->. apply Hnin. apply in_or_app. now right.
  - intros r Hr. unfold mid. now apply fold_heap_untouched.
  - rewrite Hfinal by (intros Hp; apply Hnin, in_or_app; now left).
    apply fold_heap_head.
Qed.

Lemma fold_heap_of_member (l : list ref) (init : Sweep) (a : ref) :
  NoDup l -> In a l ->
  exists mid : Heap,
    mid a = sw_heap init a
    /\ sw_heap (fold_right (iteration e p g gs) init l) a
       = agent_after e p g gs mid a.
Proof.
  intros Hnd Hin. apply in_split in Hin as (pre & suf & ->).
  destruct (fold_live_state pre suf a init Hnd) as (_ & Hm & Hf).
  exists (sw_heap (fold_right (iteration e p g gs) init suf)).
  split; [| exact Hf]. apply Hm.
  apply NoDup_remove_2 in Hnd. intros Hs. apply Hnd, in_or_app. now right.
Qed.

(** [jamThisFrame] counts the slow agents of the frame. *)
Lemma fold_jam (l : list ref) (init : Sweep) :
  NoDup l ->
  let st := fold_right (iteration e p g gs) init l in
  jamThisFrame st
  = (jamThisFrame init
     + length (filter (fun a => num_lt (speed_of (sw_heap st) a) 0.5) l))%nat.
Proof.
  induction l as [| a l IH]; intros Hnd; cbn zeta; [cbn; lia |].
  inversion Hnd as [| ? ? Hnin Hnd']; subst.
  specialize (IH Hnd'). cbn zeta in IH.
  cbn [fold_right iteration jamThisFrame sw_heap filter].
  unfold speed_of at 1. rewrite store_same.
  assert (Hf : filter (fun a0 => num_lt (speed_of
                 (store (sw_heap (fold_right (iteration e p g gs) init l)) a
                    (agent_after e p g gs
                       (sw_heap (fold_right (iteration e p g gs) init l)) a))
                 a0) 0.5) l
               = filter (fun a0 => num_lt (speed_of
                   (sw_heap (fold_right (iteration e p g gs) init l)) a0) 0.5) l).
  { apply filter_ext_in. intros x Hx. unfold speed_of.
    rewrite store_other; [reflexivity |]. intros ->. contradiction. }
  rewrite Hf, IH.
  destruct (num_lt _ 0.5); cbn [length]; lia.
Qed.

End SweepMore.

Section Frame.
Import Simulation.

(** The fields [update] leaves alone or advances by a fixed rule. *)
Lemma update_bookkeeping (now : R) (this : t) :
  let after := fst (update now this) in
  frame after = S (frame this)
  /\ env after = env this
  /\ params after = params this
  /\ gridSize after = gridSize this
  /\ startTime after = startTime this
  /\ canvas_width after = canvas_width this
  /\ canvas_height after = canvas_height this
  /\ grid after = grid (updateGrid this).
Proof. cbn. repeat split. Qed.

Lemma update_statistics (now : R) (this : t) :
  let after := fst (update now this) in
  maxDensity after
  = Rmax (maxDensity this)
         (calculateMaxDensity
            (set_agents (updateGrid (set_frame this (S (frame this))))
                        (sw_agents (swept this)) (sw_heap (swept this))))
  /\ jamCount after
     = (jamCount this
        + (if (0 <? jamThisFrame (swept this))%nat then 1 else 0))%nat.
Proof.
  unfold update, swept. cbn [fst].
  cbn [agents heap maxDensity jamCount set_stats set_agents set_frame
       updateGrid set_grid env params grid gridSize].
  rewrite sweep_all. split; reflexivity.
Qed.

Lemma update_output (now : R) (this : t) :
  let after := fst (update now this) in
  snd (update now this)
  = if (length (agents after) =? 0)%nat
    then [EvacuationTime (frame after) ((now - startTime this) / 1000);
          MaxDensityObserved (maxDensity after);
          JamCountLine (jamCount after)]
    else [].
Proof. cbn. reflexivity. Qed.

Lemma fold_Rmax_bounds {A : Type} (f : A -> R) (l : list A) (m0 B : R) :
  m0 <= B -> (forall a, In a l -> f a <= B) ->
  m0 <= fold_left (fun m a => Rmax m (f a)) l m0 <= B.
Proof.
  revert m0; induction l as [| a l IH]; intros m0 Hm Hf; cbn [fold_left];
    [lra |].
  assert (Hf' : forall x, In x l -> f x <= B) by (intros x Hx; apply Hf; now right).
  assert (Ha : f a <= B) by (apply Hf; now left).
  destruct (IH (Rmax m0 (f a)) (Rmax_lub _ _ _ Hm Ha) Hf') as [H1 H2].
  split; [| exact H2].
  eapply Rle_trans; [apply Rmax_l | exact H1].
Qed.

Lemma some_filtered {A : Type} (f : A -> bool) (l : list A) :
  (0 <? length (filter f l))%nat = existsb f l.
Proof.
  induction l as [| x l IH]; [reflexivity |].
  cbn [filter existsb]. destruct (f x); [reflexivity | exact IH].
Qed.

End Frame.

Section Spawn.
Import Simulation.

Lemma spawn_point_sound (e : Environment.t) (n : nat) :
  forall (random : list R) (x y : R) (random' : list R),
    (length random <= n)%nat ->
    Forall (fun u => 0 <= u < 1) random ->
    spawn_point e (Rect.mk 50 50 200 500) random = Some (x, y, random') ->
    Environment.isPositionValid e (Vector.new x y) = true
    /\ (50 <= x <= 250 /\ 50 <= y <= 550)
    /\ Forall (fun u => 0 <= u < 1) random'.
Proof.
  induction n as [| n IH]; intros random x y random' Hlen Hr H.
  - destruct random; [discriminate | cbn in Hlen; lia].
  - destruct random as [| u [| v rest]]; try discriminate.
    cbn [spawn_point Rect.x Rect.y Rect.w Rect.h] in H.
    inversion Hr as [| ? ? Hu Hr']; subst.
    inversion Hr' as [| ? ? Hv Hrest]; subst.
    destruct (Environment.isPositionValid e _) eqn:E; cbn [negb] in H.
    + injection H as <- <- <-. split; [exact E |]. split; [nra | exact Hrest].
    + apply (IH rest); [cbn in Hlen; lia | exact Hrest | exact H].
Qed.

Lemma initAgents_loop_spawned (e : Environment.t) (pr : R) (n : nat) :
  forall (random : list R) (l : list ref) (h : Heap)
         (l' : list ref) (h' : Heap) (random' : list R),
    Forall (fun u => 0 <= u < 1) random ->
    initAgents_loop e pr n random l h = Some (l', h', random') ->
    (forall a, In a l -> spawned e pr (h a)) ->
    forall a, In a l' -> spawned e pr (h' a).
Proof.
  induction n as [| n IH]; intros random l h l' h' random' Hr H Hl;
    cbn [initAgents_loop] in H.
  - injection H as <- <- _. exact Hl.
  - destruct (spawn_point e _ random) as [[[x y] r'] |] eqn:E; [| discriminate].
    destruct (spawn_point_sound e _ random x y r' (Nat.le_refl _) Hr E)
      as (Hv & Hxy & Hr').
    apply (IH _ _ _ _ _ _ Hr' H). intros a Hin.
    apply in_app_or in Hin as [Hin | [<- | []]].
    + unfold store. destruct (a =? length l)%nat eqn:Ea; [| now apply Hl].
      unfold spawned. cbn. repeat split; try lra; exact Hv.
    + rewrite store_same. unfold spawned. cbn. repeat split; try lra; exact Hv.
Qed.

End Spawn.

Section FrameSteps.

Import Simulation.

Lemma setupGrid_in_grid (this : t) (a : Agent.t) :
  0 < gridSize this ->
  0 <= Vector.x (Agent.position a) < canvas_width this ->
  0 <= Vector.y (Agent.position a) < canvas_height this ->
  in_grid (grid (setupGrid this)) (col_of (gridSize this) a)
          (row_of (gridSize this) a) = true.
Proof.
  intros Hgs Hx Hy.
  destruct (setupGrid_dims this) as [Hc Hr].
  pose proof (ceil_cover (canvas_width this) _ Hgs) as Hcw.
  pose proof (ceil_cover (canvas_height this) _ Hgs) as Hch.
  assert (Hpos : (0 < cols (grid (setupGrid this)))%nat).
  { rewrite Hc. apply INR_lt. cbn [INR].
    apply (Rmult_lt_reg_r (gridSize this)); [exact Hgs |]. lra. }
  apply (proj2 (in_grid_range _ (gridSize this) a Hgs)).
  rewrite Hc, (Hr Hpos). lra.
Qed.

Lemma update_survivors (now : R) (this : t) :
  NoDup (agents this) ->
  agents (fst (update now this))
  = filter (fun a => negb (Environment.isAtExit_default (env this)
                             (Agent.position (heap (fst (update now this)) a))))
           (agents this).
Proof.
  intros Hnd.
  destruct (update_swept now this) as (Ha & Hh & _).
  rewrite Ha, Hh. unfold swept. now apply fold_agents_filter.
Qed.

Lemma update_member_step (now : R) (this : t) (a : ref) :
  NoDup (agents this) -> In a (agents this) ->
  0 <= Agent.maxSpeed (heap this a) ->
  speed_of (heap (fst (update now this))) a <= Agent.maxSpeed (heap this a)
  /\ Vector.dist (Agent.position (heap (fst (update now this)) a))
                 (Agent.position (heap this a))
     <= Agent.maxSpeed (heap this a).
Proof.
  intros Hnd Hin Hs.
  destruct (update_swept now this) as (_ & Hh & _).
  unfold speed_of. rewrite Hh. unfold swept.
  destruct (fold_heap_of_member (env this) (params this)
              (grid (updateGrid this)) (gridSize this) (agents this)
              (mkSweep [] (heap this) 0 0%nat) a Hnd Hin)
    as (mid & Hmid & ->).
  cbn [sw_heap] in Hmid.
  assert (Hsp : Vector.mag (Agent.velocity
                  (agent_after (env this) (params this)
                     (grid (updateGrid this)) (gridSize this) mid a))
                <= Agent.maxSpeed (heap this a)).
  { rewrite <- Hmid. apply agent_after_speed. now rewrite Hmid. }
  split; [exact Hsp |].
  rewrite agent_after_position, Hmid, dist_static_add. exact Hsp.
Qed.

(** An agent that starts the frame farther than [maxSpeed + 10] from
    the exit centre cannot arrive in this frame. *)
Lemma update_keeps_distant (now : R) (this : t) (a : ref) :
  NoDup (agents this) -> In a (agents this) ->
  0 <= Agent.maxSpeed (heap this a) ->
  Agent.maxSpeed (heap this a) + 10
  <= Vector.dist (Agent.position (heap this a))
                 (Environment.exitCenter (env this)) ->
  In a (agents (fst (update now this))).
Proof.
  intros Hnd Hin Hs Hfar.
  rewrite update_survivors by exact Hnd.
  apply filter_In. split; [exact Hin |].
  apply negb_true_iff, num_lt_false.
  destruct (update_member_step now this a Hnd Hin Hs) as [_ Hstep].
  pose proof (dist_triangle (Agent.position (heap this a))
                (Agent.position (heap (fst (update now this)) a))
                (Environment.exitCenter (env this))) as Ht.
  rewrite (dist_sym (Agent.position (heap this a))
                    (Agent.position (heap (fst (update now this)) a))) in Ht.
  lra.
Qed.

Lemma update_nobody_exits (now : R) (this : t) :
  NoDup (agents this) ->
  (forall a, In a (agents this) ->
     0 <= Agent.maxSpeed (heap this a)
     /\ Agent.maxSpeed (heap this a) + 10
        <= Vector.dist (Agent.position (heap this a))
                       (Environment.exitCenter (env this))) ->
  agents (fst (update now this)) = agents this.
Proof.
  intros Hnd Hall. rewrite update_survivors by exact Hnd.
  assert (Hkeep : forall a, In a (agents this) ->
            In a (agents (fst (update now this)))).
  { intros a Ha. destruct (Hall a Ha). now apply update_keeps_distant. }
  rewrite update_survivors in Hkeep by exact Hnd.
  induction (agents this) as [| x l IH] in Hkeep |- *; [reflexivity |].
  cbn [filter].
  assert (Hx : In x (filter (fun a => negb (Environment.isAtExit_default (env this)
                 (Agent.position (heap (fst (update now this)) a)))) (x :: l)))
    by (apply Hkeep; now left).
  apply filter_In in Hx as [_ Hx]. rewrite Hx. f_equal.
  apply IH. intros a Ha.
  assert (Ha' : In a (filter (fun a => negb (Environment.isAtExit_default (env this)
                 (Agent.position (heap (fst (update now this)) a)))) (x :: l)))
    by (apply Hkeep; now right).
  apply filter_In in Ha' as [_ Ha']. apply filter_In. split; assumption.
Qed.

End FrameSteps.

Section Scenes.

Import Simulation.

Lemma dist_along_x (x1 x2 y : R) :
  Vector.dist (Vector.new x1 y) (Vector.new x2 y) = Rabs (x1 - x2).
Proof.
  unfold Vector.dist. cbn [Vector.x Vector.y].
  rewrite <- sqrt_Rsqr_abs. f_equal. unfold Rsqr. ring.
Qed.

Lemma scene_NoDup : NoDup [0%nat; 1%nat].
Proof. repeat constructor; cbn; intuition discriminate. Qed.

Lemma scene_well_formed : well_formed scene.
Proof.
  split; [exact scene_NoDup |].
  split; [apply setupGrid_rectangular | cbn; lra].
Qed.

(** The first candidate drawn with both random values 1/2. *)
Lemma spawn_spot_valid :
  Environment.isPositionValid (Environment.new 800 600)
    (Vector.new (50 + 1 / 2 * 200) (50 + 1 / 2 * 500)) = true.
Proof.
  unfold Environment.isPositionValid.
  cbn [Environment.new Environment.setupEnvironment Environment.push_wall
       Environment.push_zone Environment.walls Environment.restrictedZones
       Environment.width Environment.height app existsb].
  unfold Environment.rectIntersect, Environment.out_of_bounds,
    Environment.agentRect.
  cbn [Vector.x Vector.y Rect.x Rect.y Rect.w Rect.h Environment.width
       Environment.height].
  num_compare. reflexivity.
Qed.

Lemma initAgents_loop_constant (e : Environment.t) (pr u : R) (n : nat) :
  Environment.isPositionValid e (Vector.new (50 + u * 200) (50 + u * 500))
  = true ->
  forall (rest : list R) (l : list ref) (h : Heap),
  exists l' h',
    initAgents_loop e pr n (repeat u (2 * n) ++ rest) l h = Some (l', h', rest).
Proof.
  intros Hv. induction n as [| n IH]; intros rest l h.
  - exists l, h. reflexivity.
  - replace (2 * S n)%nat with (S (S (2 * n))) by lia.
    cbn [repeat app initAgents_loop spawn_point Rect.x Rect.y Rect.w Rect.h].
    rewrite Hv. cbn [negb]. apply IH.
Qed.

Lemma new_succeeds :
  exists this, new 800 600 0 (repeat (1 / 2) 100) = Some this.
Proof.
  unfold new, initAgents.
  cbn [env params heap numAgents perceptionRadius].
  destruct (initAgents_loop_constant (Environment.new 800 600) 50 (1 / 2) 50
              spawn_spot_valid [] [] unallocated) as (l & h & E).
  change (2 * 50)%nat with 100%nat in E. rewrite app_nil_r in E.
  rewrite E. eauto.
Qed.

End Scenes.

Ltac clamp_far :=
  unfold Agent.closestPoint, Rmax, Rmin;
  cbn [Vector.x Vector.y Rect.x Rect.y Rect.w Rect.h Agent.position
       Agent.wallPerceptionRadius Agent.desiredSeparation stuck Agent.new];
  repeat match goal with
         | |- context [Rle_dec ?a ?b] => destruct (Rle_dec a b)
         end;
  unfold Rabs;
  repeat match goal with
         | |- context [Rcase_abs ?a] => destruct (Rcase_abs a)
         end;
  lra.

(** ** Vector.js *)

(** X1. [normalize] turns a vector whose computed magnitude is not zero
    into a unit vector up to rounding: when every operation rounds
    within the relative error [u], the computed magnitude of the result
    lies between [(1-u)^3 / (1+u)^2] and [(1+u)^3 / (1-u)^2]; it is 1
    in exact arithmetic ([u = 0]). *)
Theorem X1_normalize_unit_up_to_rounding
        (rnd : R -> R) (u : R) (v : Vector.t) :
  0 <= u < 1 ->
  rounds_within u rnd ->
  Rounded.mag rnd v <> 0 ->
  (1 - u) ^ 3 / (1 + u) ^ 2
  <= Rounded.mag rnd (Rounded.normalize rnd v)
  <= (1 + u) ^ 3 / (1 - u) ^ 2.
Proof. intros Hu Hrnd Hm. now apply rounded_mag_normalize. Qed.

Lemma X1_witness :
  0 <= unit_roundoff < 1
  /\ rounds_within unit_roundoff round53
  /\ Rounded.mag round53 (Vector.new 1 1) <> 0
  /\ (1 - unit_roundoff) ^ 3 / (1 + unit_roundoff) ^ 2
     <= Rounded.mag round53 (Rounded.normalize round53 (Vector.new 1 1))
     <= (1 + unit_roundoff) ^ 3 / (1 - unit_roundoff) ^ 2.
Proof.
  assert (Hu : 0 <= unit_roundoff < 1)
    by (pose proof unit_roundoff_small; lra).
  assert (Hm : Rounded.mag round53 (Vector.new 1 1) <> 0).
  { apply (rounded_mag_nonzero round53 unit_roundoff Hu round53_error).
    intros H. apply (proj1 (mag_zero_iff _)) in H.
    injection H as H _. lra. }
  split; [exact Hu |]. split; [exact round53_error |]. split; [exact Hm |].
  apply (X1_normalize_unit_up_to_rounding round53 unit_roundoff
           (Vector.new 1 1) Hu round53_error Hm).
Defined.

(** X2. For a limit that is not negative, [limit] leaves a vector whose
    computed magnitude is at most the limit exactly as it is, and
    clamps a longer one to the limit up to rounding: when every
    operation rounds within the relative error [u], the computed
    magnitude of the clamped vector lies between
    [max * (1-u)^4 / (1+u)^2] and [max * (1+u)^4 / (1-u)^2]. *)
Theorem X2_limit_clamps_up_to_rounding
        (rnd : R -> R) (u : R) (v : Vector.t) (max : R) :
  0 <= u < 1 ->
  rounds_within u rnd ->
  0 <= max ->
  (Rounded.mag rnd v <= max -> Rounded.limit rnd v max = v)
  /\ (max < Rounded.mag rnd v ->
      max * ((1 - u) ^ 4 / (1 + u) ^ 2)
      <= Rounded.mag rnd (Rounded.limit rnd v max)
      <= max * ((1 + u) ^ 4 / (1 - u) ^ 2)).
Proof.
  intros Hu Hrnd Hmax. split.
  - apply rounded_limit_unchanged.
  - intros Hgt. now apply (rounded_mag_limit_clamped rnd u Hu Hrnd).
Qed.

Lemma X2_witness :
  0 <= unit_roundoff < 1
  /\ rounds_within unit_roundoff round53
  /\ 0 <= 2
  /\ 2 < Rounded.mag round53 (Vector.new 19 29)
  /\ 2 * ((1 - unit_roundoff) ^ 4 / (1 + unit_roundoff) ^ 2)
     <= Rounded.mag round53 (Rounded.limit round53 (Vector.new 19 29) 2)
     <= 2 * ((1 + unit_roundoff) ^ 4 / (1 - unit_roundoff) ^ 2).
Proof.
  assert (Hu : 0 <= unit_roundoff < 1)
    by (pose proof unit_roundoff_small; lra).
  assert (H2 : 0 <= 2) by lra.
  assert (Hgt : 2 < Rounded.mag round53 (Vector.new 19 29)).
  { pose proof (rounded_mag_bounds round53 unit_roundoff Hu round53_error
                  (Vector.new 19 29)) as [B _].
    pose proof unit_roundoff_small as Hs.
    pose proof mag_19_29 as Hm.
    assert (Hq : 4 / 5 <= (1 - unit_roundoff) * (1 - unit_roundoff)) by nra.
    assert (4 / 5 * 34
            <= (1 - unit_roundoff) * (1 - unit_roundoff)
               * Vector.mag (Vector.new 19 29))
      by (apply Rmult_le_compat; lra).
    lra. }
  split; [exact Hu |]. split; [exact round53_error |]. split; [exact H2 |].
  split; [exact Hgt |].
  apply (proj2 (X2_limit_clamps_up_to_rounding round53 unit_roundoff
                  (Vector.new 19 29) 2 Hu round53_error H2) Hgt).
Defined.

(** X3. [dist] is never negative, does not depend on the order of the
    two vectors, and is zero exactly between equal vectors. *)
Theorem X3_dist_separates_points (p q : Vector.t) :
  0 <= Vector.dist p q
  /\ Vector.dist p q = Vector.dist q p
  /\ (Vector.dist p q = 0 <-> p = q).
Proof.
  split; [apply dist_nonneg |]. split; [apply dist_sym | apply dist_zero_iff].
Qed.

(** ** Environment.js *)

(** X5. For rectangles of non-negative width and height,
    [rectIntersect] does not depend on the order of its arguments and is
    true exactly when the two closed rectangles share a point (touching
    edges and corners count). *)
Theorem X5_rectIntersect_shared_point (r1 r2 : Rect.t) :
  proper r1 -> proper r2 ->
  Environment.rectIntersect r1 r2 = Environment.rectIntersect r2 r1
  /\ (Environment.rectIntersect r1 r2 = true
      <-> exists p, inside r1 p /\ inside r2 p).
Proof.
  intros H1 H2. split; [apply rectIntersect_sym |].
  rewrite rectIntersect_overlaps. now apply overlaps_shared_point.
Qed.

Lemma X5_witness :
  proper (Rect.mk 0 0 10 10) /\ proper (Rect.mk 10 10 5 5)
  /\ (Environment.rectIntersect (Rect.mk 0 0 10 10) (Rect.mk 10 10 5 5) = true
      <-> exists p, inside (Rect.mk 0 0 10 10) p /\ inside (Rect.mk 10 10 5 5) p).
Proof.
  assert (H1 : proper (Rect.mk 0 0 10 10)) by (unfold proper; cbn; lra).
  assert (H2 : proper (Rect.mk 10 10 5 5)) by (unfold proper; cbn; lra).
  split; [exact H1 |]. split; [exact H2 |].
  apply (proj2 (X5_rectIntersect_shared_point _ _ H1 H2)).
Defined.

(** X6. A position that [isPositionValid] accepts lies inside the
    bounds and is more than 5 (the agent radius) away, in Euclidean
    distance, from the closest point of every wall and restricted zone
    of non-negative size: on a valid position the distance that
    [wallAvoidance] measures is never zero. *)
Theorem X6_valid_position_clearance (env : Environment.t) (a : Agent.t) :
  Environment.isPositionValid env (Agent.position a) = true ->
  (0 <= Vector.x (Agent.position a) <= Environment.width env
   /\ 0 <= Vector.y (Agent.position a) <= Environment.height env)
  /\ forall r,
       In r (Environment.walls env ++ Environment.restrictedZones env) ->
       proper r ->
       5 < Vector.dist (Agent.position a) (Agent.closestPoint a r).
Proof.
  intros Hv. apply valid_parts in Hv as (Hw & Hz & Hb). split.
  - unfold Environment.out_of_bounds in Hb.
    rewrite !orb_false_iff, !num_lt_false, !num_gt_false in Hb. lra.
  - intros r Hin Hp. apply clear_of_rect; [exact Hp |].
    apply in_app_or in Hin as [Hin | Hin].
    + exact (existsb_false_overlaps _ _ _ Hw Hin).
    + exact (existsb_false_overlaps _ _ _ Hz Hin).
Qed.

Lemma X6_witness :
  Environment.isPositionValid (Environment.new 800 600)
                              (Agent.position stander) = true
  /\ (0 <= Vector.x (Agent.position stander)
           <= Environment.width (Environment.new 800 600)
      /\ 0 <= Vector.y (Agent.position stander)
              <= Environment.height (Environment.new 800 600)).
Proof.
  assert (Hv : Environment.isPositionValid (Environment.new 800 600)
                 (Agent.position stander) = true)
    by (apply (valid_corridor 400 300); lra).
  split; [exact Hv |].
  apply (proj1 (X6_valid_position_clearance (Environment.new 800 600)
                  stander Hv)).
Defined.

(** X7. When the exit rectangle is at least 20 wide and 20 high (the
    constructor makes it 50 by 50), every point that [isAtExit] accepts
    with the default threshold 10 lies inside the exit rectangle. *)
Theorem X7_arrival_disc_inside_exit (env : Environment.t) (pos : Vector.t) :
  20 <= Rect.w (Environment.exit env) ->
  20 <= Rect.h (Environment.exit env) ->
  Environment.isAtExit_default env pos = true ->
  inside (Environment.exit env) pos.
Proof.
  intros Hw Hh Hat.
  unfold Environment.isAtExit_default, Environment.isAtExit in Hat.
  apply num_lt_true in Hat.
  assert (Ax : Rabs (Vector.x pos - (Rect.x (Environment.exit env)
                      + Rect.w (Environment.exit env) / 2)) < 10).
  { eapply Rle_lt_trans; [| exact Hat].
    exact (abs_dx_le_dist pos (Environment.exitCenter env)). }
  assert (Ay : Rabs (Vector.y pos - (Rect.y (Environment.exit env)
                      + Rect.h (Environment.exit env) / 2)) < 10).
  { eapply Rle_lt_trans; [| exact Hat].
    exact (abs_dy_le_dist pos (Environment.exitCenter env)). }
  apply Rabs_def2 in Ax, Ay. unfold inside. lra.
Qed.

Lemma X7_witness :
  20 <= Rect.w (Environment.exit (Environment.new 800 600))
  /\ 20 <= Rect.h (Environment.exit (Environment.new 800 600))
  /\ Environment.isAtExit_default (Environment.new 800 600)
       (Environment.exitCenter (Environment.new 800 600)) = true
  /\ inside (Environment.exit (Environment.new 800 600))
            (Environment.exitCenter (Environment.new 800 600)).
Proof.
  assert (Hw : 20 <= Rect.w (Environment.exit (Environment.new 800 600)))
    by (cbn; lra).
  assert (Hh : 20 <= Rect.h (Environment.exit (Environment.new 800 600)))
    by (cbn; lra).
  assert (Hat : Environment.isAtExit_default (Environment.new 800 600)
                  (Environment.exitCenter (Environment.new 800 600)) = true).
  { apply num_lt_true. rewrite (proj2 (dist_zero_iff _ _) eq_refl). lra. }
  split; [exact Hw |]. split; [exact Hh |]. split; [exact Hat |].
  apply (X7_arrival_disc_inside_exit _ _ Hw Hh Hat).
Defined.

(** ** Agent.js *)


(** X9. An agent with zero velocity is left exactly as it is by
    [Agent.update], whether its position is valid or not: the soft
    correction never moves an agent out of a wall. *)
Theorem X9_update_at_rest (a : Agent.t) (env : Environment.t) :
  Agent.velocity a = Vector.new 0 0 -> Agent.update a env = a.
Proof.
  intros Hv. destruct a as [p v ms pr ds rd wr]. cbn in Hv. subst v.
  unfold Agent.update. cbn [Agent.set_velocity Agent.set_position
    Agent.velocity Agent.position Agent.maxSpeed Agent.perceptionRadius
    Agent.desiredSeparation Agent.radius Agent.wallPerceptionRadius].
  rewrite limit_zero_vector, mult_zero_vector, static_add_zero.
  now destruct (Environment.isPositionValid env p).
Qed.

Lemma X9_witness :
  Agent.velocity stuck = Vector.new 0 0
  /\ Agent.update stuck (Environment.new 800 600) = stuck.
Proof.
  split; [reflexivity |].
  apply (X9_update_at_rest stuck (Environment.new 800 600)). reflexivity.
Defined.

(** X10. [separation] returns the zero vector when every neighbour is
    either at distance exactly 0 (the same point) or at least
    [desiredSeparation] away; in particular for an empty neighbour list. *)
Theorem X10_separation_ignores_far_and_coincident
        (a : Agent.t) (neighbors : list Agent.t) :
  (forall n, In n neighbors ->
     Vector.dist (Agent.position a) (Agent.position n) = 0
     \/ Agent.desiredSeparation a
        <= Vector.dist (Agent.position a) (Agent.position n)) ->
  Agent.separation a neighbors = Vector.new 0 0.
Proof.
  intros H. unfold Agent.separation.
  rewrite (fold_repel_skip a _ Agent.position neighbors _ H).
  apply steer_finish_zero.
Qed.

Lemma X10_witness :
  (forall n, In n [stander] ->
     Vector.dist (Agent.position walker) (Agent.position n) = 0
     \/ Agent.desiredSeparation walker
        <= Vector.dist (Agent.position walker) (Agent.position n))
  /\ Agent.separation walker [stander] = Vector.new 0 0.
Proof.
  assert (H : forall n, In n [stander] ->
     Vector.dist (Agent.position walker) (Agent.position n) = 0
     \/ Agent.desiredSeparation walker
        <= Vector.dist (Agent.position walker) (Agent.position n)).
  { intros n [<- | []]. right.
    change (20 <= Vector.dist (Vector.new 764 300) (Vector.new 400 300)).
    rewrite dist_along_x. unfold Rabs. destruct (Rcase_abs _); lra. }
  split; [exact H |].
  apply (X10_separation_ignores_far_and_coincident walker [stander] H).
Defined.

(** X11. [wallAvoidance] returns the zero vector when every wall and
    restricted zone either contains the agent's position (the closest
    point is then the position itself, at distance 0) or has its
    closest point at least [wallPerceptionRadius] away: an agent inside
    a wall is not pushed out of it. *)
Theorem X11_wallAvoidance_blind_spots (a : Agent.t) (env : Environment.t) :
  (forall r,
     In r (Environment.walls env ++ Environment.restrictedZones env) ->
     inside r (Agent.position a)
     \/ Agent.wallPerceptionRadius a
        <= Vector.dist (Agent.position a) (Agent.closestPoint a r)) ->
  Agent.wallAvoidance a env = Vector.new 0 0.
Proof.
  intros H. unfold Agent.wallAvoidance.
  assert (Hskip : forall r,
            In r (Environment.walls env ++ Environment.restrictedZones env) ->
            Vector.dist (Agent.position a) (Agent.closestPoint a r) = 0
            \/ Agent.wallPerceptionRadius a
               <= Vector.dist (Agent.position a) (Agent.closestPoint a r)).
  { intros r Hin. destruct (H r Hin) as [Hi | Hf]; [left | now right].
    rewrite closestPoint_inside by exact Hi. now apply dist_zero_iff. }
  rewrite (fold_repel_skip a _ (Agent.closestPoint a) (Environment.walls env))
    by (intros r Hr; apply Hskip, in_or_app; now left).
  rewrite (fold_repel_skip a _ (Agent.closestPoint a)
             (Environment.restrictedZones env))
    by (intros r Hr; apply Hskip, in_or_app; now right).
  apply steer_finish_zero.
Qed.

Lemma X11_witness :
  (forall r,
     In r (Environment.walls (Environment.new 800 600)
           ++ Environment.restrictedZones (Environment.new 800 600)) ->
     inside r (Agent.position stuck)
     \/ Agent.wallPerceptionRadius stuck
        <= Vector.dist (Agent.position stuck) (Agent.closestPoint stuck r))
  /\ Agent.wallAvoidance stuck (Environment.new 800 600) = Vector.new 0 0.
Proof.
  assert (H : forall r,
     In r (Environment.walls (Environment.new 800 600)
           ++ Environment.restrictedZones (Environment.new 800 600)) ->
     inside r (Agent.position stuck)
     \/ Agent.wallPerceptionRadius stuck
        <= Vector.dist (Agent.position stuck) (Agent.closestPoint stuck r)).
  { cbn [Environment.new Environment.setupEnvironment Environment.push_wall
         Environment.push_zone Environment.walls Environment.restrictedZones
         Environment.width Environment.height app In].
    intros r [<- | [<- | [<- | [<- | [<- | [<- | []]]]]]].
    - left. unfold inside. cbn. lra.
    - right. eapply Rle_trans; [| apply abs_dy_le_dist]. clamp_far.
    - right. eapply Rle_trans; [| apply abs_dx_le_dist]. clamp_far.
    - right. eapply Rle_trans; [| apply abs_dx_le_dist]. clamp_far.
    - right. eapply Rle_trans; [| apply abs_dx_le_dist]. clamp_far.
    - right. eapply Rle_trans; [| apply abs_dx_le_dist]. clamp_far. }
  split; [exact H |].
  apply (X11_wallAvoidance_blind_spots stuck (Environment.new 800 600) H).
Defined.

(** X13. With at least one neighbour, [cohesion] is [seekGoal] towards
    the centroid of the neighbours' positions. *)
Theorem X13_cohesion_seeks_centroid (a : Agent.t) (neighbors : list Agent.t) :
  neighbors <> [] ->
  Agent.cohesion a neighbors
  = Agent.seekGoal a
      (Vector.div (sum_positions neighbors) (INR (length neighbors))).
Proof.
  intros Hne. unfold Agent.cohesion. rewrite positions_loop.
  fold (sum_positions neighbors). cbn [fst snd].
  destruct neighbors as [| n l]; [contradiction |]. reflexivity.
Qed.

Lemma X13_witness :
  [stander] <> []
  /\ Agent.cohesion walker [stander]
     = Agent.seekGoal walker
         (Vector.div (sum_positions [stander]) (INR (length [stander]))).
Proof.
  assert (H : [stander] <> []) by discriminate.
  split; [exact H |].
  apply (X13_cohesion_seeks_centroid walker [stander] H).
Defined.

(** ** Simulation.js *)

(** X15. With a positive cell size, the bound check of [updateGrid] and
    [getNeighbors] accepts the cell of a position exactly when
    [0 <= x < columns * gridSize] and [0 <= y < rows * gridSize]: a
    position on the far edge of the grid is not indexed. *)
Theorem X15_grid_indexable_range (g : Simulation.Grid) (gridSize : R) (a : Agent.t) :
  0 < gridSize ->
  Simulation.in_grid g (Simulation.col_of gridSize a)
                     (Simulation.row_of gridSize a) = true
  <-> (0 <= Vector.x (Agent.position a) < INR (cols g) * gridSize)
      /\ (0 <= Vector.y (Agent.position a) < INR (rows g) * gridSize).
Proof. apply in_grid_range. Qed.

Lemma X15_witness :
  0 < 50
  /\ (Simulation.in_grid (Simulation.grid scene)
        (Simulation.col_of 50 stander) (Simulation.row_of 50 stander) = true
      <-> (0 <= Vector.x (Agent.position stander)
           < INR (cols (Simulation.grid scene)) * 50)
          /\ (0 <= Vector.y (Agent.position stander)
              < INR (rows (Simulation.grid scene)) * 50)).
Proof.
  assert (H : 0 < 50) by lra.
  split; [exact H |].
  apply (X15_grid_indexable_range (Simulation.grid scene) 50 stander H).
Defined.

(** X16. The grid [setupGrid] builds has only empty buckets and, for a
    positive cell size, gives a bucket to every position with
    [0 <= x < canvas.width] and [0 <= y < canvas.height]. *)
Theorem X16_setupGrid_covers_canvas (this : Simulation.t) (a : Agent.t) :
  0 < Simulation.gridSize this ->
  0 <= Vector.x (Agent.position a) < Simulation.canvas_width this ->
  0 <= Vector.y (Agent.position a) < Simulation.canvas_height this ->
  Simulation.in_grid (Simulation.grid (Simulation.setupGrid this))
    (Simulation.col_of (Simulation.gridSize this) a)
    (Simulation.row_of (Simulation.gridSize this) a) = true
  /\ forall c r,
       Simulation.bucket (Simulation.grid (Simulation.setupGrid this)) c r = [].
Proof.
  intros Hgs Hx Hy. split; [| apply setupGrid_empty].
  destruct (setupGrid_dims this) as [Hc Hr].
  pose proof (ceil_cover (Simulation.canvas_width this) _ Hgs) as Hcw.
  pose proof (ceil_cover (Simulation.canvas_height this) _ Hgs) as Hch.
  assert (Hpos : (0 < cols (Simulation.grid (Simulation.setupGrid this)))%nat).
  { rewrite Hc. apply INR_lt. cbn [INR].
    apply (Rmult_lt_reg_r (Simulation.gridSize this)); [exact Hgs |]. lra. }
  apply (proj2 (in_grid_range _ (Simulation.gridSize this) a Hgs)).
  rewrite Hc, (Hr Hpos). lra.
Qed.

Lemma X16_witness :
  0 < Simulation.gridSize scene
  /\ 0 <= Vector.x (Agent.position stander) < Simulation.canvas_width scene
  /\ 0 <= Vector.y (Agent.position stander) < Simulation.canvas_height scene
  /\ Simulation.in_grid (Simulation.grid (Simulation.setupGrid scene))
       (Simulation.col_of (Simulation.gridSize scene) stander)
       (Simulation.row_of (Simulation.gridSize scene) stander) = true.
Proof.
  assert (H1 : 0 < Simulation.gridSize scene) by (cbn; lra).
  assert (H2 : 0 <= Vector.x (Agent.position stander)
               < Simulation.canvas_width scene) by (cbn; lra).
  assert (H3 : 0 <= Vector.y (Agent.position stander)
               < Simulation.canvas_height scene) by (cbn; lra).
  split; [exact H1 |]. split; [exact H2 |]. split; [exact H3 |].
  apply (proj1 (X16_setupGrid_covers_canvas scene stander H1 H2 H3)).
Defined.

(** X17. Right after [updateGrid], with a positive cell size,
    [getNeighbors] misses no agent: every other active agent whose cell
    is inside the grid and whose distance is below the querying agent's
    [perceptionRadius] is in the result, unless the result is cut at
    10.  The square of buckets scanned always covers the perception
    disc. *)
Theorem X17_getNeighbors_complete_after_rebuild
        (this : Simulation.t) (agent other : ref) :
  rectangular (Simulation.grid this) ->
  0 < Simulation.gridSize this ->
  In other (Simulation.agents this) ->
  other <> agent ->
  Simulation.in_grid (Simulation.grid this)
    (Simulation.col_of (Simulation.gridSize this) (Simulation.heap this other))
    (Simulation.row_of (Simulation.gridSize this) (Simulation.heap this other))
  = true ->
  Vector.dist (Agent.position (Simulation.heap this agent))
              (Agent.position (Simulation.heap this other))
  < Agent.perceptionRadius (Simulation.heap this agent) ->
  let found :=
    Simulation.getNeighbors
      (Simulation.grid (Simulation.updateGrid this))
      (Simulation.gridSize this) (Simulation.heap this) agent in
  In other found \/ length found = 10%nat.
Proof.
  intros Hg Hgs Hin Hne Hcell Hd found.
  set (gs := Simulation.gridSize this) in *.
  set (h := Simulation.heap this) in *.
  set (g' := Simulation.grid (Simulation.updateGrid this)) in *.
  destruct (updateGrid_shape this Hg) as (_ & Hc' & Hr').
  assert (Hcell' : Simulation.in_grid g' (Simulation.col_of gs (h other))
                     (Simulation.row_of gs (h other)) = true).
  { apply in_grid_spec. apply in_grid_spec in Hcell.
    unfold g'. rewrite Hc', Hr'. exact Hcell. }
  pose proof (proj1 (in_grid_spec _ _ _) Hcell) as [Hcb Hrb].
  assert (Hb : In other (Simulation.bucket g'
                 (Z.to_nat (Simulation.col_of gs (h other)))
                 (Z.to_nat (Simulation.row_of gs (h other))))).
  { apply updateGrid_bucket_mem; [exact Hg |].
    fold gs h. repeat split; try lia; exact Hin. }
  assert (Hs : In other (scanned g' gs (h agent))).
  { apply (scanned_contains g' gs (h agent) other _ _ Hcell'); [| | exact Hb].
    - apply floor_close; [exact Hgs |].
      eapply Rle_lt_trans; [apply abs_dx_le_dist | exact Hd].
    - apply floor_close; [exact Hgs |].
      eapply Rle_lt_trans; [apply abs_dy_le_dist | exact Hd]. }
  assert (Hm : In other (filter (Simulation.is_neighbor h agent)
                                (scanned g' gs (h agent)))).
  { apply filter_In. split; [exact Hs |]. now apply is_neighbor_spec. }
  unfold found. rewrite getNeighbors_firstn.
  destruct (Nat.le_gt_cases
              (length (filter (Simulation.is_neighbor h agent)
                              (scanned g' gs (h agent)))) 10) as [Hle | Hgt].
  - left. now rewrite firstn_all2.
  - right. apply firstn_length_le. lia.
Qed.

Lemma X17_witness :
  rectangular (Simulation.grid pair_scene)
  /\ 0 < Simulation.gridSize pair_scene
  /\ In 1%nat (Simulation.agents pair_scene)
  /\ 1%nat <> 0%nat
  /\ (In 1%nat (Simulation.getNeighbors
                  (Simulation.grid (Simulation.updateGrid pair_scene))
                  (Simulation.gridSize pair_scene)
                  (Simulation.heap pair_scene) 0%nat)
      \/ length (Simulation.getNeighbors
                   (Simulation.grid (Simulation.updateGrid pair_scene))
                   (Simulation.gridSize pair_scene)
                   (Simulation.heap pair_scene) 0%nat) = 10%nat).
Proof.
  assert (H1 : rectangular (Simulation.grid pair_scene))
    by apply setupGrid_rectangular.
  assert (H2 : 0 < Simulation.gridSize pair_scene) by (cbn; lra).
  assert (H3 : In 1%nat (Simulation.agents pair_scene)) by (cbn; auto).
  assert (H4 : 1%nat <> 0%nat) by discriminate.
  split; [exact H1 |]. split; [exact H2 |]. split; [exact H3 |].
  split; [exact H4 |].
  apply (X17_getNeighbors_complete_after_rebuild pair_scene 0%nat 1%nat
           H1 H2 H3 H4).
  - apply (setupGrid_in_grid
             (Simulation.mk 800 600 (Environment.new 800 600)
                [0%nat; 1%nat] pair_heap 0 0 0 0 scene_params [] 50 None)
             (pair_heap 1%nat)); cbn; lra.
  - change (Vector.dist (Vector.new 400 300) (Vector.new 420 300) < 50).
    rewrite dist_along_x. unfold Rabs. destruct (Rcase_abs _); lra.
Defined.

(** X18. On a grid rebuilt from distinct agents, [getNeighbors] (with
    whatever positions the agents have when it is called) returns no
    agent twice, and only agents that were in [this.agents] at the
    rebuild. *)
Theorem X18_getNeighbors_distinct_members (this : Simulation.t) (h : Heap)
        (agent : ref) :
  NoDup (Simulation.agents this) ->
  rectangular (Simulation.grid this) ->
  let found :=
    Simulation.getNeighbors
      (Simulation.grid (Simulation.updateGrid this))
      (Simulation.gridSize this) h agent in
  NoDup found /\ forall other, In other found -> In other (Simulation.agents this).
Proof.
  intros Hnd Hg found. unfold found. rewrite getNeighbors_firstn. split.
  - apply NoDup_firstn, NoDup_filter. now apply scanned_NoDup.
  - intros other Hin. apply in_firstn in Hin.
    apply filter_In in Hin as [Hin _].
    apply in_scanned in Hin as (c & r & Hin).
    now apply in_bucket_updateGrid in Hin.
Qed.

Lemma X18_witness :
  NoDup (Simulation.agents scene)
  /\ rectangular (Simulation.grid scene)
  /\ NoDup (Simulation.getNeighbors
              (Simulation.grid (Simulation.updateGrid scene))
              (Simulation.gridSize scene) scene_heap 0%nat).
Proof.
  assert (H1 : NoDup (Simulation.agents scene)) by exact scene_NoDup.
  assert (H2 : rectangular (Simulation.grid scene))
    by apply setupGrid_rectangular.
  split; [exact H1 |]. split; [exact H2 |].
  apply (proj1 (X18_getNeighbors_distinct_members scene scene_heap 0%nat H1 H2)).
Defined.

(** X19. [calculateMaxDensity] is never negative and, when every active
    agent has a [perceptionRadius] of at least [radius > 0], at most
    [10 / (PI * radius^2)]: the cap of [getNeighbors] caps the density
    statistic. *)
Theorem X19_maxDensity_capped (this : Simulation.t) (radius : R) :
  0 < radius ->
  (forall a, In a (Simulation.agents this) ->
             radius <= Agent.perceptionRadius (Simulation.heap this a)) ->
  0 <= Simulation.calculateMaxDensity this <= 10 / (PI * radius ^ 2).
Proof.
  intros Hr Hall. unfold Simulation.calculateMaxDensity.
  pose proof PI_RGT_0 as Hpi.
  assert (Hden : 0 < PI * radius ^ 2) by (apply Rmult_lt_0_compat; nra).
  apply fold_Rmax_bounds.
  - apply Rlt_le, Rdiv_lt_0_compat; lra.
  - intros a Ha. specialize (Hall a Ha).
    set (n := length _).
    assert (Hn : INR n <= 10).
    { replace 10 with (INR 10) by (cbn; lra). apply le_INR.
      unfold n. rewrite getNeighbors_firstn. apply firstn_le_length. }
    assert (Hn0 : 0 <= INR n) by apply pos_INR.
    assert (Hden' : PI * radius ^ 2
                    <= PI * Agent.perceptionRadius (Simulation.heap this a) ^ 2)
      by (apply Rmult_le_compat_l; nra).
    unfold Rdiv.
    apply Rmult_le_compat; try lra.
    + apply Rlt_le, Rinv_0_lt_compat. lra.
    + apply Rinv_le_contravar; lra.
Qed.

Lemma X19_witness :
  0 < 50
  /\ (forall a, In a (Simulation.agents scene) ->
        50 <= Agent.perceptionRadius (Simulation.heap scene a))
  /\ 0 <= Simulation.calculateMaxDensity scene <= 10 / (PI * 50 ^ 2).
Proof.
  assert (H1 : 0 < 50) by lra.
  assert (H2 : forall a, In a (Simulation.agents scene) ->
                 50 <= Agent.perceptionRadius (Simulation.heap scene a))
    by (intros a [<- | [<- | []]]; cbn; lra).
  split; [exact H1 |]. split; [exact H2 |].
  apply (X19_maxDensity_capped scene 50 H1 H2).
Defined.

(** X20. After [update], with distinct agents in the array, the array
    holds exactly the agents whose new position is not within the
    arrival threshold of the exit centre, in their old order. *)
Theorem X20_update_survivors_are_those_not_at_exit
        (now : R) (this : Simulation.t) :
  NoDup (Simulation.agents this) ->
  let after := fst (Simulation.update now this) in
  Simulation.agents after
  = filter (fun a => negb (Environment.isAtExit_default (Simulation.env this)
                             (Agent.position (Simulation.heap after a))))
           (Simulation.agents this).
Proof. intros Hnd after. now apply update_survivors. Qed.

Lemma X20_witness :
  NoDup (Simulation.agents scene)
  /\ Simulation.agents (fst (Simulation.update 16 scene))
     = filter (fun a => negb (Environment.isAtExit_default
                               (Simulation.env scene)
                               (Agent.position
                                  (Simulation.heap
                                     (fst (Simulation.update 16 scene)) a))))
              (Simulation.agents scene).
Proof.
  assert (H : NoDup (Simulation.agents scene)) by exact scene_NoDup.
  split; [exact H |].
  apply (X20_update_survivors_are_those_not_at_exit 16 scene H).
Defined.

(** X21. [update] advances [frame] by one and leaves the environment,
    the parameters, the cell size and the start time as they are; it
    does not touch an agent outside [this.agents], and of the agents it
    changes only position and velocity. *)
Theorem X21_update_frame_conditions (now : R) (this : Simulation.t) (r : ref) :
  let after := fst (Simulation.update now this) in
  (Simulation.frame after = S (Simulation.frame this)
   /\ Simulation.env after = Simulation.env this
   /\ Simulation.params after = Simulation.params this
   /\ Simulation.gridSize after = Simulation.gridSize this
   /\ Simulation.startTime after = Simulation.startTime this)
  /\ (~ In r (Simulation.agents this) ->
      Simulation.heap after r = Simulation.heap this r)
  /\ (Agent.maxSpeed (Simulation.heap after r)
      = Agent.maxSpeed (Simulation.heap this r)
      /\ Agent.perceptionRadius (Simulation.heap after r)
         = Agent.perceptionRadius (Simulation.heap this r)
      /\ Agent.desiredSeparation (Simulation.heap after r)
         = Agent.desiredSeparation (Simulation.heap this r)
      /\ Agent.radius (Simulation.heap after r)
         = Agent.radius (Simulation.heap this r)
      /\ Agent.wallPerceptionRadius (Simulation.heap after r)
         = Agent.wallPerceptionRadius (Simulation.heap this r)).
Proof.
  intros after.
  destruct (update_swept now this) as (_ & Hh & _).
  split; [| split].
  - destruct (update_bookkeeping now this) as (H1 & H2 & H3 & H4 & H5 & _).
    auto.
  - intros Hnin. unfold after. rewrite Hh. unfold swept.
    now rewrite fold_heap_untouched.
  - unfold after. rewrite Hh. unfold swept.
    apply (fold_heap_fields _ _ _ _ (Simulation.agents this)
             (Simulation.mkSweep [] (Simulation.heap this) 0 0%nat) r).
Qed.

(** X23. The loop of [update] reads live state: with distinct agents,
    the iteration of the agent at an index computes its forces from a
    store in which the agents at higher indices already have their new
    position and velocity of this frame, while all other agents still
    have their old ones. *)
Theorem X23_update_reads_live_state
        (now : R) (this : Simulation.t) (pre suf : list ref) (a : ref) :
  Simulation.agents this = pre ++ a :: suf ->
  NoDup (Simulation.agents this) ->
  let after := fst (Simulation.update now this) in
  exists seen : Heap,
    (forall r, In r suf -> seen r = Simulation.heap after r)
    /\ (forall r, ~ In r suf -> seen r = Simulation.heap this r)
    /\ Simulation.heap after a
       = agent_after (Simulation.env this) (Simulation.params this)
           (Simulation.grid (Simulation.updateGrid this))
           (Simulation.gridSize this) seen a.
Proof.
  intros Hag Hnd after.
  destruct (update_swept now this) as (_ & Hh & _).
  unfold after. rewrite Hh. unfold swept. rewrite Hag in Hnd. rewrite Hag.
  destruct (fold_live_state (Simulation.env this) (Simulation.params this)
              (Simulation.grid (Simulation.updateGrid this))
              (Simulation.gridSize this) pre suf a
              (Simulation.mkSweep [] (Simulation.heap this) 0 0%nat) Hnd)
    as (H1 & H2 & H3).
  exists (Simulation.sw_heap
            (fold_right
               (iteration (Simulation.env this) (Simulation.params this)
                  (Simulation.grid (Simulation.updateGrid this))
                  (Simulation.gridSize this))
               (Simulation.mkSweep [] (Simulation.heap this) 0 0%nat) suf)).
  split; [exact H1 | split; [exact H2 | exact H3]].
Qed.

Lemma X23_witness :
  Simulation.agents scene = [] ++ 0%nat :: [1%nat]
  /\ NoDup (Simulation.agents scene)
  /\ exists seen : Heap,
       (forall r, In r [1%nat] ->
          seen r = Simulation.heap (fst (Simulation.update 16 scene)) r)
       /\ (forall r, ~ In r [1%nat] -> seen r = Simulation.heap scene r)
       /\ Simulation.heap (fst (Simulation.update 16 scene)) 0%nat
          = agent_after (Simulation.env scene) (Simulation.params scene)
              (Simulation.grid (Simulation.updateGrid scene))
              (Simulation.gridSize scene) seen 0%nat.
Proof.
  assert (H1 : Simulation.agents scene = [] ++ 0%nat :: [1%nat])
    by reflexivity.
  assert (H2 : NoDup (Simulation.agents scene)) by exact scene_NoDup.
  split; [exact H1 |]. split; [exact H2 |].
  apply (X23_update_reads_live_state 16 scene [] [1%nat] 0%nat H1 H2).
Defined.

(** X24. Over a call of [update], with distinct agents, [maxDensity]
    never decreases, and [jamCount] grows by exactly one when some agent
    that was active at the start of the frame ends it with a speed below
    0.5, and stays as it is otherwise. *)
Theorem X24_update_statistics (now : R) (this : Simulation.t) :
  NoDup (Simulation.agents this) ->
  let after := fst (Simulation.update now this) in
  Simulation.maxDensity this <= Simulation.maxDensity after
  /\ Simulation.jamCount after
     = (Simulation.jamCount this
        + (if existsb (fun a => num_lt (speed_of (Simulation.heap after) a) 0.5)
                      (Simulation.agents this)
           then 1 else 0))%nat.
Proof.
  intros Hnd after.
  destruct (update_statistics now this) as [Hd Hj].
  destruct (update_swept now this) as (_ & Hh & _).
  split.
  - unfold after. rewrite Hd. apply Rmax_l.
  - unfold after. rewrite Hj, Hh. unfold swept.
    rewrite fold_jam by exact Hnd. cbn [Simulation.jamThisFrame Nat.add].
    now rewrite some_filtered.
Qed.

Lemma X24_witness :
  NoDup (Simulation.agents scene)
  /\ Simulation.maxDensity scene
     <= Simulation.maxDensity (fst (Simulation.update 16 scene)).
Proof.
  assert (H : NoDup (Simulation.agents scene)) by exact scene_NoDup.
  split; [exact H |].
  apply (proj1 (X24_update_statistics 16 scene H)).
Defined.

(** X25. In a frame in which no agent leaves (and the array is not
    empty, with distinct agents), [averageSpeed] is the arithmetic mean
    of the speeds of the active agents. *)
Theorem X25_averageSpeed_is_mean_when_nobody_exits
        (now : R) (this : Simulation.t) :
  NoDup (Simulation.agents this) ->
  Simulation.agents this <> [] ->
  let after := fst (Simulation.update now this) in
  Simulation.agents after = Simulation.agents this ->
  Simulation.averageSpeed after = Some (mean_speed after).
Proof.
  intros Hnd Hne after Hsame.
  pose proof (update_averageSpeed now this Hnd) as Havg. cbn zeta in Havg.
  fold after in Havg. rewrite Havg. unfold mean_speed. rewrite Hsame.
  destruct (Simulation.agents this) as [| x l]; [contradiction |].
  reflexivity.
Qed.

Lemma X25_witness :
  NoDup (Simulation.agents pair_scene)
  /\ Simulation.agents pair_scene <> []
  /\ Simulation.agents (fst (Simulation.update 16 pair_scene))
     = Simulation.agents pair_scene
  /\ Simulation.averageSpeed (fst (Simulation.update 16 pair_scene))
     = Some (mean_speed (fst (Simulation.update 16 pair_scene))).
Proof.
  assert (H1 : NoDup (Simulation.agents pair_scene)) by exact scene_NoDup.
  assert (H2 : Simulation.agents pair_scene <> []) by discriminate.
  assert (H3 : Simulation.agents (fst (Simulation.update 16 pair_scene))
               = Simulation.agents pair_scene).
  { apply update_nobody_exits; [exact H1 |].
    intros a [<- | [<- | []]]; (split; [cbn; lra |]);
      (eapply Rle_trans; [| apply abs_dx_le_dist]);
      cbn; unfold Rabs; destruct (Rcase_abs _); lra. }
  split; [exact H1 |]. split; [exact H2 |]. split; [exact H3 |].
  apply (X25_averageSpeed_is_mean_when_nobody_exits 16 pair_scene H1 H2 H3).
Defined.

(** X26. Called with no active agent, [update] keeps the array empty,
    sets [averageSpeed] to 0, leaves [jamCount] (and a [maxDensity] that
    is not negative) as it is, and prints the three lines of the
    evacuation report with the frame number just reached: the report is
    printed again on every call after the evacuation. *)
Theorem X26_update_on_empty_array (now : R) (this : Simulation.t) :
  Simulation.agents this = [] ->
  let after := fst (Simulation.update now this) in
  Simulation.agents after = []
  /\ Simulation.averageSpeed after = Some 0
  /\ Simulation.jamCount after = Simulation.jamCount this
  /\ Simulation.maxDensity after = Rmax (Simulation.maxDensity this) 0
  /\ snd (Simulation.update now this)
     = [Simulation.EvacuationTime (S (Simulation.frame this))
          ((now - Simulation.startTime this) / 1000);
        Simulation.MaxDensityObserved (Rmax (Simulation.maxDensity this) 0);
        Simulation.JamCountLine (Simulation.jamCount this)].
Proof.
  intros Hempty after.
  destruct this as [cw ch e ags h fr md jc st ps g gs av].
  cbn in Hempty. subst ags. unfold after. cbn.
  rewrite Nat.add_0_r. repeat split.
Qed.

Lemma X26_witness :
  Simulation.agents evacuated_scene = []
  /\ snd (Simulation.update 2000 evacuated_scene)
     = [Simulation.EvacuationTime (S (Simulation.frame evacuated_scene))
          ((2000 - Simulation.startTime evacuated_scene) / 1000);
        Simulation.MaxDensityObserved
          (Rmax (Simulation.maxDensity evacuated_scene) 0);
        Simulation.JamCountLine (Simulation.jamCount evacuated_scene)].
Proof.
  assert (H : Simulation.agents evacuated_scene = []) by reflexivity.
  split; [exact H |].
  apply (X26_update_on_empty_array 2000 evacuated_scene H).
Defined.

(** X27. Along any number of calls of [update] from a well-formed
    state, every state is well formed again, its active agents are
    among the initial ones (no agent is added or comes back), and the
    frame counter counts the calls. *)
Theorem X27_run_never_adds_agents (clock : list R) (this : Simulation.t) :
  well_formed this ->
  Forall (fun s => well_formed s
                   /\ incl (Simulation.agents s) (Simulation.agents this))
         (Simulation.run clock this)
  /\ map Simulation.frame (Simulation.run clock this)
     = seq (S (Simulation.frame this)) (length clock).
Proof.
  revert this. induction clock as [| now clock IH]; intros this Hwf.
  - split; [constructor | reflexivity].
  - cbn [Simulation.run map length seq].
    pose proof (update_well_formed now this Hwf) as Hwf'.
    destruct (IH _ Hwf') as [HF Hm].
    assert (Hincl : incl (Simulation.agents (fst (Simulation.update now this)))
                         (Simulation.agents this)).
    { destruct (update_swept now this) as (-> & _ & _). unfold swept.
      intros a Ha. apply fold_agents_incl in Ha as [Ha | []]. exact Ha. }
    split.
    + constructor; [split; assumption |].
      eapply Forall_impl; [| exact HF]. cbn beta.
      intros s [Hs Hi]. split; [exact Hs |].
      intros a Ha. apply Hincl, Hi, Ha.
    + f_equal. rewrite Hm. reflexivity.
Qed.

Lemma X27_witness :
  well_formed scene
  /\ map Simulation.frame (Simulation.run [16; 33; 50] scene)
     = seq (S (Simulation.frame scene)) (length [16; 33; 50]).
Proof.
  split; [exact scene_well_formed |].
  apply (proj2 (X27_run_never_adds_agents [16; 33; 50] scene scene_well_formed)).
Defined.

(** X28. When the constructor returns (with the values of
    [Math.random()] in [[0, 1)]), the simulation has 50 agents, frame 0
    and the given start time, and every agent is at rest on a position
    that [isPositionValid] accepts, inside the start area
    [[50, 250] x [50, 550]], with [maxSpeed] 2, [perceptionRadius] 50 and
    [desiredSeparation] 20. *)
Theorem X28_constructor_spawns_valid_agents
        (width height now : R) (random : list R) (this : Simulation.t) :
  Forall (fun u => 0 <= u < 1) random ->
  Simulation.new width height now random = Some this ->
  length (Simulation.agents this) = 50%nat
  /\ Simulation.frame this = 0%nat
  /\ Simulation.startTime this = now
  /\ forall a, In a (Simulation.agents this) ->
       spawned (Environment.new width height) 50 (Simulation.heap this a).
Proof.
  intros Hr. unfold Simulation.new, Simulation.initAgents.
  cbn [Simulation.env Simulation.params Simulation.heap Simulation.numAgents
       Simulation.perceptionRadius].
  destruct (Simulation.initAgents_loop _ _ _ random [] Simulation.unallocated)
    as [[[l h] random'] |] eqn:E; [| discriminate].
  intros H. injection H as <-.
  pose proof (initAgents_loop_agents _ _ _ _ _ _ _ _ _ E) as Hl.
  cbn [app length] in Hl.
  split; [| split; [| split]]; try reflexivity.
  - cbn [Simulation.agents Simulation.setupGrid Simulation.set_grid
         Simulation.set_agents]. rewrite Hl. apply length_seq.
  - cbn [Simulation.agents Simulation.heap Simulation.setupGrid
         Simulation.set_grid Simulation.set_agents].
    apply (initAgents_loop_spawned _ _ _ _ _ _ _ _ _ Hr E). intros a [].
Qed.

Lemma X28_witness :
  Forall (fun u => 0 <= u < 1) (repeat (1 / 2) 100)
  /\ exists this,
       Simulation.new 800 600 0 (repeat (1 / 2) 100) = Some this
       /\ length (Simulation.agents this) = 50%nat.
Proof.
  assert (Hr : Forall (fun u => 0 <= u < 1) (repeat (1 / 2) 100)).
  { apply Forall_forall. intros u Hu. apply repeat_spec in Hu. subst u. lra. }
  split; [exact Hr |].
  destruct new_succeeds as [this Hnew].
  exists this. split; [exact Hnew |].
  apply (proj1 (X28_constructor_spawns_valid_agents 800 600 0
                  (repeat (1 / 2) 100) this Hr Hnew)).
Defined.

(** X29. For a wall of the environment, [isNearWall] is true for every
    point outside the wall whose Euclidean distance to it is below 20;
    and it is also true for every point within 20 of the wall's left
    edge line in [x] alone, or of its top edge line in [y] alone,
    however far from the wall the point is. *)
Theorem X29_isNearWall_over_approximates
        (this : Simulation.t) (a : Agent.t) (wall : Rect.t) :
  In wall (Environment.walls (Simulation.env this)) ->
  (~ inside wall (Agent.position a) ->
   proper wall ->
   Vector.dist (Agent.position a) (Agent.closestPoint a wall) < 20 ->
   Simulation.isNearWall this (Agent.position a) = true)
  /\ (Rabs (Vector.x (Agent.position a) - Rect.x wall) < 20 ->
      Simulation.isNearWall this (Agent.position a) = true)
  /\ (Rabs (Vector.y (Agent.position a) - Rect.y wall) < 20 ->
      Simulation.isNearWall this (Agent.position a) = true).
Proof.
  intros Hin.
  assert (Hx : forall d, d < 20 ->
            (d = Rabs (Vector.x (Agent.position a) - Rect.x wall)
             \/ d = Rabs (Vector.x (Agent.position a)
                          - (Rect.x wall + Rect.w wall))
             \/ d = Rabs (Vector.y (Agent.position a) - Rect.y wall)
             \/ d = Rabs (Vector.y (Agent.position a)
                          - (Rect.y wall + Rect.h wall))) ->
            Simulation.isNearWall this (Agent.position a) = true).
  { intros d Hd Hcase. unfold Simulation.isNearWall. apply existsb_exists. exists wall. split; [exact Hin |].
    apply orb_true_iff. rewrite !num_lt_true.
    destruct Hcase as [-> | [-> | [-> | ->]]].
    - left. eapply Rle_lt_trans; [apply Rmin_l | exact Hd].
    - left. eapply Rle_lt_trans; [apply Rmin_r | exact Hd].
    - right. eapply Rle_lt_trans; [apply Rmin_l | exact Hd].
    - right. eapply Rle_lt_trans; [apply Rmin_r | exact Hd]. }
  split; [| split].
  - intros Hout [Hw Hh] Hd.
    pose proof (abs_dx_le_dist (Agent.position a) (Agent.closestPoint a wall)) as Dx.
    pose proof (abs_dy_le_dist (Agent.position a) (Agent.closestPoint a wall)) as Dy.
    unfold inside in Hout.
    destruct (Rlt_dec (Vector.x (Agent.position a)) (Rect.x wall)) as [C1 | C1].
    { apply (Hx (Rabs (Vector.x (Agent.position a) - Rect.x wall))); [| auto].
      assert (E : Vector.x (Agent.closestPoint a wall) = Rect.x wall).
      { unfold Agent.closestPoint. cbn [Vector.x]. apply Rmax_left.
        eapply Rle_trans; [apply Rmin_l | lra]. }
      rewrite E in Dx. lra. }
    destruct (Rlt_dec (Rect.x wall + Rect.w wall) (Vector.x (Agent.position a)))
      as [C2 | C2].
    { apply (Hx (Rabs (Vector.x (Agent.position a)
                       - (Rect.x wall + Rect.w wall)))); [| auto].
      assert (E : Vector.x (Agent.closestPoint a wall)
                  = Rect.x wall + Rect.w wall).
      { unfold Agent.closestPoint. cbn [Vector.x].
        rewrite Rmin_right, Rmax_right by lra. reflexivity. }
      rewrite E in Dx. lra. }
    destruct (Rlt_dec (Vector.y (Agent.position a)) (Rect.y wall)) as [C3 | C3].
    { apply (Hx (Rabs (Vector.y (Agent.position a) - Rect.y wall))); [| auto].
      assert (E : Vector.y (Agent.closestPoint a wall) = Rect.y wall).
      { unfold Agent.closestPoint. cbn [Vector.y]. apply Rmax_left.
        eapply Rle_trans; [apply Rmin_l | lra]. }
      rewrite E in Dy. lra. }
    destruct (Rlt_dec (Rect.y wall + Rect.h wall) (Vector.y (Agent.position a)))
      as [C4 | C4].
    { apply (Hx (Rabs (Vector.y (Agent.position a)
                       - (Rect.y wall + Rect.h wall)))); [| auto 6].
      assert (E : Vector.y (Agent.closestPoint a wall)
                  = Rect.y wall + Rect.h wall).
      { unfold Agent.closestPoint. cbn [Vector.y].
        rewrite Rmin_right, Rmax_right by lra. reflexivity. }
      rewrite E in Dy. lra. }
    exfalso. apply Hout. lra.
  - intros Hd. apply (Hx _ Hd). auto.
  - intros Hd. apply (Hx _ Hd). auto.
Qed.

Lemma X29_witness :
  In (Rect.mk 300 100 20 200) (Environment.walls (Simulation.env scene))
  /\ Rabs (Vector.x (Agent.position (Agent.new 310 590 2 50 20))
           - Rect.x (Rect.mk 300 100 20 200)) < 20
  /\ Simulation.isNearWall scene (Agent.position (Agent.new 310 590 2 50 20))
     = true.
Proof.
  assert (Hin : In (Rect.mk 300 100 20 200)
                   (Environment.walls (Simulation.env scene)))
    by (cbn; auto 6).
  assert (Hx : Rabs (Vector.x (Agent.position (Agent.new 310 590 2 50 20))
                     - Rect.x (Rect.mk 300 100 20 200)) < 20)
    by (cbn; unfold Rabs; destruct (Rcase_abs _); lra).
  split; [exact Hin |]. split; [exact Hx |].
  apply (proj1 (proj2 (X29_isNearWall_over_approximates scene
                         (Agent.new 310 590 2 50 20) _ Hin)) Hx).
Defined.

(** X30. An agent that is at least [maxSpeed + 11] from the exit centre
    when a frame begins is still in the array when it ends (with
    distinct agents and [maxSpeed >= 0]): one step cannot reach the
    arrival threshold 10, with a unit to spare for the rounding of the
    step and of the two distances. *)
Theorem X30_update_keeps_distant_agents
        (now : R) (this : Simulation.t) (a : ref) :
  NoDup (Simulation.agents this) ->
  In a (Simulation.agents this) ->
  0 <= Agent.maxSpeed (Simulation.heap this a) ->
  Agent.maxSpeed (Simulation.heap this a) + 11
  <= Vector.dist (Agent.position (Simulation.heap this a))
                 (Environment.exitCenter (Simulation.env this)) ->
  In a (Simulation.agents (fst (Simulation.update now this))).
Proof.
  intros Hnd Hin Hs Hfar. apply update_keeps_distant; try assumption. lra.
Qed.

Lemma X30_witness :
  NoDup (Simulation.agents scene)
  /\ In 1%nat (Simulation.agents scene)
  /\ 0 <= Agent.maxSpeed (Simulation.heap scene 1%nat)
  /\ Agent.maxSpeed (Simulation.heap scene 1%nat) + 11
     <= Vector.dist (Agent.position (Simulation.heap scene 1%nat))
                    (Environment.exitCenter (Simulation.env scene))
  /\ In 1%nat (Simulation.agents (fst (Simulation.update 16 scene))).
Proof.
  assert (H1 : NoDup (Simulation.agents scene)) by exact scene_NoDup.
  assert (H2 : In 1%nat (Simulation.agents scene)) by (cbn; auto).
  assert (H3 : 0 <= Agent.maxSpeed (Simulation.heap scene 1%nat))
    by (cbn; lra).
  assert (H4 : Agent.maxSpeed (Simulation.heap scene 1%nat) + 11
               <= Vector.dist (Agent.position (Simulation.heap scene 1%nat))
                              (Environment.exitCenter (Simulation.env scene))).
  { eapply Rle_trans; [| apply abs_dx_le_dist].
    cbn. unfold Rabs. destruct (Rcase_abs _); lra. }
  split; [exact H1 |]. split; [exact H2 |]. split; [exact H3 |].
  split; [exact H4 |].
  apply (X30_update_keeps_distant_agents 16 scene 1%nat H1 H2 H3 H4).
Defined.
